(** * outbound-lb: a shallow embedding of the limiter, the health state
    machine and checker, the usage history, the LRU selector, the
    circuit breaker and the proxy's address and credential parsing,
    header handling and connection set-up, with the properties proved
    of them.

    Conventions.  Go's [int] and [int64] are 64-bit two's-complement
    integers and [int32] is 32-bit; they are modelled as [Z] with the
    wrap-around of every arithmetic operation written out ([GoInt.wrap]).
    A [map[string]T] is a [gmap string T].  A pointer stored in a map is
    identified with its key, because the code never stores one pointer
    under two keys.  A method with a pointer receiver takes the receiver's
    value and returns the new one.  [time.Time] is a [Z], the number of
    nanoseconds since Go's zero time, and every call of [time.Now] is an
    explicit argument. *)

From Stdlib Require Import ZArith Lia.
From stdpp Require Import base option list gmap strings.

Local Open Scope Z_scope.

(** ** Machine integers *)

Module GoInt.

(** The value of [x] in [w]-bit two's complement. *)
Definition wrap (w x : Z) : Z := (x + 2 ^ (w - 1)) mod 2 ^ w - 2 ^ (w - 1).

Definition int32 (x : Z) : Z := wrap 32 x.
Definition int64 (x : Z) : Z := wrap 64 x.

Definition MinInt32 : Z := - 2 ^ 31.
Definition MaxInt32 : Z := 2 ^ 31 - 1.
Definition MinInt64 : Z := - 2 ^ 63.
Definition MaxInt64 : Z := 2 ^ 63 - 1.

(** [math.MaxInt] on the 64-bit platforms the proxy is built for. *)
Definition MaxInt : Z := MaxInt64.

Definition in_int32 (x : Z) : Prop := MinInt32 <= x <= MaxInt32.
Definition in_int64 (x : Z) : Prop := MinInt64 <= x <= MaxInt64.

(** [x + y] on [int64] (and on [int]). *)
Definition add64 (x y : Z) : Z := int64 (x + y).

(** [-x] on [int64]: [MinInt64] is its own negative. *)
Definition neg64 (x : Z) : Z := int64 (- x).

(** [runtime.maxAlloc], the largest size of an allocation, on the
    64-bit platforms. *)
Definition maxAlloc : Z := 2 ^ 48.

(** [runtime.makeslice] for [make([]T, 0, cap)], where a [T] takes
    [size] bytes: the call panics (cap out of range) when [cap] is
    negative or the [cap] elements take more than [maxAlloc] bytes.
    Memory that the system cannot provide is no panic but a fatal error
    of the runtime, and is not modelled, here as for every other
    allocation. *)
Definition makeslice_ok (size cap : Z) : bool :=
  (0 <=? cap) && (size * cap <=? maxAlloc).

End GoInt.

(** ** Package limiter (internal/limiter/limiter.go) *)

Module limiter.
Import GoInt.

Inductive error : Type :=
| ErrIPLimitReached
| ErrTotalLimitReached.

(** [maxPerIP] and [maxTotal] are [atomic.Int32], [total] is an
    [atomic.Int64] and [perIP] maps an address to its own [atomic.Int64]. *)
Record Limiter : Type := mkLimiter {
  maxPerIP : Z;
  maxTotal : Z;
  total : Z;
  perIP : gmap string Z
}.

Definition New (maxPerIP maxTotal : Z) (ips : list string) : Limiter :=
  {| maxPerIP := int32 maxPerIP;
     maxTotal := int32 maxTotal;
     total := 0;
     perIP := foldl (fun m ip => <[ip := 0]> m) ∅ ips |}.

Definition UpdateLimits (maxPerIP maxTotal : Z) (l : Limiter) : Limiter :=
  {| maxPerIP := int32 maxPerIP;
     maxTotal := int32 maxTotal;
     total := total l;
     perIP := perIP l |}.

Definition set_total (v : Z) (l : Limiter) : Limiter :=
  {| maxPerIP := maxPerIP l; maxTotal := maxTotal l; total := v; perIP := perIP l |}.

Definition set_perIP (m : gmap string Z) (l : Limiter) : Limiter :=
  {| maxPerIP := maxPerIP l; maxTotal := maxTotal l; total := total l; perIP := m |}.

(** The double-checked creation of the counter of [ip]: the map is left
    alone when [ip] has a counter and gets a zero counter otherwise. *)
Definition getOrCreateCounter (ip : string) (m : gmap string Z) : gmap string Z :=
  match m !! ip with
  | Some _ => m
  | None => <[ip := 0]> m
  end.

(** [Acquire] run without interference from other goroutines: the
    compare-and-swap that follows each [Load] finds the value just
    loaded, so each loop body runs once.  The result is the returned
    error ([None] for [nil]) and the limiter afterwards. *)
Definition Acquire (ip : string) (l : Limiter) : option error * Limiter :=
  let maxTotal := maxTotal l in
  let maxPerIP := maxPerIP l in
  let current := total l in
  if current >=? maxTotal then (Some ErrTotalLimitReached, l)
  else
    let l := set_total (add64 current 1) l in
    let l := set_perIP (getOrCreateCounter ip (perIP l)) l in
    let ipCount := default 0 (perIP l !! ip) in
    if ipCount >=? maxPerIP then
      (Some ErrIPLimitReached, set_total (add64 (total l) (-1)) l)
    else
      (None, set_perIP (<[ip := add64 ipCount 1]> (perIP l)) l).

Definition Release (ip : string) (l : Limiter) : Limiter :=
  let l :=
    match perIP l !! ip with
    | Some c => set_perIP (<[ip := add64 c (-1)]> (perIP l)) l
    | None => l
    end in
  set_total (add64 (total l) (-1)) l.

Definition GetIPCount (ip : string) (l : Limiter) : Z :=
  match perIP l !! ip with
  | None => 0
  | Some c => c
  end.

Definition GetTotalCount (l : Limiter) : Z := total l.

Definition IsIPAvailable (l : Limiter) (ip : string) : bool :=
  match perIP l !! ip with
  | None => true
  | Some c => c <? maxPerIP l
  end.

Definition GetAvailableIPs (l : Limiter) (ips : list string) : list string :=
  filter (fun ip => IsIPAvailable l ip = true) ips.

(** *** Sequences of calls

    A client's call, and a run of a list of calls that keeps, next to the
    limiter, the slots that are held: the addresses of the successful
    [Acquire]s not yet released.  A [Release] of an address that holds no
    slot has no matching [Acquire]; the run stops there with [None]. *)
Inductive call : Type :=
| CallAcquire (ip : string)
| CallRelease (ip : string).

Fixpoint remove_one (ip : string) (held : list string) : option (list string) :=
  match held with
  | [] => None
  | h :: rest =>
      if String.eqb h ip then Some rest
      else match remove_one ip rest with
           | Some rest' => Some (h :: rest')
           | None => None
           end
  end.

Definition step (c : call) (st : Limiter * list string) : option (Limiter * list string) :=
  let '(l, held) := st in
  match c with
  | CallAcquire ip =>
      match Acquire ip l with
      | (None, l') => Some (l', ip :: held)
      | (Some _, l') => Some (l', held)
      end
  | CallRelease ip =>
      match remove_one ip held with
      | Some held' => Some (Release ip l, held')
      | None => None
      end
  end.

Fixpoint run (cs : list call) (st : Limiter * list string) : option (Limiter * list string) :=
  match cs with
  | [] => Some st
  | c :: cs' =>
      match step c st with
      | Some st' => run cs' st'
      | None => None
      end
  end.

(** *** Interleavings

    Each goroutine inside [Acquire] or [Release] is a [frame]: the program
    point it has reached and the locals it carries.  One step of a frame
    is one atomic action of the source (a [Load], a [CompareAndSwap], an
    [Add], or a map access under the mutex).  [Acquire] loads the two
    limits once, on entry; no step changes them here ([UpdateLimits] is
    not among the calls), so a frame reads them from the limiter. *)
Inductive frame : Type :=
| AcqLoadTotal (ip : string)                  (* before [l.total.Load()] *)
| AcqCasTotal (ip : string) (current : Z)     (* before [l.total.CompareAndSwap] *)
| AcqLookup (ip : string)                     (* before the read of [l.perIP[ip]] *)
| AcqCreate (ip : string)                     (* before the double-checked insertion *)
| AcqLoadIP (ip : string)                     (* before [counter.Load()] *)
| AcqCasIP (ip : string) (ipCount : Z)        (* before [counter.CompareAndSwap] *)
| AcqRollback (ip : string)                   (* before [l.total.Add(-1)] *)
| AcqReturned (ip : string) (err : option error)
| RelLookup (ip : string)                     (* before the read of [l.perIP[ip]] *)
| RelDecIP (ip : string)                      (* before [counter.Add(-1)] *)
| RelDecTotal (ip : string)                   (* before [l.total.Add(-1)] *)
| RelReturned (ip : string).

(** One atomic action of a frame; [None] when the call has returned. *)
Definition atomic (f : frame) (l : Limiter) : option (frame * Limiter) :=
  match f with
  | AcqLoadTotal ip =>
      let current := total l in
      if current >=? maxTotal l then Some (AcqReturned ip (Some ErrTotalLimitReached), l)
      else Some (AcqCasTotal ip current, l)
  | AcqCasTotal ip current =>
      if total l =? current then Some (AcqLookup ip, set_total (add64 current 1) l)
      else Some (AcqLoadTotal ip, l)
  | AcqLookup ip =>
      match perIP l !! ip with
      | Some _ => Some (AcqLoadIP ip, l)
      | None => Some (AcqCreate ip, l)
      end
  | AcqCreate ip =>
      Some (AcqLoadIP ip, set_perIP (getOrCreateCounter ip (perIP l)) l)
  | AcqLoadIP ip =>
      let ipCount := default 0 (perIP l !! ip) in
      if ipCount >=? maxPerIP l then Some (AcqRollback ip, l)
      else Some (AcqCasIP ip ipCount, l)
  | AcqCasIP ip ipCount =>
      if default 0 (perIP l !! ip) =? ipCount
      then Some (AcqReturned ip None, set_perIP (<[ip := add64 ipCount 1]> (perIP l)) l)
      else Some (AcqLoadIP ip, l)
  | AcqRollback ip =>
      Some (AcqReturned ip (Some ErrIPLimitReached), set_total (add64 (total l) (-1)) l)
  | AcqReturned _ _ => None
  | RelLookup ip =>
      match perIP l !! ip with
      | Some _ => Some (RelDecIP ip, l)
      | None => Some (RelDecTotal ip, l)
      end
  | RelDecIP ip =>
      Some (RelDecTotal ip,
            set_perIP (<[ip := add64 (default 0 (perIP l !! ip)) (-1)]> (perIP l)) l)
  | RelDecTotal ip =>
      Some (RelReturned ip, set_total (add64 (total l) (-1)) l)
  | RelReturned _ => None
  end.

(** The limiter, the goroutines that have entered a call (in the order
    they entered) and the slots held. *)
Record world : Type := mkWorld {
  lim : Limiter;
  frames : list frame;
  slots : list string
}.

(** What the scheduler does next: a goroutine enters a call, or goroutine
    [i] performs its next atomic action (nothing, when its call has
    returned).  There is no goroutine to schedule beyond the last. *)
Inductive event : Type :=
| Enter (c : call)
| Sched (i : nat).

Definition is_granted (f : frame) : bool :=
  match f with
  | AcqReturned _ None => true
  | _ => false
  end.

Definition frame_ip (f : frame) : string :=
  match f with
  | AcqLoadTotal ip | AcqCasTotal ip _ | AcqLookup ip | AcqCreate ip
  | AcqLoadIP ip | AcqCasIP ip _ | AcqRollback ip | AcqReturned ip _
  | RelLookup ip | RelDecIP ip | RelDecTotal ip | RelReturned ip => ip
  end.

(** A [Release] may only be entered for a slot that is held, which it
    gives up; an [Acquire] that returns [nil] adds a slot. *)
Definition fire (e : event) (w : world) : option world :=
  match e with
  | Enter (CallAcquire ip) =>
      Some (mkWorld (lim w) (frames w ++ [AcqLoadTotal ip]) (slots w))
  | Enter (CallRelease ip) =>
      match remove_one ip (slots w) with
      | Some slots' => Some (mkWorld (lim w) (frames w ++ [RelLookup ip]) slots')
      | None => None
      end
  | Sched i =>
      match frames w !! i with
      | Some f =>
          match atomic f (lim w) with
          | Some (f', l') =>
              Some (mkWorld l' (<[i := f']> (frames w))
                      (if is_granted f' then frame_ip f' :: slots w else slots w))
          | None => Some w
          end
      | None => None
      end
  end.

Fixpoint schedule (es : list event) (w : world) : option world :=
  match es with
  | [] => Some w
  | e :: es' =>
      match fire e w with
      | Some w' => schedule es' w'
      | None => None
      end
  end.

Definition start (l : Limiter) : world := mkWorld l [] [].

Definition returned (f : frame) : bool :=
  match f with
  | AcqReturned _ _ | RelReturned _ => true
  | _ => false
  end.

(** No call is in progress. *)
Definition quiescent (w : world) : Prop :=
  Forall (fun f => returned f = true) (frames w).

(** *** The accounting invariant

    [occ ip held] counts the slots held on [ip]; [owes_total f] is the
    share of the global counter that frame [f] accounts for (an [Acquire]
    between its successful global compare-and-swap and its return, or a
    [Release] that has not yet decremented the global counter), and
    [owes_ip ip f] the share of the counter of [ip] (a [Release] that has
    not yet decremented it). *)
Fixpoint occ (ip : string) (held : list string) : Z :=
  match held with
  | [] => 0
  | h :: rest => (if String.eqb h ip then 1 else 0) + occ ip rest
  end.

Definition owes_total (f : frame) : Z :=
  match f with
  | AcqLookup _ | AcqCreate _ | AcqLoadIP _ | AcqCasIP _ _ | AcqRollback _
  | RelLookup _ | RelDecIP _ | RelDecTotal _ => 1
  | AcqLoadTotal _ | AcqCasTotal _ _ | AcqReturned _ _ | RelReturned _ => 0
  end.

Definition owes_ip (ip : string) (f : frame) : Z :=
  match f with
  | RelLookup ip' | RelDecIP ip' => if String.eqb ip' ip then 1 else 0
  | _ => 0
  end.

Definition sum_frames (g : frame -> Z) (fs : list frame) : Z :=
  foldr (fun f acc => g f + acc) 0 fs.

(** What a frame knows about the limiter from its own past actions. *)
Definition frame_ok (l : Limiter) (f : frame) : Prop :=
  match f with
  | AcqCasTotal _ current => current < maxTotal l
  | AcqLoadIP ip => is_Some (perIP l !! ip)
  | AcqCasIP ip ipCount => is_Some (perIP l !! ip) /\ ipCount < maxPerIP l
  | _ => True
  end.

Record consistent (mp mt : Z) (w : world) : Prop := mkConsistent {
  c_maxPerIP : maxPerIP (lim w) = mp;
  c_maxTotal : maxTotal (lim w) = mt;
  c_total : total (lim w) = Z.of_nat (length (slots w)) + sum_frames owes_total (frames w);
  c_perIP : forall ip, GetIPCount ip (lim w) = occ ip (slots w) + sum_frames (owes_ip ip) (frames w);
  c_total_le : total (lim w) <= mt;
  c_perIP_le : forall ip, GetIPCount ip (lim w) <= mp;
  c_frames : Forall (frame_ok (lim w)) (frames w)
}.

(** The counters as a client observes them through [GetIPCount] and
    [GetTotalCount]. *)
Definition within_limits (l : Limiter) : Prop :=
  (forall ip, 0 <= GetIPCount ip l <= maxPerIP l) /\ 0 <= GetTotalCount l <= maxTotal l.

Definition all_zero (l : Limiter) : Prop :=
  GetTotalCount l = 0 /\ forall ip, GetIPCount ip l = 0.

(** A sequence of calls used as a test: the third [Acquire] of 10.0.0.1
    is refused when the limit per address is two. *)
Definition limiter_trace : list call :=
  [CallAcquire "10.0.0.1"; CallAcquire "10.0.0.1"; CallAcquire "10.0.0.1";
   CallAcquire "10.0.0.2"; CallRelease "10.0.0.1"; CallRelease "10.0.0.2";
   CallRelease "10.0.0.1"].

(** [Stats]: the map starts with the key "total" and then gets one key
    per counter, so the counter of an address written "total" replaces
    the global count.  Go visits the counters in an unspecified order:
    [range_order] is the order of one run of the loop, a permutation of
    the counters. *)
Definition Stats_ranging (range_order : list (string * Z)) (l : Limiter) : gmap string Z :=
  let stats : gmap string Z := <["total" := total l]> ∅ in
  foldl (fun stats kv => <[kv.1 := kv.2]> stats) stats range_order.

Definition Stats (l : Limiter) : gmap string Z := Stats_ranging (map_to_list (perIP l)) l.

End limiter.

(** ** Package health (internal/health/status.go) *)

Module health.
Import GoInt.

Inductive HealthState : Type :=
| StateHealthy
| StateUnhealthy
| StateRecovering.

Definition HealthState_eqb (a b : HealthState) : bool :=
  match a, b with
  | StateHealthy, StateHealthy
  | StateUnhealthy, StateUnhealthy
  | StateRecovering, StateRecovering => true
  | _, _ => false
  end.

(** [LastError] holds the message of the error, [None] for [nil]. *)
Record IPStatus : Type := mkIPStatus {
  IP : string;
  State : HealthState;
  ConsecutiveFailures : Z;
  ConsecutiveSuccesses : Z;
  LastCheck : Z;
  LastError : option string
}.

Definition NewIPStatus (ip : string) : IPStatus :=
  {| IP := ip; State := StateHealthy; ConsecutiveFailures := 0;
     ConsecutiveSuccesses := 0; LastCheck := 0; LastError := None |}.

Definition GetState (s : IPStatus) : HealthState := State s.

Definition IsHealthy (s : IPStatus) : bool := HealthState_eqb (State s) StateHealthy.

Definition set_State (st : HealthState) (s : IPStatus) : IPStatus :=
  {| IP := IP s; State := st; ConsecutiveFailures := ConsecutiveFailures s;
     ConsecutiveSuccesses := ConsecutiveSuccesses s; LastCheck := LastCheck s;
     LastError := LastError s |}.

Definition set_ConsecutiveSuccesses (n : Z) (s : IPStatus) : IPStatus :=
  {| IP := IP s; State := State s; ConsecutiveFailures := ConsecutiveFailures s;
     ConsecutiveSuccesses := n; LastCheck := LastCheck s; LastError := LastError s |}.

(** The whole body runs under [s.mu]; [now] is the value of [time.Now()].
    The result is the returned flag and the status afterwards. *)
Definition RecordSuccess (now : Z) (successThreshold : Z) (s : IPStatus) : bool * IPStatus :=
  let s := {| IP := IP s; State := State s;
              ConsecutiveFailures := 0;
              ConsecutiveSuccesses := add64 (ConsecutiveSuccesses s) 1;
              LastCheck := now; LastError := None |} in
  let oldState := State s in
  let s :=
    match State s with
    | StateUnhealthy => set_ConsecutiveSuccesses 1 (set_State StateRecovering s)
    | StateRecovering =>
        if ConsecutiveSuccesses s >=? successThreshold then set_State StateHealthy s else s
    | StateHealthy => s
    end in
  (negb (HealthState_eqb oldState (State s)), s).

Definition RecordFailure (now : Z) (err : option string) (failureThreshold : Z)
    (s : IPStatus) : bool * IPStatus :=
  let s := {| IP := IP s; State := State s;
              ConsecutiveFailures := add64 (ConsecutiveFailures s) 1;
              ConsecutiveSuccesses := 0;
              LastCheck := now; LastError := err |} in
  let oldState := State s in
  let s :=
    match State s with
    | StateHealthy =>
        if ConsecutiveFailures s >=? failureThreshold then set_State StateUnhealthy s else s
    | StateRecovering => set_State StateUnhealthy s
    | StateUnhealthy => s
    end in
  (negb (HealthState_eqb oldState (State s)), s).

(** *** Sequences of health-check results

    Both methods hold the mutex of the status for their whole body, so
    concurrent calls take effect one after the other: an interleaving of
    calls is a list of them. *)
Inductive check : Type :=
| Succeeded (now : Z) (successThreshold : Z)
| Failed (now : Z) (err : option string) (failureThreshold : Z).

Definition record (c : check) (s : IPStatus) : IPStatus :=
  match c with
  | Succeeded now st => (RecordSuccess now st s).2
  | Failed now err ft => (RecordFailure now err ft s).2
  end.

(** *** The state machine of the specification

    One transition of the three-state machine, stated as the
    specification words it, on unbounded counters.  "Reaches
    [success_threshold]" is read as the specification's own "if
    [>= success_threshold]".  The specification leaves a success in
    [Healthy] without an effect on the state. *)
Definition machine_step (c : check) (s s' : IPStatus) : Prop :=
  match State s, c with
  | StateHealthy, Failed _ _ failure_threshold =>
      ConsecutiveFailures s' = ConsecutiveFailures s + 1 /\
      ConsecutiveSuccesses s' = 0 /\
      State s' = (if ConsecutiveFailures s' >=? failure_threshold
                  then StateUnhealthy else StateHealthy)
  | StateHealthy, Succeeded _ _ =>
      State s' = StateHealthy
  | StateUnhealthy, Succeeded _ _ =>
      State s' = StateRecovering /\ ConsecutiveSuccesses s' = 1
  | StateUnhealthy, Failed _ _ _ =>
      State s' = StateUnhealthy
  | StateRecovering, Succeeded _ success_threshold =>
      ConsecutiveSuccesses s' = ConsecutiveSuccesses s + 1 /\
      State s' = (if ConsecutiveSuccesses s' >=? success_threshold
                  then StateHealthy else StateRecovering)
  | StateRecovering, Failed _ _ _ =>
      State s' = StateUnhealthy
  end.

(** Every call of the list takes the status through a transition of the
    machine. *)
Fixpoint follows_machine (cs : list check) (s : IPStatus) : Prop :=
  match cs with
  | [] => True
  | c :: cs' => machine_step c s (record c s) /\ follows_machine cs' (record c s)
  end.

(** The status after the results [cs], the first of the list first. *)
Definition record_all (cs : list check) (s : IPStatus) : IPStatus :=
  foldl (fun s c => record c s) s cs.

(** A failed check recorded with the threshold [failureThreshold], and a
    successful one recorded with [successThreshold]. *)
Definition is_failure (failureThreshold : Z) (c : check) : Prop :=
  match c with
  | Failed _ _ ft => ft = failureThreshold
  | Succeeded _ _ => False
  end.

Definition is_success (successThreshold : Z) (c : check) : Prop :=
  match c with
  | Succeeded _ st => st = successThreshold
  | Failed _ _ _ => False
  end.

End health.

(** ** Package health: the checker's view of its statuses
    (internal/health/checker_tcp.go) *)

Module checker.
Import health.

(** The part of [HealthChecker] that [IsHealthy] and [GetHealthyIPs]
    read. *)
Record HealthChecker : Type := mkHealthChecker {
  statuses : gmap string IPStatus
}.

Definition IsHealthy (hc : HealthChecker) (ip : string) : bool :=
  match statuses hc !! ip with
  | None => true
  | Some status => health.IsHealthy status
  end.

Definition GetHealthyIPs (hc : HealthChecker) (ips : list string) : list string :=
  filter (fun ip => match statuses hc !! ip with
                    | None => true
                    | Some status => health.IsHealthy status
                    end = true) ips.

(** The fields of [HealthCheckerConfig] that decide the state of the
    checker; [Checker], [Interval] and [Timeout] drive the probes, whose
    results are arguments here.  The configuration, which no method
    changes, is passed beside the checker. *)
Record HealthCheckerConfig : Type := mkHealthCheckerConfig {
  IPs : list string;
  FailureThreshold : Z;
  SuccessThreshold : Z
}.

Definition NewHealthChecker (cfg : HealthCheckerConfig) : HealthChecker :=
  {| statuses := foldl (fun m ip => <[ip := NewIPStatus ip]> m) ∅ (IPs cfg) |}.

(** The call of [RecordFailure] or [RecordSuccess] that [checkIP] makes
    for the result [r] of a probe: the clock and the returned error
    ([None] for [nil]). *)
Definition result_check (cfg : HealthCheckerConfig) (r : Z * option string) : check :=
  match r.2 with
  | Some e => Failed r.1 (Some e) (FailureThreshold cfg)
  | None => Succeeded r.1 (SuccessThreshold cfg)
  end.

(** [checkIP], given the result [err] of [hc.config.Checker.Check] and
    the clock [now] when it is recorded.  The metrics and the log lines
    are left out. *)
Definition checkIP (cfg : HealthCheckerConfig) (now : Z) (err : option string)
    (ip : string) (hc : HealthChecker) : HealthChecker :=
  match statuses hc !! ip with
  | None => hc
  | Some status =>
      match err with
      | Some e =>
          {| statuses :=
               <[ip := (RecordFailure now (Some e) (FailureThreshold cfg) status).2]>
                 (statuses hc) |}
      | None =>
          {| statuses :=
               <[ip := (RecordSuccess now (SuccessThreshold cfg) status).2]> (statuses hc) |}
      end
  end.

End checker.

(** ** Package balancer (history.go, balancer.go, lru.go)

    A [time.Time] is the number of nanoseconds since Go's zero time, so
    the zero value is [0] and [time.Now()] is positive; a
    [time.Duration] is a number of nanoseconds. *)

Module balancer.
Import GoInt.

Definition After (t u : Z) : bool := u <? t.
Definition Before (t u : Z) : bool := t <? u.
Definition IsZero (t : Z) : bool := t =? 0.

Record Entry : Type := mkEntry {
  IP : string;
  Timestamp : Z
}.

(** [unsafe.Sizeof(Entry{})]: a string header of 16 bytes and a
    [time.Time] of 24. *)
Definition Entry_Sizeof : Z := 40.

Record HostHistory : Type := mkHostHistory {
  entries : list Entry
}.

Definition NewHostHistory : HostHistory := {| entries := [] |}.

Definition HostHistory_Add (now : Z) (ip : string) (h : HostHistory) : HostHistory :=
  {| entries := entries h ++ [{| IP := ip; Timestamp := now |}] |}.

(** The loop of [GetFiltered]: from the most recent entry backwards,
    while the result is shorter than [maxSize]. *)
Fixpoint collect_recent (cutoff maxSize : Z) (newest_first result : list Entry)
    : list Entry :=
  match newest_first with
  | [] => result
  | e :: older =>
      if Z.of_nat (length result) <? maxSize then
        collect_recent cutoff maxSize older
          (if After (Timestamp e) cutoff then result ++ [e] else result)
      else result
  end.

(** [cutoff] is [time.Now().Add(-window)], with the negation of
    [int64].  The result is [None] when [make([]Entry, 0, maxSize)]
    panics. *)
Definition HostHistory_GetFiltered (now window maxSize : Z) (h : HostHistory)
    : option (list Entry) :=
  let cutoff := now + neg64 window in
  if makeslice_ok Entry_Sizeof maxSize then
    Some (collect_recent cutoff maxSize (rev (entries h)) [])
  else None.

(** The number of entries removed and the history afterwards. *)
Definition HostHistory_Cleanup (now window : Z) (h : HostHistory) : Z * HostHistory :=
  let cutoff := now + neg64 window in
  let newEntries := filter (fun e => After (Timestamp e) cutoff = true) (entries h) in
  let removed := Z.of_nat (length (entries h)) - Z.of_nat (length newEntries) in
  (removed, {| entries := newEntries |}).

Definition HostHistory_Len (h : HostHistory) : Z := Z.of_nat (length (entries h)).

Record History : Type := mkHistory {
  hosts : gmap string HostHistory;
  maxTotalEntries : Z;
  totalEntries : Z
}.

Definition WithMaxTotalEntries (max : Z) (h : History) : History :=
  {| hosts := hosts h; maxTotalEntries := max; totalEntries := totalEntries h |}.

Definition NewHistory (opts : list (History -> History)) : History :=
  foldl (fun h opt => opt h) {| hosts := ∅; maxTotalEntries := 0; totalEntries := 0 |} opts.

Definition set_hosts (m : gmap string HostHistory) (h : History) : History :=
  {| hosts := m; maxTotalEntries := maxTotalEntries h; totalEntries := totalEntries h |}.

Definition set_totalEntries (n : Z) (h : History) : History :=
  {| hosts := hosts h; maxTotalEntries := maxTotalEntries h; totalEntries := n |}.

Definition History_GetOrCreate (host : string) (h : History) : HostHistory * History :=
  match hosts h !! host with
  | Some hh => (hh, h)
  | None => (NewHostHistory, set_hosts (<[host := NewHostHistory]> (hosts h)) h)
  end.

(** The scan of [evictOldestLocked]: the locals [oldestHost],
    [oldestTime] and [first] after the hosts of [range_order] have been
    visited. *)
Definition scan_step (acc : string * Z * bool) (kv : string * HostHistory)
    : string * Z * bool :=
  let '(oldestHost, oldestTime, first) := acc in
  let '(host, hh) := kv in
  match entries hh with
  | [] => acc
  | e :: _ =>
      let entryTime := Timestamp e in
      if first || Before entryTime oldestTime then (host, entryTime, false)
      else acc
  end.

Definition scan_oldest (range_order : list (string * HostHistory)) : string * Z * bool :=
  foldl scan_step (EmptyString, 0, true) range_order.

(** Go visits a map in an unspecified order; here it is the order of
    [map_to_list]. *)
Definition History_evictOldestLocked (h : History) : History :=
  let '(oldestHost, _, _) := scan_oldest (map_to_list (hosts h)) in
  if negb (String.eqb oldestHost EmptyString) then
    match hosts h !! oldestHost with
    | Some hh =>
        let '(rest, h) :=
          match entries hh with
          | _ :: rest => (rest, set_totalEntries (add64 (totalEntries h) (-1)) h)
          | [] => ([], h)
          end in
        match rest with
        | [] => set_hosts (delete oldestHost (hosts h)) h
        | _ :: _ => set_hosts (<[oldestHost := {| entries := rest |}]> (hosts h)) h
        end
    | None => h
    end
  else h.

Definition History_Record (now : Z) (host ip : string) (h : History) : History :=
  let h :=
    if maxTotalEntries h >? 0 then
      let h :=
        if totalEntries h >=? maxTotalEntries h then History_evictOldestLocked h else h in
      set_totalEntries (add64 (totalEntries h) 1) h
    else h in
  let '(hh, h) := History_GetOrCreate host h in
  set_hosts (<[host := HostHistory_Add now ip hh]> (hosts h)) h.

Definition History_GetFiltered (now : Z) (host : string) (window maxSize : Z) (h : History)
    : option (list Entry) :=
  match hosts h !! host with
  | None => Some []
  | Some hh => HostHistory_GetFiltered now window maxSize hh
  end.

(** [now host] is the clock as [hh.Cleanup] reads it when the history
    of [host] is cleaned.  The result is [removedEntries],
    [removedHosts] and the history afterwards. *)
Definition History_Cleanup (now : string -> Z) (window : Z) (h : History)
    : Z * Z * History :=
  let cleaned : gmap string HostHistory :=
    map_imap (fun host hh => Some (HostHistory_Cleanup (now host) window hh).2) (hosts h) in
  let removedEntries :=
    foldl (fun n kv => add64 n (HostHistory_Cleanup (now kv.1) window kv.2).1) 0
          (map_to_list (hosts h)) in
  let hostsToRemove :=
    (filter (fun kv => HostHistory_Len kv.2 = 0) (map_to_list cleaned)).*1 in
  let removedHosts := foldl (fun n _ => add64 n 1) 0 hostsToRemove in
  (removedEntries, removedHosts,
   set_hosts (foldl (fun m host => delete host m) cleaned hostsToRemove) h).

Definition entries_of (kv : string * HostHistory) : list Entry := entries kv.2.

(** [totalHosts], [totalEntries] and [entriesPerIP]. *)
Definition History_Stats (h : History) : Z * Z * gmap string Z :=
  let all := concat (entries_of <$> map_to_list (hosts h)) in
  (Z.of_nat (size (hosts h)),
   foldl (fun n _ => add64 n 1) 0 all,
   foldl (fun m e => <[IP e := add64 (default 0 (m !! IP e)) 1]> m) ∅ all).

(** The number of entries stored, over all hosts. *)
Definition stored (h : History) : Z :=
  Z.of_nat (length (concat (entries_of <$> map_to_list (hosts h)))).

(** *** Sequences of history operations

    [History.Record] and [History.Cleanup] as a client calls them, one
    after the other. *)
Inductive history_op : Type :=
| OpRecord (now : Z) (host ip : string)
| OpCleanup (now : string -> Z) (window : Z).

Definition apply_op (h : History) (o : history_op) : History :=
  match o with
  | OpRecord now host ip => History_Record now host ip h
  | OpCleanup now window => (History_Cleanup now window h).2
  end.

(** The operation does not record the host whose name is empty. *)
Definition names_host (o : history_op) : Prop :=
  match o with
  | OpRecord _ host _ => host <> EmptyString
  | OpCleanup _ _ => True
  end.

(** What the operations keep true of a history capped at [C], after at
    most [n] of them, when no host has the empty name. *)
Record bounded (C n : Z) (h : History) : Prop := mkBounded {
  b_cap : maxTotalEntries h = C;
  b_named : hosts h !! EmptyString = None;
  b_nonempty : forall host hh, hosts h !! host = Some hh -> entries hh <> [];
  b_counted : stored h <= totalEntries h;
  b_ops : totalEntries h <= n;
  b_within : stored h <= C
}.

(** What is left of a host's history when the entries satisfying [P]
    are kept: nothing, not even the host, when none is. *)
Definition keep (P : Entry -> Prop) `{!forall e, Decision (P e)} (hh : HostHistory)
    : option HostHistory :=
  match filter P (entries hh) with
  | [] => None
  | kept => Some {| entries := kept |}
  end.

(** The claim about [Cleanup] as the specification states it: an entry
    goes exactly when its timestamp is strictly earlier than
    [now - window]. *)
Definition Cleanup_as_specified (now : string -> Z) (window : Z) (h : History) : Prop :=
  forall host,
    hosts (History_Cleanup now window h).2 !! host
    = hosts h !! host ≫= keep (fun e => ~ Timestamp e < now host - window).

(** The number of entries of [es] that name the address [ip]. *)
Definition uses (ip : string) (es : list Entry) : Z :=
  Z.of_nat (length (filter (fun e => IP e = ip) es)).

(** An operation applied to a history that is kept together with the
    sum of the [removedEntries] that the [Cleanup] calls so far have
    returned. *)
Definition apply_op_counting (st : History * Z) (o : history_op) : History * Z :=
  match o with
  | OpRecord now host ip => (History_Record now host ip st.1, st.2)
  | OpCleanup now window =>
      let '(removedEntries, _, h) := History_Cleanup now window st.1 in
      (h, st.2 + removedEntries)
  end.

(** What the operations keep true of a history capped at [C] from which
    [Cleanup] has removed [r] entries, after at most [n] operations, when
    no host has the empty name: the counter [totalEntries] still counts
    the [r] removed entries. *)
Record drifted (C n r : Z) (h : History) : Prop := mkDrifted {
  d_cap : maxTotalEntries h = C;
  d_named : hosts h !! EmptyString = None;
  d_nonempty : forall host hh, hosts h !! host = Some hh -> entries hh <> [];
  d_counter : totalEntries h = stored h + r;
  d_removed : 0 <= r;
  d_ops : totalEntries h <= n;
  d_room : stored h <= 1 \/ totalEntries h <= C
}.

(** The number of entries of a host history that may be absent. *)
Definition len_opt (o : option HostHistory) : nat :=
  match o with
  | Some hh => length (entries hh)
  | None => 0
  end.

(** The latest timestamp among the entries of [es] that name [ip], and
    0 when there is none; timestamps are positive. *)
Definition last_use (ip : string) (es : list Entry) : Z :=
  foldl Z.max 0 (Timestamp <$> filter (fun e => IP e = ip) es).

(** What the scan of [evictOldestLocked] knows after the hosts [seen]:
    nothing when none of them has an entry, and otherwise a host among
    them whose first entry is the earliest of the first entries. *)
Definition scanned (seen : list (string * HostHistory)) (acc : string * Z * bool) : Prop :=
  (acc = (EmptyString, 0, true) /\ forall kv, kv ∈ seen -> entries kv.2 = []) \/
  (acc.2 = false /\
   exists hh e rest,
     (acc.1.1, hh) ∈ seen /\ entries hh = e :: rest /\ acc.1.2 = Timestamp e /\
     forall kv e', kv ∈ seen -> head (entries kv.2) = Some e' -> acc.1.2 <= Timestamp e').

(** *** The selector (lru.go) *)

Inductive error : Type :=
| ErrNoAvailableIPs.

(** The two interfaces of balancer.go; a value of an interface is the
    record of its methods. *)
Record IPLimiter : Type := mkIPLimiter {
  IsIPAvailable : string -> bool;
  GetAvailableIPs : list string -> list string
}.

Record IPHealthChecker : Type := mkIPHealthChecker {
  IsHealthy : string -> bool;
  GetHealthyIPs : list string -> list string
}.

(** [HistoryWindow] is in seconds. *)
Record Config : Type := mkConfig {
  IPs : list string;
  HistoryWindow : Z;
  HistorySize : Z;
  Limiter : option IPLimiter;
  HealthChecker : option IPHealthChecker
}.

Record LRU : Type := mkLRU {
  ips : list string;
  historyWindow : Z;
  historySize : Z;
  limiter : option IPLimiter;
  healthChecker : option IPHealthChecker;
  history : History
}.

Definition Second : Z := 1000000000.

Definition NewLRU (cfg : Config) : LRU :=
  {| ips := IPs cfg;
     historyWindow := int64 (HistoryWindow cfg * Second);
     historySize := HistorySize cfg;
     limiter := Limiter cfg;
     healthChecker := HealthChecker cfg;
     history := NewHistory [] |}.

Definition LRU_UpdateHistoryConfig (window size : Z) (l : LRU) : LRU :=
  {| ips := ips l; historyWindow := window; historySize := size;
     limiter := limiter l; healthChecker := healthChecker l; history := history l |}.

Definition LRU_getAvailableIPs (l : LRU) : list string :=
  let ips := ips l in
  let ips :=
    match healthChecker l with
    | Some hc =>
        let healthyIPs := GetHealthyIPs hc ips in
        if Z.of_nat (length healthyIPs) =? 0 then ips else healthyIPs
    | None => ips
    end in
  match limiter l with
  | Some lim => GetAvailableIPs lim ips
  | None => ips
  end.

(** The maps of [selectContext]; a context taken from the pool has
    empty maps, because they are cleared before it is put back. *)
Record selectContext : Type := mkSelectContext {
  usageCount : gmap string Z;
  lastUsed : gmap string Z
}.

Definition empty_context : selectContext := {| usageCount := ∅; lastUsed := ∅ |}.

Definition count_entry (ctx : selectContext) (e : Entry) : selectContext :=
  {| usageCount := <[IP e := add64 (default 0 (usageCount ctx !! IP e)) 1]> (usageCount ctx);
     lastUsed :=
       match lastUsed ctx !! IP e with
       | Some t =>
           if After (Timestamp e) t then <[IP e := Timestamp e]> (lastUsed ctx)
           else lastUsed ctx
       | None => <[IP e := Timestamp e]> (lastUsed ctx)
       end |}.

(** One round of the loop over the available addresses; the state is
    [selectedIP], [minUsage] and [oldestUse]. *)
Definition choose_step (ctx : selectContext) (st : string * Z * Z) (ip : string)
    : string * Z * Z :=
  let '(selectedIP, minUsage, oldestUse) := st in
  let usage := default 0 (usageCount ctx !! ip) in
  let lastUse := default 0 (lastUsed ctx !! ip) in
  if usage <? minUsage then (ip, usage, lastUse)
  else if usage =? minUsage then
    if IsZero lastUse || Before lastUse oldestUse then (ip, minUsage, lastUse)
    else st
  else st.

(** The returned pair, or [None] when the call panics. *)
Definition LRU_Select (now : Z) (host : string) (l : LRU) : option (string * option error) :=
  let availableIPs := LRU_getAvailableIPs l in
  if Z.of_nat (length availableIPs) =? 0 then Some (EmptyString, Some ErrNoAvailableIPs)
  else
    let window := historyWindow l in
    let size := historySize l in
    match History_GetFiltered now host window size (history l) with
    | None => None
    | Some entries =>
        let ctx := foldl count_entry empty_context entries in
        let '(selectedIP, _, _) :=
          foldl (choose_step ctx) (EmptyString, MaxInt, 0) availableIPs in
        Some (selectedIP, None)
    end.

(** An implementation of an interface whose filtering method agrees
    with its test of a single address, as the implementations of this
    repository do. *)
Definition filters_by_IsIPAvailable (lim : IPLimiter) : Prop :=
  forall ips, GetAvailableIPs lim ips = filter (fun ip => IsIPAvailable lim ip = true) ips.

Definition filters_by_IsHealthy (hc : IPHealthChecker) : Prop :=
  forall ips, GetHealthyIPs hc ips = filter (fun ip => IsHealthy hc ip = true) ips.

(** The candidate set as the specification words it: all configured
    addresses, narrowed to the healthy ones when a checker is present
    unless none is healthy, then narrowed to the ones the limiter reports
    available. *)
Definition candidate_set (l : LRU) : list string :=
  let after_health :=
    match healthChecker l with
    | Some hc =>
        match filter (fun ip => IsHealthy hc ip = true) (ips l) with
        | [] => ips l
        | healthy => healthy
        end
    | None => ips l
    end in
  match limiter l with
  | Some lim => filter (fun ip => IsIPAvailable lim ip = true) after_health
  | None => after_health
  end.

Definition LRU_Record (now : Z) (host ip : string) (l : LRU) : LRU :=
  {| ips := ips l; historyWindow := historyWindow l; historySize := historySize l;
     limiter := limiter l; healthChecker := healthChecker l;
     history := History_Record now host ip (history l) |}.

(** The entries recorded for a host, the oldest first. *)
Definition entries_for (host : string) (h : History) : list Entry :=
  match hosts h !! host with
  | Some hh => entries hh
  | None => []
  end.

(** One use of the selector as the proxy makes it: [Select] when the
    clock reads [t.1], then [Record] of the address selected when the
    clock reads [t.2].  The state is the addresses selected so far, in
    the order of their selection, and the selector; it is [None] once a
    [Select] has failed. *)
Definition select_and_record (host : string) (st : option (list string * LRU)) (t : Z * Z)
    : option (list string * LRU) :=
  match st with
  | None => None
  | Some (selected, l) =>
      match LRU_Select t.1 host l with
      | Some (ip, None) => Some (selected ++ [ip], LRU_Record t.2 host ip l)
      | _ => None
      end
  end.

(** *** The circuit breaker (circuitbreaker.go)

    Every method changes the state of an address while it holds
    [cb.mu], so calls take effect one after the other; a method is a
    function from the breaker before the call to the breaker after it.
    [time.Now()] is an argument of the two methods that read the clock. *)

Inductive State : Type :=
| StateClosed
| StateOpen
| StateHalfOpen.

Definition State_String (s : State) : string :=
  match s with
  | StateClosed => "closed"
  | StateOpen => "open"
  | StateHalfOpen => "half-open"
  end.

Record CircuitBreakerConfig : Type := mkCircuitBreakerConfig {
  FailureThreshold : Z;
  SuccessThreshold : Z;
  Timeout : Z
}.

Definition DefaultCircuitBreakerConfig : CircuitBreakerConfig :=
  {| FailureThreshold := 5; SuccessThreshold := 2; Timeout := 30 * Second |}.

Record ipState : Type := mkIpState {
  failures : Z;
  successes : Z;
  state : State;
  lastFailure : Z
}.

Record CircuitBreaker : Type := mkCircuitBreaker {
  states : gmap string ipState;
  config : CircuitBreakerConfig
}.

Definition NewCircuitBreaker (config : CircuitBreakerConfig) : CircuitBreaker :=
  {| states := ∅; config := config |}.

Definition set_states (m : gmap string ipState) (cb : CircuitBreaker) : CircuitBreaker :=
  {| states := m; config := config cb |}.

Definition CircuitBreaker_getOrCreateState (ip : string) (cb : CircuitBreaker)
    : ipState * CircuitBreaker :=
  match states cb !! ip with
  | Some st => (st, cb)
  | None =>
      let st := {| failures := 0; successes := 0; state := StateClosed; lastFailure := 0 |} in
      (st, set_states (<[ip := st]> (states cb)) cb)
  end.

(** [t.Sub(u)]: the difference as a [time.Duration], which is the
    largest or the smallest duration when the difference does not fit. *)
Definition Sub (t u : Z) : Z := Z.max MinInt64 (Z.min MaxInt64 (t - u)).

(** [time.Since(t)] when the clock reads [now]. *)
Definition Since (now t : Z) : Z := Sub now t.

(** The returned flag and the breaker afterwards. *)
Definition CircuitBreaker_IsHealthy (now : Z) (ip : string) (cb : CircuitBreaker)
    : bool * CircuitBreaker :=
  match states cb !! ip with
  | None => (true, cb)
  | Some st =>
      match state st with
      | StateClosed => (true, cb)
      | StateOpen =>
          if Since now (lastFailure st) >=? Timeout (config cb) then
            (true,
             set_states (<[ip := {| failures := failures st; successes := 0;
                                    state := StateHalfOpen;
                                    lastFailure := lastFailure st |}]> (states cb)) cb)
          else (false, cb)
      | StateHalfOpen => (true, cb)
      end
  end.

Definition CircuitBreaker_RecordSuccess (ip : string) (cb : CircuitBreaker)
    : CircuitBreaker :=
  match states cb !! ip with
  | None => cb
  | Some st =>
      match state st with
      | StateHalfOpen =>
          let successes := add64 (successes st) 1 in
          if successes >=? SuccessThreshold (config cb) then
            set_states (<[ip := {| failures := 0; successes := 0; state := StateClosed;
                                   lastFailure := lastFailure st |}]> (states cb)) cb
          else
            set_states (<[ip := {| failures := failures st; successes := successes;
                                   state := StateHalfOpen;
                                   lastFailure := lastFailure st |}]> (states cb)) cb
      | StateClosed =>
          set_states (<[ip := {| failures := 0; successes := successes st;
                                 state := StateClosed;
                                 lastFailure := lastFailure st |}]> (states cb)) cb
      | StateOpen => cb
      end
  end.

Definition CircuitBreaker_RecordFailure (now : Z) (ip : string) (cb : CircuitBreaker)
    : CircuitBreaker :=
  let '(st, cb) := CircuitBreaker_getOrCreateState ip cb in
  let lastFailure := now in
  let st :=
    match state st with
    | StateClosed =>
        let failures := add64 (failures st) 1 in
        if failures >=? FailureThreshold (config cb) then
          {| failures := failures; successes := successes st; state := StateOpen;
             lastFailure := lastFailure |}
        else
          {| failures := failures; successes := successes st; state := StateClosed;
             lastFailure := lastFailure |}
    | StateHalfOpen =>
        {| failures := failures st; successes := 0; state := StateOpen;
           lastFailure := lastFailure |}
    | StateOpen =>
        {| failures := failures st; successes := successes st; state := StateOpen;
           lastFailure := lastFailure |}
    end in
  set_states (<[ip := st]> (states cb)) cb.

Definition CircuitBreaker_GetState (ip : string) (cb : CircuitBreaker) : State :=
  match states cb !! ip with
  | None => StateClosed
  | Some st => state st
  end.

(** The [State] and the [Failures] of every address that has a state. *)
Definition CircuitBreaker_GetStats (cb : CircuitBreaker) : gmap string (State * Z) :=
  (fun st => (state st, failures st)) <$> states cb.

Definition CircuitBreaker_Reset (ip : string) (cb : CircuitBreaker) : CircuitBreaker :=
  set_states (delete ip (states cb)) cb.

Definition CircuitBreaker_ResetAll (cb : CircuitBreaker) : CircuitBreaker :=
  set_states ∅ cb.

(** A client's call of the breaker, and the breaker after a call. *)
Inductive breaker_call : Type :=
| CallIsHealthy (now : Z) (ip : string)
| CallRecordSuccess (ip : string)
| CallRecordFailure (now : Z) (ip : string)
| CallReset (ip : string)
| CallResetAll.

Definition breaker_step (cb : CircuitBreaker) (c : breaker_call) : CircuitBreaker :=
  match c with
  | CallIsHealthy now ip => (CircuitBreaker_IsHealthy now ip cb).2
  | CallRecordSuccess ip => CircuitBreaker_RecordSuccess ip cb
  | CallRecordFailure now ip => CircuitBreaker_RecordFailure now ip cb
  | CallReset ip => CircuitBreaker_Reset ip cb
  | CallResetAll => CircuitBreaker_ResetAll cb
  end.

(** The circuit of [ip] is closed with [k] failures counted; an address
    without a state counts as closed with none. *)
Definition closed_with (k : Z) (ip : string) (cb : CircuitBreaker) : Prop :=
  match states cb !! ip with
  | None => k = 0
  | Some st => state st = StateClosed /\ failures st = k
  end.

(** [n] calls of [RecordSuccess] for [ip]. *)
Fixpoint record_successes (n : nat) (ip : string) (cb : CircuitBreaker) : CircuitBreaker :=
  match n with
  | O => cb
  | S n' => record_successes n' ip (CircuitBreaker_RecordSuccess ip cb)
  end.

(** What the calls keep true of the state of every address: the
    failure count of a closed circuit is below the threshold, that of a
    circuit that is not closed is the threshold (one, when the threshold
    is less), and successes are only counted while the circuit is
    half-open, where they stay below their threshold. *)
Definition ipState_ok (cfg : CircuitBreakerConfig) (st : ipState) : Prop :=
  match state st with
  | StateClosed =>
      0 <= failures st < Z.max 1 (FailureThreshold cfg) /\ successes st = 0
  | StateOpen =>
      failures st = Z.max 1 (FailureThreshold cfg) /\ successes st = 0
  | StateHalfOpen =>
      failures st = Z.max 1 (FailureThreshold cfg) /\
      0 <= successes st < Z.max 1 (SuccessThreshold cfg)
  end.

Definition breaker_ok (cb : CircuitBreaker) : Prop :=
  forall ip st, states cb !! ip = Some st -> ipState_ok (config cb) st.

End balancer.

(** ** The implementations of the balancer's interfaces *)

Module wiring.

Definition limiter_IPLimiter (l : limiter.Limiter) : balancer.IPLimiter :=
  {| balancer.IsIPAvailable := limiter.IsIPAvailable l;
     balancer.GetAvailableIPs := limiter.GetAvailableIPs l |}.

Definition checker_IPHealthChecker (hc : checker.HealthChecker) : balancer.IPHealthChecker :=
  {| balancer.IsHealthy := checker.IsHealthy hc;
     balancer.GetHealthyIPs := checker.GetHealthyIPs hc |}.

(** The configuration of the balancer's own tests: three addresses, no
    history, every address available. *)
Definition three_ips : list string := ["192.168.1.1"; "192.168.1.2"; "192.168.1.3"].

Definition cold_start : balancer.LRU :=
  balancer.NewLRU
    {| balancer.IPs := three_ips;
       balancer.HistoryWindow := 300;
       balancer.HistorySize := 100;
       balancer.Limiter := Some (limiter_IPLimiter (limiter.New 10 100 three_ips));
       balancer.HealthChecker := None |}.

End wiring.

(** ** Go's strings package, as far as the proxy uses it

    A Go string is a sequence of bytes, here a [string].  A slice
    expression [s[lo:hi]] panics when its indices are out of range; the
    code below only evaluates one with indices that [Index], [LastIndex]
    or [len] returned for the same string, so [slice] does not model the
    panic. *)

Module gostrings.

Definition len (s : string) : Z := Z.of_nat (String.length s).

Fixpoint take (n : nat) (s : string) : string :=
  match n, s with
  | S n', String c s' => String c (take n' s')
  | _, _ => EmptyString
  end.

Fixpoint drop (n : nat) (s : string) : string :=
  match n, s with
  | S n', String _ s' => drop n' s'
  | _, _ => s
  end.

(** [s[lo:hi]] and [s[lo:]]. *)
Definition slice (s : string) (lo hi : Z) : string :=
  take (Z.to_nat (hi - lo)) (drop (Z.to_nat lo) s).

Definition slice_from (s : string) (lo : Z) : string := drop (Z.to_nat lo) s.

Fixpoint HasPrefix (s prefix : string) {struct prefix} : bool :=
  match prefix, s with
  | EmptyString, _ => true
  | String _ _, EmptyString => false
  | String c prefix', String d s' => Ascii.eqb c d && HasPrefix s' prefix'
  end.

(** The position of the first instance of [substr] in [s]. *)
Fixpoint index_opt (s substr : string) : option nat :=
  if HasPrefix s substr then Some 0%nat
  else match s with
       | EmptyString => None
       | String _ s' => S <$> index_opt s' substr
       end.

(** The position of the last instance of [substr] in [s]. *)
Fixpoint last_index_opt (s substr : string) : option nat :=
  match s with
  | EmptyString => if HasPrefix s substr then Some 0%nat else None
  | String _ s' =>
      match last_index_opt s' substr with
      | Some i => Some (S i)
      | None => if HasPrefix s substr then Some 0%nat else None
      end
  end.

Definition Index (s substr : string) : Z :=
  match index_opt s substr with
  | Some i => Z.of_nat i
  | None => -1
  end.

Definition LastIndex (s substr : string) : Z :=
  match last_index_opt s substr with
  | Some i => Z.of_nat i
  | None => -1
  end.

(** [before, after, found := strings.Cut(s, sep)] *)
Definition Cut (s sep : string) : string * string * bool :=
  let i := Index s sep in
  if i >=? 0 then (slice s 0 i, slice_from s (i + len sep), true)
  else (s, EmptyString, false).

Fixpoint split_at_most (pieces : nat) (s sep : string) : list string :=
  match pieces with
  | O => [s]
  | S pieces' =>
      match index_opt s sep with
      | Some m =>
          take m s :: split_at_most pieces' (drop (m + String.length sep) s) sep
      | None => [s]
      end
  end.

(** [strings.SplitN(s, sep, n)] for a non-empty [sep]. *)
Definition SplitN (s sep : string) (n : Z) : list string :=
  if n =? 0 then []
  else if n <? 0 then split_at_most (String.length s) s sep
  else split_at_most (Z.to_nat (n - 1)) s sep.

(** [strings.Split(s, sep)] for a non-empty [sep]. *)
Definition Split (s sep : string) : list string := SplitN s sep (-1).

End gostrings.

(** ** Library functions the authentication gate calls

    [encoding/base64]'s [StdEncoding.DecodeString] is a parameter of
    [proxy.authenticate]; the decoder below, written from the package's
    documentation (padded standard alphabet, carriage returns and line
    feeds ignored), only serves to run examples. *)

Module base64.

Definition sextet (c : Ascii.ascii) : option N :=
  let n := Ascii.N_of_ascii c in
  if ((65 <=? n) && (n <=? 90))%N then Some (n - 65)%N
  else if ((97 <=? n) && (n <=? 122))%N then Some (n - 71)%N
  else if ((48 <=? n) && (n <=? 57))%N then Some (n + 4)%N
  else if (n =? 43)%N then Some 62%N
  else if (n =? 47)%N then Some 63%N
  else None.

Definition is_pad (c : Ascii.ascii) : bool := (Ascii.N_of_ascii c =? 61)%N.

Definition is_newline (c : Ascii.ascii) : bool :=
  ((Ascii.N_of_ascii c =? 10) || (Ascii.N_of_ascii c =? 13))%N.

Definition byte_of (n : N) : Ascii.ascii := Ascii.ascii_of_N (n mod 256).

Fixpoint strip_newlines (s : string) : string :=
  match s with
  | EmptyString => EmptyString
  | String c s' => if is_newline c then strip_newlines s' else String c (strip_newlines s')
  end.

Fixpoint decode_quanta (s : string) : option string :=
  match s with
  | EmptyString => Some EmptyString
  | String a (String b (String c (String d rest))) =>
      match sextet a, sextet b with
      | Some va, Some vb =>
          let b1 := byte_of (va * 4 + vb / 16) in
          if is_pad c then
            if is_pad d && String.eqb rest EmptyString
            then Some (String b1 EmptyString) else None
          else
            match sextet c with
            | Some vc =>
                let b2 := byte_of (vb * 16 + vc / 4) in
                if is_pad d then
                  if String.eqb rest EmptyString
                  then Some (String b1 (String b2 EmptyString)) else None
                else
                  match sextet d, decode_quanta rest with
                  | Some vd, Some tail =>
                      Some (String b1 (String b2 (String (byte_of (vc * 64 + vd)) tail)))
                  | _, _ => None
                  end
            | None => None
            end
      | _, _ => None
      end
  | _ => None
  end.

Definition DecodeString (s : string) : option string := decode_quanta (strip_newlines s).

End base64.

(** [crypto/subtle] *)
Module subtle.

(** 1 when the two byte strings are equal, 0 otherwise. *)
Definition ConstantTimeCompare (x y : string) : Z := if String.eqb x y then 1 else 0.

End subtle.

(** [net/textproto]'s [CanonicalMIMEHeaderKey] is a parameter of the
    functions that canonicalise a header name they are given; the
    function below, written from the package's documentation (the first
    letter and every letter after a hyphen in upper case, the others in
    lower case, and a name with a byte that is not allowed in a header
    name left as it is), only serves to run examples. *)
Module textproto.

Definition is_upper (n : N) : bool := ((65 <=? n) && (n <=? 90))%N.
Definition is_lower (n : N) : bool := ((97 <=? n) && (n <=? 122))%N.
Definition is_digit (n : N) : bool := ((48 <=? n) && (n <=? 57))%N.

(** The bytes of a token: letters, digits and [!#$%&'*+-.^_`|~]. *)
Definition validHeaderFieldByte (c : Ascii.ascii) : bool :=
  let n := Ascii.N_of_ascii c in
  is_upper n || is_lower n || is_digit n ||
  existsb (N.eqb n) [33; 35; 36; 37; 38; 39; 42; 43; 45; 46; 94; 95; 96; 124; 126]%N.

Fixpoint all_valid (s : string) : bool :=
  match s with
  | EmptyString => true
  | String c s' => validHeaderFieldByte c && all_valid s'
  end.

Fixpoint canonical (upper : bool) (s : string) : string :=
  match s with
  | EmptyString => EmptyString
  | String c s' =>
      let n := Ascii.N_of_ascii c in
      let c' :=
        if upper && is_lower n then Ascii.ascii_of_N (n - 32)
        else if negb upper && is_upper n then Ascii.ascii_of_N (n + 32)
        else c in
      String c' (canonical (Ascii.N_of_ascii c' =? 45)%N s')
  end.

Definition CanonicalMIMEHeaderKey (s : string) : string :=
  if all_valid s then canonical true s else s.

End textproto.

(** [net/http]: header maps keyed by canonical names, and a response
    writer that records what the handler sent. *)
Module http.
Import gostrings.

Definition Header_Get (h : gmap string (list string)) (key : string) : string :=
  match h !! key with
  | Some (v :: _) => v
  | _ => EmptyString
  end.

Definition Header_Set (h : gmap string (list string)) (key value : string)
    : gmap string (list string) := <[key := [value]]> h.

Definition Header_Del (h : gmap string (list string)) (key : string)
    : gmap string (list string) := delete key h.

(** [status] is [None] until the status line has been written. *)
Record ResponseWriter : Type := mkResponseWriter {
  header : gmap string (list string);
  status : option Z;
  body : string
}.

Definition StatusProxyAuthRequired : Z := 407.

Definition set_header (h : gmap string (list string)) (w : ResponseWriter) : ResponseWriter :=
  {| header := h; status := status w; body := body w |}.

(** A second [WriteHeader] is ignored. *)
Definition WriteHeader (code : Z) (w : ResponseWriter) : ResponseWriter :=
  match status w with
  | None => {| header := header w; status := Some code; body := body w |}
  | Some _ => w
  end.

Definition Write (data : string) (w : ResponseWriter) : ResponseWriter :=
  let w := WriteHeader 200 w in
  {| header := header w; status := status w; body := body w +:+ data |}.

Definition newline : string := String (Ascii.ascii_of_nat 10) EmptyString.

(** [http.Error(w, error, code)].  Which headers it deletes besides
    Content-Length depends on the version of Go; none of them is one the
    proxy sets. *)
Definition Error (w : ResponseWriter) (error : string) (code : Z) : ResponseWriter :=
  let h := header w in
  let h := Header_Del h "Content-Length" in
  let h := Header_Set h "Content-Type" "text/plain; charset=utf-8" in
  let h := Header_Set h "X-Content-Type-Options" "nosniff" in
  let w := set_header h w in
  let w := WriteHeader code w in
  Write (error +:+ newline) w.

(** [Header.Add] and [Header.Del] for a key that need not be canonical:
    both work on the canonical form of the key, which
    [CanonicalMIMEHeaderKey] computes. *)
Definition Header_Add (CanonicalMIMEHeaderKey : string -> string)
    (h : gmap string (list string)) (key value : string) : gmap string (list string) :=
  let key := CanonicalMIMEHeaderKey key in
  <[key := default [] (h !! key) ++ [value]]> h.

Definition Header_Del_key (CanonicalMIMEHeaderKey : string -> string)
    (h : gmap string (list string)) (key : string) : gmap string (list string) :=
  delete (CanonicalMIMEHeaderKey key) h.

End http.

(** ** Package config: the part of [Config] that the proxy reads *)

Module config.
Import gostrings.

Record Config : Type := mkConfig {
  Auth : string
}.

Definition GetAuthCredentials (c : Config) : string * string * bool :=
  if String.eqb (Auth c) EmptyString then (EmptyString, EmptyString, false)
  else
    match SplitN (Auth c) ":" 2 with
    | [username; password] => (username, password, true)
    | _ => (EmptyString, EmptyString, false)
    end.

End config.

(** ** Package proxy (internal/proxy/handler.go, server.go) *)

Module proxy.
Import gostrings http config.

(** The fields of [http.Request] that the handlers read.  [Header] is
    keyed by canonical header names. *)
Record Request : Type := mkRequest {
  Header : gmap string (list string);
  RemoteAddr : string
}.

Definition getClientIP (r : Request) : string :=
  if HasPrefix (RemoteAddr r) "[" then
    let idx := LastIndex (RemoteAddr r) "]:" in
    if negb (idx =? -1) then slice (RemoteAddr r) 1 idx
    else RemoteAddr r
  else
    let '(host, _, found) := Cut (RemoteAddr r) ":" in
    if found then host else RemoteAddr r.

(** The reading of an address that the specification gives for the
    unbracketed case: the part before the last colon. *)
Definition before_last_colon (addr : string) : string :=
  slice addr 0 (LastIndex addr ":").

(** The double quote, which a string literal cannot hold. *)
Definition dquote : string := String (Ascii.ascii_of_nat 34) EmptyString.

Definition sendProxyAuthRequired (w : ResponseWriter) : ResponseWriter :=
  let w := set_header (Header_Set (header w) "Proxy-Authenticate"
                         ("Basic realm=" +:+ dquote +:+ "Proxy" +:+ dquote)) w in
  Error w "Proxy Authentication Required" StatusProxyAuthRequired.

Section Authenticate.
(** [base64.StdEncoding.DecodeString]: the decoded bytes, or [None] for
    an error. *)
Variable DecodeString : string -> option string.

(** The returned flag and the response writer afterwards.  The failure
    counter of the metrics and the log line are left out. *)
Definition authenticate (cfg : Config) (w : ResponseWriter) (r : Request)
    : bool * ResponseWriter :=
  if String.eqb (Auth cfg) EmptyString then (true, w)
  else
    let '(username, password, ok) := GetAuthCredentials cfg in
    if negb ok then (true, w)
    else
      let auth := Header_Get (Header r) "Proxy-Authorization" in
      if String.eqb auth EmptyString then (false, sendProxyAuthRequired w)
      else
        let prefix := "Basic " in
        if negb (HasPrefix auth prefix) then (false, sendProxyAuthRequired w)
        else
          match DecodeString (slice_from auth (len prefix)) with
          | None => (false, sendProxyAuthRequired w)
          | Some decoded =>
              let credentials := decoded in
              let colonIdx := Index credentials ":" in
              if colonIdx <? 0 then (false, sendProxyAuthRequired w)
              else
                let reqUser := slice credentials 0 colonIdx in
                let reqPass := slice_from credentials (colonIdx + 1) in
                let userMatch := subtle.ConstantTimeCompare reqUser username =? 1 in
                let passMatch := subtle.ConstantTimeCompare reqPass password =? 1 in
                if negb userMatch || negb passMatch
                then (false, sendProxyAuthRequired w)
                else (true, w)
          end.

(** The reasons for which the specification has a request refused, given
    the configured [username] and [password]. *)
Definition refused (username password : string) (r : Request) : Prop :=
  let auth := Header_Get (Header r) "Proxy-Authorization" in
  auth = EmptyString \/
  HasPrefix auth "Basic " = false \/
  exists payload, auth = "Basic " +:+ payload /\
    (DecodeString payload = None \/
     exists decoded, DecodeString payload = Some decoded /\
       (Index decoded ":" = -1 \/
        exists user pass,
          decoded = user +:+ ":" +:+ pass /\ Index user ":" = -1 /\
          (user <> username \/ pass <> password))).

End Authenticate.

(** *** Hop-by-hop headers and the outgoing request (handler.go) *)

Definition hopByHopHeaders : gmap string bool :=
  list_to_map
    [("Connection", true); ("Keep-Alive", true); ("Proxy-Authenticate", true);
     ("Proxy-Authorization", true); ("Proxy-Connection", true); ("Te", true);
     ("Trailer", true); ("Transfer-Encoding", true); ("Upgrade", true)].

Definition hopByHopHeadersList : list string :=
  ["Connection"; "Keep-Alive"; "Proxy-Authenticate"; "Proxy-Authorization";
   "Proxy-Connection"; "Te"; "Trailer"; "Transfer-Encoding"; "Upgrade"].

(** The value of a missing key of a [map[string]bool] is [false]. *)
Definition isHopByHop (header : string) : bool := default false (hopByHopHeaders !! header).

(** The fields of [url.URL] and of [http.Request] that
    [createOutgoingRequest] reads or writes besides those of [Request]. *)
Record URL : Type := mkURL {
  Scheme : string;
  URL_Host : string
}.

Record ProxyRequest : Type := mkProxyRequest {
  request : Request;
  Host : string;
  RequestURL : URL
}.

Definition IsAbs (u : URL) : bool := negb (String.eqb (Scheme u) EmptyString).

Section HopByHop.
(** [strings.TrimSpace] and [textproto.CanonicalMIMEHeaderKey]. *)
Variable TrimSpace : string -> string.
Variable CanonicalMIMEHeaderKey : string -> string.

(** The names of [hopByHopHeadersList] are canonical, so [Header.Del]
    and [Header.Get] use them as they are. *)
Definition removeHopByHopHeaders (header : gmap string (list string))
    : gmap string (list string) :=
  let header := foldl Header_Del header hopByHopHeadersList in
  let conn := Header_Get header "Connection" in
  if negb (String.eqb conn EmptyString) then
    foldl (fun header h => Header_Del_key CanonicalMIMEHeaderKey header (TrimSpace h))
      header (Split conn ",")
  else header.

(** Go visits the map [src] in an unspecified order: [range_order] is
    the order of one run of the loop, a permutation of the headers of
    [src]. *)
Definition copyHeaders_ranging (range_order : list (string * list string))
    (dst : gmap string (list string)) : gmap string (list string) :=
  foldl (fun dst kv =>
           if isHopByHop kv.1 then dst
           else foldl (fun dst value => Header_Add CanonicalMIMEHeaderKey dst kv.1 value)
                  dst kv.2)
    dst range_order.

Definition copyHeaders (dst src : gmap string (list string)) : gmap string (list string) :=
  copyHeaders_ranging (map_to_list src) dst.

(** [r.Clone] copies the request, so the incoming request is left as it
    is and the result is the outgoing one. *)
Definition createOutgoingRequest (r : ProxyRequest) : ProxyRequest :=
  let outURL :=
    if negb (IsAbs (RequestURL r)) then {| Scheme := "http"; URL_Host := Host r |}
    else RequestURL r in
  let header := removeHopByHopHeaders (Header (request r)) in
  let clientIP := getClientIP (request r) in
  let header :=
    if negb (String.eqb clientIP EmptyString) then
      let prior := Header_Get header "X-Forwarded-For" in
      if negb (String.eqb prior EmptyString)
      then Header_Set header "X-Forwarded-For" (prior +:+ ", " +:+ clientIP)
      else Header_Set header "X-Forwarded-For" clientIP
    else header in
  {| request := {| Header := header; RemoteAddr := RemoteAddr (request r) |};
     Host := Host r;
     RequestURL := outURL |}.

End HopByHop.

(** *** Connections (server.go)

    The balancer of a [Server] is the LRU selector, the one
    implementation of [balancer.Balancer], and its limiter is the
    server's own: one [*limiter.Limiter] is given to both, so what the
    balancer reads is the limiter as the server has it at that moment.
    The selector is kept here without a limiter and is handed the
    server's when [Select] runs.  The metrics and the log lines are left
    out. *)
Record Server : Type := mkServer {
  balancer : balancer.LRU;
  limiter : limiter.Limiter
}.

Definition Server_balancer (s : Server) : balancer.LRU :=
  {| balancer.ips := balancer.ips (balancer s);
     balancer.historyWindow := balancer.historyWindow (balancer s);
     balancer.historySize := balancer.historySize (balancer s);
     balancer.limiter := Some (wiring.limiter_IPLimiter (limiter s));
     balancer.healthChecker := balancer.healthChecker (balancer s);
     balancer.history := balancer.history (balancer s) |}.

(** An error of [AcquireConnection]: the balancer's or the limiter's. *)
Inductive acquire_error : Type :=
| SelectError (e : balancer.error)
| LimitError (e : limiter.error).

(** [release] is the closure that releases [IP] on the server's
    limiter: [ConnectionContext_Release] below. *)
Record ConnectionContext : Type := mkConnectionContext {
  IP : string;
  ConnectionHost : string;
  RequestID : string
}.

Definition selectIP (now : Z) (host : string) (s : Server)
    : option (string * option balancer.error) :=
  balancer.LRU_Select now host (Server_balancer s).

(** [now] is the clock when [Select] reads the history and [now'] the
    clock when [Record] stamps the entry.  The result is [None] when
    [Select] panics, and otherwise the returned context or error and the
    server afterwards. *)
Definition AcquireConnection (now now' : Z) (host requestID : string) (s : Server)
    : option ((ConnectionContext + acquire_error) * Server) :=
  match selectIP now host s with
  | None => None
  | Some (_, Some err) => Some (inr (SelectError err), s)
  | Some (ip, None) =>
      match limiter.Acquire ip (limiter s) with
      | (Some err, l) => Some (inr (LimitError err), {| balancer := balancer s; limiter := l |})
      | (None, l) =>
          Some (inl {| IP := ip; ConnectionHost := host; RequestID := requestID |},
                {| balancer := balancer.LRU_Record now' host ip (balancer s);
                   limiter := l |})
      end
  end.

Definition ConnectionContext_Release (c : ConnectionContext) (s : Server) : Server :=
  {| balancer := balancer s; limiter := limiter.Release (IP c) (limiter s) |}.

(** The claim about [getClientIP] as the specification states it. *)
Definition getClientIP_as_specified (r : Request) : Prop :=
  let addr := RemoteAddr r in
  if HasPrefix addr "[" then
    exists rest, addr = "[" +:+ getClientIP r +:+ "]:" +:+ rest
  else if Index addr ":" =? -1 then getClientIP r = addr
  else getClientIP r = before_last_colon addr.

End proxy.

(** * Properties *)

Section LimiterFacts.
Import GoInt limiter.

Lemma int64_id (x : Z) : in_int64 x -> int64 x = x.
Proof.
  unfold in_int64, MinInt64, MaxInt64, int64, wrap. intros H.
  rewrite Z.mod_small; lia.
Qed.

Lemma int32_range (x : Z) : in_int32 (int32 x).
Proof.
  unfold in_int32, MinInt32, MaxInt32, int32, wrap.
  pose proof (Z.mod_pos_bound (x + 2 ^ (32 - 1)) (2 ^ 32) ltac:(lia)). lia.
Qed.

Lemma int64_range (x : Z) : in_int64 (int64 x).
Proof.
  unfold in_int64, MinInt64, MaxInt64, int64, wrap.
  pose proof (Z.mod_pos_bound (x + 2 ^ (64 - 1)) (2 ^ 64) ltac:(lia)). lia.
Qed.

Lemma add64_id (x y : Z) : in_int64 (x + y) -> add64 x y = x + y.
Proof. apply int64_id. Qed.

Lemma add64_small (x y : Z) :
  - 2 ^ 32 <= x <= 2 ^ 32 -> - 1 <= y <= 1 -> add64 x y = x + y.
Proof. intros Hx Hy. apply add64_id. unfold in_int64, MinInt64, MaxInt64. lia. Qed.

Lemma eqb_string_decide (a b : string) :
  String.eqb a b = bool_decide (a = b).
Proof.
  destruct (String.eqb_spec a b) as [->|Hne].
  - by rewrite bool_decide_eq_true_2.
  - by rewrite bool_decide_eq_false_2.
Qed.

Lemma occ_nonneg (ip : string) (held : list string) : 0 <= occ ip held.
Proof. induction held as [|h r IH]; simpl; [lia|]. destruct (String.eqb h ip); lia. Qed.

Lemma occ_remove_one (ip : string) (held held' : list string) :
  remove_one ip held = Some held' ->
  Z.of_nat (length held) = Z.of_nat (length held') + 1 /\
  forall ip', occ ip' held = occ ip' held' + (if String.eqb ip ip' then 1 else 0).
Proof.
  revert held'. induction held as [|h r IH]; intros held' H; simpl in H; [done|].
  destruct (String.eqb_spec h ip) as [->|Hne].
  - inversion H; subst. split; [simpl; lia|]. intros ip'. simpl. lia.
  - destruct (remove_one ip r) as [r'|] eqn:Hr; [|done].
    inversion H; subst. destruct (IH r' eq_refl) as [Hlen Hocc].
    split; [simpl in *; lia|]. intros ip'. simpl. rewrite (Hocc ip'). lia.
Qed.

Lemma sum_frames_app (g : frame -> Z) (fs gs : list frame) :
  sum_frames g (fs ++ gs) = sum_frames g fs + sum_frames g gs.
Proof. induction fs as [|f fs IH]; simpl; [lia|]. rewrite IH. lia. Qed.

Lemma sum_frames_insert (g : frame -> Z) (fs : list frame) (i : nat) (f f' : frame) :
  fs !! i = Some f ->
  sum_frames g (<[i := f']> fs) = sum_frames g fs - g f + g f'.
Proof.
  revert i. induction fs as [|h fs IH]; intros [|i] H; simpl in *; try done.
  - inversion H; subst. lia.
  - rewrite (IH i H). lia.
Qed.

Lemma sum_frames_nonneg (g : frame -> Z) (fs : list frame) :
  (forall f, 0 <= g f) -> 0 <= sum_frames g fs.
Proof. intros Hg. induction fs as [|f fs IH]; simpl; [lia|]. specialize (Hg f). lia. Qed.

Lemma owes_total_nonneg (f : frame) : 0 <= owes_total f.
Proof. destruct f; simpl; lia. Qed.

Lemma owes_ip_nonneg (ip : string) (f : frame) : 0 <= owes_ip ip f.
Proof. destruct f; simpl; try lia; destruct (String.eqb _ _); lia. Qed.

Lemma sum_frames_returned (g : frame -> Z) (fs : list frame) :
  (forall f, returned f = true -> g f = 0) ->
  Forall (fun f => returned f = true) fs -> sum_frames g fs = 0.
Proof.
  intros Hg. induction 1 as [|f fs Hf _ IH]; simpl; [done|].
  rewrite (Hg f Hf), IH. lia.
Qed.

Lemma GetIPCount_insert (ip ip' : string) (v : Z) (l : Limiter) :
  GetIPCount ip' (set_perIP (<[ip := v]> (perIP l)) l)
  = if String.eqb ip ip' then v else GetIPCount ip' l.
Proof.
  unfold GetIPCount; simpl. destruct (String.eqb_spec ip ip') as [->|Hne].
  - by rewrite lookup_insert_eq.
  - by rewrite lookup_insert_ne.
Qed.

Lemma GetIPCount_getOrCreate (ip ip' : string) (l : Limiter) :
  GetIPCount ip' (set_perIP (getOrCreateCounter ip (perIP l)) l) = GetIPCount ip' l.
Proof.
  unfold GetIPCount, getOrCreateCounter; simpl.
  destruct (perIP l !! ip) eqn:Hip; [done|].
  destruct (decide (ip = ip')) as [->|Hne].
  - by rewrite lookup_insert_eq, Hip.
  - by rewrite lookup_insert_ne.
Qed.

Lemma getOrCreate_is_Some (ip ip' : string) (m : gmap string Z) :
  is_Some (m !! ip') -> is_Some (getOrCreateCounter ip m !! ip').
Proof.
  unfold getOrCreateCounter. destruct (m !! ip) eqn:Hip; [done|].
  intros H. destruct (decide (ip = ip')) as [->|Hne].
  - rewrite lookup_insert_eq. eauto.
  - by rewrite lookup_insert_ne.
Qed.

Lemma getOrCreate_created (ip : string) (m : gmap string Z) :
  is_Some (getOrCreateCounter ip m !! ip).
Proof.
  unfold getOrCreateCounter. destruct (m !! ip) eqn:Hip.
  - rewrite Hip. eauto.
  - rewrite lookup_insert_eq. eauto.
Qed.

Lemma insert_is_Some (ip ip' : string) (v : Z) (m : gmap string Z) :
  is_Some (m !! ip') -> is_Some (<[ip := v]> m !! ip').
Proof.
  intros H. destruct (decide (ip = ip')) as [->|Hne].
  - rewrite lookup_insert_eq. eauto.
  - by rewrite lookup_insert_ne.
Qed.

(** A frame's knowledge survives the actions of the others: the limits
    do not change and no counter is ever removed from the map. *)
Lemma frame_ok_mono (l l' : Limiter) (f : frame) :
  maxPerIP l' = maxPerIP l -> maxTotal l' = maxTotal l ->
  (forall ip, is_Some (perIP l !! ip) -> is_Some (perIP l' !! ip)) ->
  frame_ok l f -> frame_ok l' f.
Proof.
  intros Hp Ht Hm. destruct f; simpl; try done.
  - by rewrite Ht.
  - apply Hm.
  - rewrite Hp. intros [? ?]. split; [by apply Hm|done].
Qed.

Lemma frames_ok_mono (l l' : Limiter) (fs : list frame) :
  maxPerIP l' = maxPerIP l -> maxTotal l' = maxTotal l ->
  (forall ip, is_Some (perIP l !! ip) -> is_Some (perIP l' !! ip)) ->
  Forall (frame_ok l) fs -> Forall (frame_ok l') fs.
Proof. intros Hp Ht Hm H. eapply Forall_impl; [exact H|]. intros f. by apply frame_ok_mono. Qed.

Lemma GetIPCount_set_total (ip : string) (v : Z) (l : Limiter) :
  GetIPCount ip (set_total v l) = GetIPCount ip l.
Proof. reflexivity. Qed.

Lemma GetIPCount_is_Some (ip : string) (l : Limiter) :
  GetIPCount ip l <> 0 -> is_Some (perIP l !! ip).
Proof. unfold GetIPCount. destruct (perIP l !! ip); [eauto|done]. Qed.

Lemma GetIPCount_default (ip : string) (l : Limiter) :
  default 0 (perIP l !! ip) = GetIPCount ip l.
Proof. unfold GetIPCount. by destruct (perIP l !! ip). Qed.

Section Accounting.
Variables mp mt : Z.
Hypothesis mp_range : 0 <= mp <= MaxInt32.
Hypothesis mt_range : 0 <= mt <= MaxInt32.

Lemma consistent_nonneg (w : world) :
  consistent mp mt w ->
  0 <= total (lim w) /\ forall ip, 0 <= GetIPCount ip (lim w).
Proof.
  intros C. split.
  - rewrite (c_total _ _ _ C).
    pose proof (sum_frames_nonneg owes_total (frames w) owes_total_nonneg). lia.
  - intros ip. rewrite (c_perIP _ _ _ C).
    pose proof (sum_frames_nonneg (owes_ip ip) (frames w) (owes_ip_nonneg ip)).
    pose proof (occ_nonneg ip (slots w)). lia.
Qed.

Lemma enter_consistent (c : call) (w w' : world) :
  consistent mp mt w -> fire (Enter c) w = Some w' -> consistent mp mt w'.
Proof.
  intros C H. destruct C as [Hp Ht Htot Hip Htle Hile Hfr]. destruct c as [ip|ip]; simpl in H.
  - inversion H; subst; clear H. constructor; simpl; try done.
    + rewrite sum_frames_app; simpl. lia.
    + intros ip'. rewrite sum_frames_app; simpl. rewrite Hip. lia.
    + apply Forall_app. split; [done|]. by repeat constructor.
  - destruct (remove_one ip (slots w)) as [sl|] eqn:Hrm; [|done].
    inversion H; subst; clear H.
    destruct (occ_remove_one _ _ _ Hrm) as [Hlen Hocc].
    constructor; simpl; try done.
    + rewrite sum_frames_app; simpl. lia.
    + intros ip'. rewrite sum_frames_app; simpl. rewrite Hip, (Hocc ip'). lia.
    + apply Forall_app. split; [done|]. by repeat constructor.
Qed.

Lemma sum_frames_lookup_le (g : frame -> Z) (fs : list frame) (i : nat) (f : frame) :
  (forall f, 0 <= g f) -> fs !! i = Some f -> g f <= sum_frames g fs.
Proof.
  intros Hg. revert i. induction fs as [|h fs IH]; intros [|i] H; simpl in *; try done.
  - inversion H; subst. pose proof (sum_frames_nonneg g fs Hg). lia.
  - specialize (IH i H). specialize (Hg h). lia.
Qed.

Ltac account Hf Hip Hile :=
  constructor; simpl;
  [ done | done
  | rewrite (sum_frames_insert _ _ _ _ _ Hf); simpl; lia
  | let ip' := fresh "ip'" in
    intros ip'; rewrite ?GetIPCount_set_total, (sum_frames_insert _ _ _ _ _ Hf);
    simpl; rewrite Hip; lia
  | lia
  | let ip' := fresh "ip'" in
    intros ip'; rewrite ?GetIPCount_set_total; apply Hile
  | ].

Lemma sched_consistent (i : nat) (w w' : world) :
  consistent mp mt w -> fire (Sched i) w = Some w' -> consistent mp mt w'.
Proof.
  intros C H. pose proof (consistent_nonneg w C) as [Hnt Hni].
  destruct C as [Hp Ht Htot Hip Htle Hile Hfr].
  simpl in H. destruct (frames w !! i) as [f|] eqn:Hf; [|done].
  assert (Hokf : frame_ok (lim w) f) by (eapply Forall_lookup_1; eauto).
  destruct w as [l fs sl]; simpl in *.
  destruct f; simpl in H.
  - (* AcqLoadTotal *)
    destruct (Z.geb_spec (total l) (maxTotal l)); inversion H; subst; clear H.
    all: account Hf Hip Hile.
    all: apply Forall_insert; [done|simpl; try done].
  - (* AcqCasTotal *)
    simpl in Hokf.
    destruct (Z.eqb_spec (total l) current); inversion H; subst; clear H.
    + rewrite add64_small by (unfold MaxInt32 in *; lia).
      account Hf Hip Hile.
      apply Forall_insert; [|done].
      eapply frames_ok_mono; [..|exact Hfr]; done.
    + account Hf Hip Hile. apply Forall_insert; [done|simpl; try done].
  - (* AcqLookup *)
    destruct (perIP l !! ip) eqn:Hl; inversion H; subst; clear H.
    all: account Hf Hip Hile.
    all: apply Forall_insert; [done|simpl; try done].
  - (* AcqCreate *)
    inversion H; subst; clear H.
    constructor; simpl; try done.
    + rewrite (sum_frames_insert _ _ _ _ _ Hf); simpl; lia.
    + intros ip'. rewrite GetIPCount_getOrCreate.
      rewrite (sum_frames_insert _ _ _ _ _ Hf); simpl; rewrite Hip; lia.
    + intros ip'. rewrite GetIPCount_getOrCreate. apply Hile.
    + apply Forall_insert; [|simpl; apply getOrCreate_created].
      eapply frames_ok_mono; [..|exact Hfr]; try done.
      intros ip'. apply getOrCreate_is_Some.
  - (* AcqLoadIP *)
    simpl in Hokf. rewrite GetIPCount_default in H.
    destruct (Z.geb_spec (GetIPCount ip l) (maxPerIP l)); inversion H; subst; clear H.
    all: account Hf Hip Hile.
    all: apply Forall_insert; [done|simpl; try done].
  - (* AcqCasIP *)
    simpl in Hokf. destruct Hokf as [Hsome Hlt]. rewrite GetIPCount_default in H.
    destruct (Z.eqb_spec (GetIPCount ip l) ipCount); inversion H; subst; clear H.
    + specialize (Hni ip) as Hn. specialize (Hile ip) as Hle.
      rewrite add64_small by (unfold MaxInt32 in *; lia).
      constructor; simpl; try done.
      * rewrite (sum_frames_insert _ _ _ _ _ Hf); simpl; lia.
      * intros ip'. rewrite GetIPCount_insert.
        rewrite (sum_frames_insert _ _ _ _ _ Hf); simpl.
        destruct (String.eqb_spec ip ip') as [->|Hne]; rewrite Hip; lia.
      * intros ip'. rewrite GetIPCount_insert.
        destruct (String.eqb_spec ip ip') as [->|Hne]; [lia|apply Hile].
      * apply Forall_insert; [|done].
        eapply frames_ok_mono; [..|exact Hfr]; try done.
        intros ip'. apply insert_is_Some.
    + account Hf Hip Hile. apply Forall_insert; [done|simpl; done].
  - (* AcqRollback *)
    inversion H; subst; clear H.
    pose proof (sum_frames_lookup_le owes_total fs i _ owes_total_nonneg Hf) as Hge.
    simpl in Hge.
    rewrite add64_small by (unfold MaxInt32 in *; lia).
    account Hf Hip Hile.
    apply Forall_insert; [|done].
    eapply frames_ok_mono; [..|exact Hfr]; done.
  - (* AcqReturned *) inversion H; subst; by constructor.
  - (* RelLookup *)
    pose proof (sum_frames_lookup_le (owes_ip ip) fs i _ (owes_ip_nonneg ip) Hf) as Hge.
    simpl in Hge. rewrite String.eqb_refl in Hge.
    destruct (perIP l !! ip) eqn:Hl; inversion H; subst; clear H.
    + account Hf Hip Hile. apply Forall_insert; [done|simpl; done].
    + exfalso. specialize (Hip ip). unfold GetIPCount in Hip. rewrite Hl in Hip.
      pose proof (occ_nonneg ip sl). lia.
  - (* RelDecIP *)
    inversion H; subst; clear H. rewrite GetIPCount_default.
    pose proof (sum_frames_lookup_le (owes_ip ip) fs i _ (owes_ip_nonneg ip) Hf) as Hge.
    simpl in Hge. rewrite String.eqb_refl in Hge.
    specialize (Hni ip) as Hn. specialize (Hile ip) as Hle.
    rewrite add64_small by (unfold MaxInt32 in *; lia).
    constructor; simpl; try done.
    + rewrite (sum_frames_insert _ _ _ _ _ Hf); simpl; lia.
    + intros ip'. rewrite GetIPCount_insert.
      rewrite (sum_frames_insert _ _ _ _ _ Hf); simpl.
      destruct (String.eqb_spec ip ip') as [->|Hne]; rewrite Hip; lia.
    + intros ip'. rewrite GetIPCount_insert.
      destruct (String.eqb_spec ip ip') as [->|Hne]; [lia|apply Hile].
    + apply Forall_insert; [|done].
      eapply frames_ok_mono; [..|exact Hfr]; try done.
      intros ip'. apply insert_is_Some.
  - (* RelDecTotal *)
    inversion H; subst; clear H.
    pose proof (sum_frames_lookup_le owes_total fs i _ owes_total_nonneg Hf) as Hge.
    simpl in Hge.
    rewrite add64_small by (unfold MaxInt32 in *; lia).
    account Hf Hip Hile.
    apply Forall_insert; [|done].
    eapply frames_ok_mono; [..|exact Hfr]; done.
  - (* RelReturned *) inversion H; subst; by constructor.
Qed.

Lemma fire_consistent (e : event) (w w' : world) :
  consistent mp mt w -> fire e w = Some w' -> consistent mp mt w'.
Proof. destruct e; [apply enter_consistent|apply sched_consistent]. Qed.

Lemma schedule_consistent (es : list event) (w w' : world) :
  consistent mp mt w -> schedule es w = Some w' -> consistent mp mt w'.
Proof.
  revert w. induction es as [|e es IH]; intros w C H; simpl in H.
  - by inversion H; subst.
  - destruct (fire e w) as [w1|] eqn:He; [|done].
    eapply IH; [|exact H]. eapply fire_consistent; eauto.
Qed.

Lemma consistent_within_limits (w : world) :
  consistent mp mt w -> maxPerIP (lim w) = mp /\ maxTotal (lim w) = mt /\ within_limits (lim w).
Proof.
  intros C. pose proof (consistent_nonneg w C) as [Hnt Hni].
  destruct C as [Hp Ht Htot Hip Htle Hile Hfr].
  repeat split; try done; unfold GetTotalCount; try rewrite Hp; try rewrite Ht; auto.
Qed.

Lemma consistent_all_zero (w : world) :
  consistent mp mt w -> quiescent w -> slots w = [] -> all_zero (lim w).
Proof.
  intros C Hq Hs. destruct C as [Hp Ht Htot Hip Htle Hile Hfr].
  split.
  - unfold GetTotalCount. rewrite Htot, Hs. simpl.
    rewrite (sum_frames_returned owes_total); [done| |done].
    by intros [].
  - intros ip. rewrite Hip, Hs. simpl.
    rewrite (sum_frames_returned (owes_ip ip)); [done| |done].
    by intros [].
Qed.

End Accounting.

Lemma New_counters_zero (ips : list string) (m : gmap string Z) (ip : string) :
  default 0 (m !! ip) = 0 ->
  default 0 (foldl (fun m ip => <[ip := 0]> m) m ips !! ip) = 0.
Proof.
  revert m. induction ips as [|a ips IH]; intros m H; simpl; [done|].
  apply IH. destruct (decide (a = ip)) as [->|Hne].
  - by rewrite lookup_insert_eq.
  - by rewrite lookup_insert_ne.
Qed.

Lemma New_consistent (mp mt : Z) (ips : list string) :
  0 <= int32 mp -> 0 <= int32 mt ->
  consistent (int32 mp) (int32 mt) (start (New mp mt ips)).
Proof.
  intros Hp Ht. constructor; simpl; try done.
  all: intros ip; rewrite <- GetIPCount_default; simpl.
  all: rewrite New_counters_zero; done.
Qed.

(** *** A call run alone is the sequential function *)

Lemma schedule_app (es1 es2 : list event) (w : world) :
  schedule (es1 ++ es2) w = schedule es1 w ≫= schedule es2.
Proof.
  revert w. induction es1 as [|e es1 IH]; intros w; simpl; [done|].
  destruct (fire e w); simpl; [apply IH|done].
Qed.

Lemma schedule_enter_acquire (ip : string) (es : list event) (w : world) :
  schedule (Enter (CallAcquire ip) :: es) w
  = schedule es (mkWorld (lim w) (frames w ++ [AcqLoadTotal ip]) (slots w)).
Proof. reflexivity. Qed.

Lemma schedule_enter_release (ip : string) (es : list event) (w : world) (sl : list string) :
  remove_one ip (slots w) = Some sl ->
  schedule (Enter (CallRelease ip) :: es) w
  = schedule es (mkWorld (lim w) (frames w ++ [RelLookup ip]) sl).
Proof. intros H. simpl. by rewrite H. Qed.

Lemma schedule_last (fs : list frame) (f : frame) (l : Limiter) (sl : list string)
    (es : list event) :
  schedule (Sched (length fs) :: es) (mkWorld l (fs ++ [f]) sl)
  = match atomic f l with
    | Some (f', l') =>
        schedule es (mkWorld l' (fs ++ [f'])
                       (if is_granted f' then frame_ip f' :: sl else sl))
    | None => schedule es (mkWorld l (fs ++ [f]) sl)
    end.
Proof.
  simpl. rewrite list_lookup_middle by done.
  destruct (atomic f l) as [[f' l']|]; [|done].
  by rewrite insert_app_r_alt, Nat.sub_diag.
Qed.

Lemma Acquire_alone (ip : string) (l : Limiter) (fs : list frame) (sl : list string) :
  schedule (Enter (CallAcquire ip) :: repeat (Sched (length fs)) 6) (mkWorld l fs sl)
  = Some (mkWorld (Acquire ip l).2 (fs ++ [AcqReturned ip (Acquire ip l).1])
            (match (Acquire ip l).1 with None => ip :: sl | Some _ => sl end)).
Proof.
  unfold Acquire. rewrite schedule_enter_acquire. cbn [repeat lim frames slots].
  rewrite schedule_last; cbn [atomic].
  destruct (total l >=? maxTotal l) eqn:E1.
  { repeat (rewrite schedule_last; cbn [atomic]). reflexivity. }
  rewrite schedule_last; cbn [atomic]. rewrite Z.eqb_refl.
  rewrite schedule_last; cbn [atomic perIP set_total set_perIP total maxPerIP maxTotal].
  unfold getOrCreateCounter.
  destruct (perIP l !! ip) as [c|] eqn:E2.
  - rewrite schedule_last; cbn [atomic perIP set_total set_perIP total maxPerIP maxTotal is_granted].
    rewrite E2; cbn [default from_option id].
    destruct (c >=? maxPerIP l) eqn:E3.
    + repeat (rewrite schedule_last; cbn [atomic perIP set_total set_perIP total maxPerIP maxTotal is_granted]).
      reflexivity.
    + rewrite schedule_last; cbn [atomic perIP set_total set_perIP total maxPerIP maxTotal is_granted].
      rewrite E2; cbn [default from_option id]. rewrite Z.eqb_refl.
      repeat (rewrite schedule_last; cbn [atomic is_granted frame_ip]). reflexivity.
  - rewrite schedule_last; cbn [atomic perIP set_total set_perIP total maxPerIP maxTotal is_granted].
    unfold getOrCreateCounter. rewrite E2.
    rewrite schedule_last; cbn [atomic perIP set_total set_perIP total maxPerIP maxTotal is_granted].
    rewrite lookup_insert_eq; cbn [default from_option id].
    destruct (0 >=? maxPerIP l) eqn:E3.
    + repeat (rewrite schedule_last; cbn [atomic perIP set_total set_perIP total maxPerIP maxTotal is_granted]).
      reflexivity.
    + rewrite schedule_last; cbn [atomic perIP set_total set_perIP total maxPerIP maxTotal is_granted].
      rewrite lookup_insert_eq; cbn [default from_option id]. rewrite Z.eqb_refl.
      reflexivity.
Qed.

Lemma Release_alone (ip : string) (l : Limiter) (fs : list frame) (sl sl' : list string) :
  remove_one ip sl = Some sl' ->
  schedule (Enter (CallRelease ip) :: repeat (Sched (length fs)) 3) (mkWorld l fs sl)
  = Some (mkWorld (Release ip l) (fs ++ [RelReturned ip]) sl').
Proof.
  intros Hrm. unfold Release.
  rewrite (schedule_enter_release ip _ (mkWorld l fs sl) sl' Hrm). cbn [repeat lim frames slots].
  rewrite schedule_last; cbn [atomic].
  destruct (perIP l !! ip) as [c|] eqn:E.
  - rewrite schedule_last; cbn [atomic is_granted]. rewrite E; cbn [default from_option id].
    repeat (rewrite schedule_last; cbn [atomic is_granted]). reflexivity.
  - repeat (rewrite schedule_last; cbn [atomic is_granted]). reflexivity.
Qed.

Lemma run_simulated (cs : list call) (l l' : Limiter) (held held' : list string)
    (fs : list frame) :
  Forall (fun f => returned f = true) fs ->
  run cs (l, held) = Some (l', held') ->
  exists es fs', schedule es (mkWorld l fs held) = Some (mkWorld l' fs' held')
                 /\ Forall (fun f => returned f = true) fs'.
Proof.
  revert l held fs. induction cs as [|c cs IH]; intros l held fs Hfs H; cbn [run] in H.
  - inversion H; subst. by exists [], fs.
  - destruct (step c (l, held)) as [[l1 held1]|] eqn:Hstep; [|done].
    destruct c as [ip|ip]; simpl in Hstep.
    + pose proof (Acquire_alone ip l fs held) as Hsim.
      destruct (Acquire ip l) as [o l2] eqn:Hacq. cbn [fst snd] in Hsim.
      destruct (IH l1 held1 (fs ++ [AcqReturned ip o])) as (es & fs' & Hes & Hret);
        [apply Forall_app; split; [done|by repeat constructor]|done|].
      exists ((Enter (CallAcquire ip) :: repeat (Sched (length fs)) 6) ++ es), fs'.
      split; [|done]. rewrite schedule_app, Hsim. simpl.
      destruct o; inversion Hstep; subst; exact Hes.
    + destruct (remove_one ip held) as [held2|] eqn:Hrm; [|done].
      inversion Hstep; subst; clear Hstep.
      pose proof (Release_alone ip l fs held held1 Hrm) as Hsim.
      destruct (IH (Release ip l) held1 (fs ++ [RelReturned ip])) as (es & fs' & Hes & Hret);
        [apply Forall_app; split; [done|by repeat constructor]|done|].
      exists ((Enter (CallRelease ip) :: repeat (Sched (length fs)) 3) ++ es), fs'.
      split; [|done]. rewrite schedule_app, Hsim. exact Hes.
Qed.

Lemma int64_succ_pred (x : Z) : in_int64 x -> add64 (add64 x 1) (-1) = x.
Proof.
  unfold in_int64, MinInt64, MaxInt64, add64, int64, wrap. intros H.
  replace ((x + 1 + 2 ^ (64 - 1)) mod 2 ^ 64 - 2 ^ (64 - 1) + -1 + 2 ^ (64 - 1))
    with ((x + 1 + 2 ^ (64 - 1)) mod 2 ^ 64 + (-1)) by lia.
  rewrite Z.add_mod_idemp_l by lia.
  replace (x + 1 + 2 ^ (64 - 1) + -1) with (x + 2 ^ (64 - 1)) by lia.
  rewrite Z.mod_small; lia.
Qed.

End LimiterFacts.

Section LimiterClaims.
Import GoInt limiter.

(** C1.  Let the limiter be created with limits that are non-negative
    as [int32].  Under every interleaving of the atomic actions of
    concurrent [Acquire] and [Release] calls in which a [Release] is only
    entered for a slot that an earlier successful [Acquire] holds, at
    every point [0 <= GetIPCount ip <= maxPerIP] for every address and
    [0 <= GetTotalCount <= maxTotal]; once every call has returned and
    every slot has been released, [GetTotalCount] and every [GetIPCount]
    are zero.  The same holds of every sequence of whole calls. *)
Theorem limiter_counters_within_limits (mp mt : Z) (ips : list string) :
  0 <= int32 mp -> 0 <= int32 mt ->
  (forall es w,
     schedule es (start (New mp mt ips)) = Some w ->
     maxPerIP (lim w) = int32 mp /\ maxTotal (lim w) = int32 mt /\
     within_limits (lim w) /\
     (quiescent w -> slots w = [] -> all_zero (lim w)))
  /\
  (forall cs l held,
     run cs (New mp mt ips, []) = Some (l, held) ->
     maxPerIP l = int32 mp /\ maxTotal l = int32 mt /\
     within_limits l /\ (held = [] -> all_zero l)).
Proof.
  intros Hp Ht.
  pose proof (int32_range mp) as Rp. pose proof (int32_range mt) as Rt.
  assert (Hmp : 0 <= int32 mp <= MaxInt32) by (unfold in_int32 in Rp; lia).
  assert (Hmt : 0 <= int32 mt <= MaxInt32) by (unfold in_int32 in Rt; lia).
  assert (Hconc : forall es w,
     schedule es (start (New mp mt ips)) = Some w ->
     maxPerIP (lim w) = int32 mp /\ maxTotal (lim w) = int32 mt /\
     within_limits (lim w) /\
     (quiescent w -> slots w = [] -> all_zero (lim w))).
  { intros es w H.
    assert (C : consistent (int32 mp) (int32 mt) w).
    { eapply schedule_consistent; [exact Hmp|exact Hmt| |exact H].
      by apply New_consistent. }
    destruct (consistent_within_limits _ _ w C) as (? & ? & ?).
    split; [done|]. split; [done|]. split; [done|].
    intros Hq Hs. eapply consistent_all_zero; eauto. }
  split; [exact Hconc|].
  intros cs l held H.
  destruct (run_simulated cs _ _ _ _ [] (Forall_nil_2 _) H) as (es & fs' & Hes & Hret).
  destruct (Hconc es _ Hes) as (H1 & H2 & H3 & H4). simpl in *.
  split; [done|]. split; [done|]. split; [done|].
  intros ->. by apply H4.
Qed.

Lemma limiter_counters_within_limits_witness :
  exists l, run limiter_trace (New 2 3 ["10.0.0.1"; "10.0.0.2"], []) = Some (l, [])
            /\ within_limits l /\ all_zero l.
Proof.
  destruct (limiter_counters_within_limits 2 3 ["10.0.0.1"; "10.0.0.2"])
    as [_ Hseq]; [by vm_compute|by vm_compute|].
  destruct (run limiter_trace (New 2 3 ["10.0.0.1"; "10.0.0.2"], [])) as [[l held]|] eqn:E;
    [|by vm_compute in E].
  assert (held = []) as -> by (vm_compute in E; congruence).
  exists l. destruct (Hseq limiter_trace l [] E) as (_ & _ & Hw & Hz).
  split; [done|]. split; [exact Hw|by apply Hz].
Defined.

(** C2.  An [Acquire] that returns [ErrIPLimitReached] or
    [ErrTotalLimitReached] leaves [GetTotalCount] and every [GetIPCount]
    at their values before the call.  On the total-limit path the limiter
    is untouched; on the per-address path the global counter was
    incremented once and is decremented once, and the only other change
    is that a missing counter of the address now exists, at zero. *)
Theorem Acquire_failure_restores_counters (ip : string) (l l' : Limiter) (e : error) :
  in_int64 (total l) ->
  Acquire ip l = (Some e, l') ->
  GetTotalCount l' = GetTotalCount l /\
  (forall ip', GetIPCount ip' l' = GetIPCount ip' l) /\
  (e = ErrTotalLimitReached -> l' = l) /\
  (e = ErrIPLimitReached ->
     total l' = add64 (add64 (total l) 1) (-1) /\
     perIP l' = getOrCreateCounter ip (perIP l)).
Proof.
  intros Hr H. unfold Acquire in H.
  destruct (total l >=? maxTotal l) eqn:E1.
  - inversion H; subst. repeat split; try done.
  - cbn [perIP set_perIP set_total total] in H.
    destruct (default 0 (getOrCreateCounter ip (perIP l) !! ip) >=? maxPerIP l) eqn:E2;
      inversion H; subst; clear H.
    unfold GetTotalCount. cbn [total set_total perIP set_perIP].
    rewrite (int64_succ_pred _ Hr).
    split; [done|]. split.
    + intros ip'. rewrite GetIPCount_set_total.
      change (set_perIP (getOrCreateCounter ip (perIP l)) (set_total (add64 (total l) 1) l))
        with (set_perIP (getOrCreateCounter ip (perIP (set_total (add64 (total l) 1) l)))
                (set_total (add64 (total l) 1) l)).
      by rewrite GetIPCount_getOrCreate, GetIPCount_set_total.
    + split; [done|]. intros _. by split.
Qed.

Lemma Acquire_failure_restores_counters_witness :
  let l := (Acquire "10.0.0.1" (New 1 5 ["10.0.0.1"])).2 in
  fst (Acquire "10.0.0.1" l) = Some ErrIPLimitReached /\
  GetTotalCount (Acquire "10.0.0.1" l).2 = 1 /\
  GetIPCount "10.0.0.1" (Acquire "10.0.0.1" l).2 = 1.
Proof.
  intros l.
  destruct (Acquire_failure_restores_counters "10.0.0.1" l (Acquire "10.0.0.1" l).2
              ErrIPLimitReached) as (Ht & Hi & _ & _).
  - by vm_compute.
  - by vm_compute.
  - split; [by vm_compute|]. split.
    + rewrite Ht. by vm_compute.
    + rewrite Hi. by vm_compute.
Defined.

(** C10.  [Release] cannot fail.  Every call decrements the global
    counter by one (as an [int64]); the counter of the address is
    decremented when it exists and the map is left alone when it does
    not.  A [Release] that follows no [Acquire] therefore makes
    [GetTotalCount] negative. *)
Theorem Release_always_decrements_total :
  (forall ip l, GetTotalCount (Release ip l) = add64 (GetTotalCount l) (-1)) /\
  (forall ip l, MinInt64 < GetTotalCount l <= MaxInt64 ->
     GetTotalCount (Release ip l) = GetTotalCount l - 1) /\
  (forall ip l c, perIP l !! ip = Some c ->
     perIP (Release ip l) = <[ip := add64 c (-1)]> (perIP l)) /\
  (forall ip l, perIP l !! ip = None -> perIP (Release ip l) = perIP l) /\
  GetTotalCount (Release "10.0.0.9" (New 10 100 ["10.0.0.1"; "10.0.0.2"])) = -1 /\
  GetTotalCount (Release "10.0.0.1" (New 10 100 ["10.0.0.1"; "10.0.0.2"])) = -1 /\
  GetIPCount "10.0.0.1" (Release "10.0.0.1" (New 10 100 ["10.0.0.1"; "10.0.0.2"])) = -1.
Proof.
  assert (Htot : forall ip l, GetTotalCount (Release ip l) = add64 (GetTotalCount l) (-1)).
  { intros ip l. unfold Release, GetTotalCount. by destruct (perIP l !! ip). }
  split; [exact Htot|]. split.
  { intros ip l H. rewrite Htot. apply add64_id.
    unfold in_int64, MinInt64, MaxInt64 in *. lia. }
  split.
  { intros ip l c H. unfold Release. by rewrite H. }
  split.
  { intros ip l H. unfold Release. by rewrite H. }
  by vm_compute.
Qed.

Lemma Release_always_decrements_total_witness :
  GetTotalCount (Release "10.0.0.1" (New 10 100 [])) = 0 - 1 /\
  perIP (Release "10.0.0.1" (New 10 100 ["10.0.0.1"]))
  = <["10.0.0.1" := add64 0 (-1)]> (perIP (New 10 100 ["10.0.0.1"])) /\
  perIP (Release "10.0.0.1" (New 10 100 [])) = perIP (New 10 100 []).
Proof.
  destruct Release_always_decrements_total as (_ & Hdec & Hsome & Hnone & _).
  split; [|split].
  - apply (Hdec "10.0.0.1" (New 10 100 [])). by vm_compute.
  - apply (Hsome "10.0.0.1" (New 10 100 ["10.0.0.1"]) 0). by vm_compute.
  - apply (Hnone "10.0.0.1" (New 10 100 [])). by vm_compute.
Defined.

End LimiterClaims.

Section HealthClaims.
Import GoInt health.

Lemma add64_succ (x : Z) : 0 <= x < MaxInt64 -> add64 x 1 = x + 1.
Proof. intros H. apply add64_id. unfold in_int64, MinInt64, MaxInt64 in *. lia. Qed.

Lemma record_counters (c : check) (s : IPStatus) :
  0 <= ConsecutiveFailures s < MaxInt64 ->
  0 <= ConsecutiveSuccesses s < MaxInt64 ->
  0 <= ConsecutiveFailures (record c s) <= ConsecutiveFailures s + 1 /\
  0 <= ConsecutiveSuccesses (record c s) <= ConsecutiveSuccesses s + 1.
Proof.
  intros Hf Hs.
  destruct c as [now st|now err ft]; destruct s as [ip state cf cs lc le];
    simpl in *; destruct state; simpl.
  all: rewrite ?add64_succ by done.
  all: repeat match goal with |- context [if ?b then _ else _] => destruct b end.
  all: simpl; lia.
Qed.

Lemma record_machine_step (c : check) (s : IPStatus) :
  0 <= ConsecutiveFailures s < MaxInt64 ->
  0 <= ConsecutiveSuccesses s < MaxInt64 ->
  machine_step c s (record c s).
Proof.
  intros Hf Hs.
  destruct c as [now st|now err ft]; destruct s as [ip state cf cs lc le];
    simpl in *; destruct state; unfold machine_step; simpl.
  all: rewrite ?add64_succ by done.
  all: repeat match goal with |- context [if ?b then _ else _] => destruct b eqn:? end.
  all: simpl; rewrite ?add64_succ by done; try done.
  all: match goal with H1 : ?b = true, H2 : ?c = false |- _ => rewrite ?add64_succ in H1, H2 by done; simpl in H1, H2; congruence end.
Qed.

(** C7.  Along every sequence of [RecordSuccess] and [RecordFailure]
    calls (an interleaving of calls is a sequence, since each holds the
    mutex throughout) the status takes one transition of the three-state
    machine per call: in Healthy a failure increments
    consecutive_failures, resets consecutive_successes and moves to
    Unhealthy exactly when consecutive_failures >= failure_threshold; in
    Unhealthy a success moves to Recovering with consecutive_successes =
    1 and a failure stays; in Recovering a success increments
    consecutive_successes and moves to Healthy exactly when it is >=
    success_threshold, and a failure moves to Unhealthy.  The counters
    are Go ints: the sequence is short enough for them not to wrap. *)
Theorem IPStatus_follows_state_machine (cs : list check) (s : IPStatus) :
  0 <= ConsecutiveFailures s ->
  0 <= ConsecutiveSuccesses s ->
  ConsecutiveFailures s + Z.of_nat (length cs) <= MaxInt64 ->
  ConsecutiveSuccesses s + Z.of_nat (length cs) <= MaxInt64 ->
  follows_machine cs s.
Proof.
  revert s. induction cs as [|c cs IH]; intros s Hf Hs Hfl Hsl; simpl; [done|].
  simpl length in *.
  assert (Hf' : 0 <= ConsecutiveFailures s < MaxInt64) by lia.
  assert (Hs' : 0 <= ConsecutiveSuccesses s < MaxInt64) by lia.
  split; [by apply record_machine_step|].
  destruct (record_counters c s Hf' Hs') as [Hcf Hcs].
  apply IH; lia.
Qed.

Lemma IPStatus_follows_state_machine_witness :
  follows_machine
    [Failed 10 (Some "timeout") 2; Failed 20 (Some "timeout") 2; Succeeded 30 2;
     Succeeded 40 2; Succeeded 50 2; Failed 60 (Some "refused") 2]
    (NewIPStatus "10.0.0.1")
  /\ State (foldl (fun s c => record c s) (NewIPStatus "10.0.0.1")
              [Failed 10 (Some "timeout") 2; Failed 20 (Some "timeout") 2;
               Succeeded 30 2; Succeeded 40 2]) = StateHealthy.
Proof.
  split; [|by vm_compute].
  apply IPStatus_follows_state_machine; by vm_compute.
Defined.

End HealthClaims.

Section StringFacts.
Import gostrings.

Lemma string_app_cons (c : Ascii.ascii) (a b : string) :
  String c a +:+ b = String c (a +:+ b).
Proof. reflexivity. Qed.

Lemma string_app_nil_l (s : string) : "" +:+ s = s.
Proof. reflexivity. Qed.

Lemma string_app_nil_r (s : string) : s +:+ "" = s.
Proof. induction s as [|c s IH]; [done|]. by rewrite string_app_cons, IH. Qed.

Lemma string_app_assoc (a b c : string) : (a +:+ b) +:+ c = a +:+ b +:+ c.
Proof. induction a as [|x a IH]; [done|]. by rewrite !string_app_cons, IH. Qed.

Lemma string_app_length (a b : string) :
  String.length (a +:+ b) = (String.length a + String.length b)%nat.
Proof. induction a as [|x a IH]; [done|]. simpl; rewrite ?string_app_cons; simpl. by rewrite IH. Qed.

Lemma take_drop (n : nat) (s : string) : take n s +:+ drop n s = s.
Proof.
  revert s. induction n as [|n IH]; intros [|c s]; try done.
  simpl; rewrite ?string_app_cons; simpl. by rewrite IH.
Qed.

Lemma take_app_length (a b : string) : take (String.length a) (a +:+ b) = a.
Proof. induction a as [|x a IH]; [done|]. simpl; rewrite ?string_app_cons; simpl. by rewrite IH. Qed.

Lemma drop_app_length (a b : string) : drop (String.length a) (a +:+ b) = b.
Proof. induction a as [|x a IH]; [done|]. simpl; rewrite ?string_app_cons; simpl. by rewrite IH. Qed.

Lemma drop_drop (n m : nat) (s : string) : drop n (drop m s) = drop (m + n) s.
Proof.
  revert s. induction m as [|m IH]; intros s; [done|].
  destruct s as [|c s]; [by destruct n|]. simpl. apply IH.
Qed.

Lemma HasPrefix_app (s p : string) :
  HasPrefix s p = true <-> exists rest, s = p +:+ rest.
Proof.
  revert s. induction p as [|c p IH]; intros s; simpl.
  - split; [intros _; by exists s|intros _; by destruct s].
  - destruct s as [|d s]; simpl.
    + split; [done|intros [rest H]; discriminate].
    + destruct (Ascii.eqb_spec c d) as [->|Hne]; simpl.
      * rewrite IH. split; intros [rest H]; exists rest.
        -- by rewrite H.
        -- rewrite !string_app_cons in H. congruence.
      * split; [done|]. intros [rest H]. rewrite !string_app_cons in H. congruence.
Qed.

(** [index_opt] finds an instance of [substr] and none starts before it. *)
Lemma index_opt_Some (s substr : string) (i : nat) :
  index_opt s substr = Some i ->
  HasPrefix (drop i s) substr = true /\
  forall j, (j < i)%nat -> HasPrefix (drop j s) substr = false.
Proof.
  revert i. induction s as [|c s IH]; intros i H; cbn [index_opt last_index_opt] in H.
  - destruct (HasPrefix "" substr) eqn:E; [|done]. inversion H; subst.
    split; [done|intros j Hj; lia].
  - destruct (HasPrefix (String c s) substr) eqn:E.
    + inversion H; subst. split; [done|intros j Hj; lia].
    + destruct (index_opt s substr) as [k|] eqn:Hk; [|done].
      inversion H; subst. destruct (IH k eq_refl) as [Hp Hlt].
      split; [done|]. intros [|j] Hj; [done|]. apply Hlt. lia.
Qed.

Lemma index_opt_None (s substr : string) (j : nat) :
  index_opt s substr = None -> HasPrefix (drop j s) substr = false.
Proof.
  revert j. induction s as [|c s IH]; intros j H; cbn [index_opt last_index_opt] in H.
  - destruct (HasPrefix "" substr) eqn:E; [done|]. by destruct j.
  - destruct (HasPrefix (String c s) substr) eqn:E; [done|].
    destruct (index_opt s substr) eqn:Hk; [done|].
    destruct j as [|j]; [done|]. by apply IH.
Qed.

Lemma last_index_opt_Some (s substr : string) (i : nat) :
  last_index_opt s substr = Some i ->
  HasPrefix (drop i s) substr = true /\
  forall j, (i < j)%nat -> (j <= String.length s)%nat ->
            HasPrefix (drop j s) substr = false.
Proof.
  revert i. induction s as [|c s IH]; intros i H; cbn [index_opt last_index_opt] in H.
  - destruct (HasPrefix "" substr) eqn:E; [|done]. inversion H; subst.
    split; [done|]. simpl. lia.
  - destruct (last_index_opt s substr) as [k|] eqn:Hk.
    + inversion H; subst. destruct (IH k eq_refl) as [Hp Hgt].
      split; [done|]. intros [|j] Hj Hl; [lia|]. simpl in *. apply Hgt; lia.
    + destruct (HasPrefix (String c s) substr) eqn:E; [|done].
      inversion H; subst. split; [done|].
      intros [|j] Hj Hl; [lia|]. simpl in *.
      clear -Hk Hl. revert j Hl. induction s as [|d s IHs]; intros j Hl; cbn [index_opt last_index_opt] in Hk.
      * destruct (HasPrefix "" substr) eqn:E; [done|]. by destruct j.
      * destruct (last_index_opt s substr) eqn:Hs; [done|].
        destruct (HasPrefix (String d s) substr) eqn:E; [done|].
        destruct j as [|j]; [done|]. simpl in *. apply IHs; [done|lia].
Qed.

Lemma last_index_opt_None (s substr : string) (j : nat) :
  last_index_opt s substr = None -> (j <= String.length s)%nat ->
  HasPrefix (drop j s) substr = false.
Proof.
  revert j. induction s as [|d s IHs]; intros j Hk Hl; cbn [index_opt last_index_opt] in Hk.
  - destruct (HasPrefix "" substr) eqn:E; [done|]. by destruct j.
  - destruct (last_index_opt s substr) eqn:Hs; [done|].
    destruct (HasPrefix (String d s) substr) eqn:E; [done|].
    destruct j as [|j]; [done|]. simpl in *. apply IHs; [done|lia].
Qed.

Lemma index_opt_char_take (a : Ascii.ascii) (s : string) (i : nat) :
  index_opt s (String a "") = Some i -> index_opt (take i s) (String a "") = None.
Proof.
  revert i. induction s as [|c s IH]; intros i H; cbn [index_opt] in H.
  - simpl in H. done.
  - simpl in H. destruct (Ascii.eqb a c) eqn:E; simpl in H.
    + by inversion H; subst.
    + destruct (index_opt s (String a "")) as [k|] eqn:Hk; [|done].
      inversion H; subst. simpl. rewrite E. simpl. by rewrite (IH k eq_refl).
Qed.

Lemma HasPrefix_drop_split (s p : string) (i : nat) :
  HasPrefix (drop i s) p = true -> exists rest, s = take i s +:+ p +:+ rest.
Proof.
  intros H. apply HasPrefix_app in H as [rest H]. exists rest.
  by rewrite <- H, take_drop.
Qed.

Lemma index_opt_char_split (a : Ascii.ascii) (s : string) (i : nat) :
  index_opt s (String a "") = Some i ->
  s = take i s +:+ String a "" +:+ drop (S i) s.
Proof.
  revert i. induction s as [|c s IH]; intros i H; cbn [index_opt HasPrefix] in H.
  - done.
  - destruct (Ascii.eqb_spec a c) as [->|Hne]; cbn [andb] in H.
    + inversion H; subst. simpl. by destruct s.
    + destruct (index_opt s (String a "")) as [k|] eqn:Hk; [|done].
      inversion H; subst. simpl. rewrite string_app_cons. f_equal. by apply IH.
Qed.

Lemma index_opt_char_app (a : Ascii.ascii) (u p : string) :
  index_opt u (String a "") = None ->
  index_opt (u +:+ String a "" +:+ p) (String a "") = Some (String.length u).
Proof.
  induction u as [|c u IH]; intros H.
  - rewrite string_app_nil_l, string_app_cons. cbn [index_opt HasPrefix].
    by rewrite Ascii.eqb_refl.
  - rewrite string_app_cons. cbn [index_opt HasPrefix] in *.
    destruct (Ascii.eqb a c); cbn [andb] in *; [done|].
    destruct (index_opt u (String a "")) eqn:Hu; [done|].
    by rewrite IH.
Qed.

Lemma take_0 (s : string) : take 0 s = "".
Proof. by destruct s. Qed.

Lemma drop_0 (s : string) : drop 0 s = s.
Proof. by destruct s. Qed.

End StringFacts.

Section ProxyClaims.
Import gostrings http config proxy.

(** C4, as the code has it.  For an address that begins with '[' and
    contains "]:", [getClientIP] returns what stands between that '[' and
    the last "]:"; for one that begins with '[' and contains no "]:", the
    whole address.  For any other address that contains ':' it returns
    the part before the first ':' (which contains no ':'); for one
    without ':' the whole address. *)
Theorem getClientIP_splits_at_first_colon (r : Request) :
  let addr := RemoteAddr r in
  (HasPrefix addr "[" = true -> LastIndex addr "]:" <> -1 ->
     (exists rest, addr = "[" +:+ getClientIP r +:+ "]:" +:+ rest) /\
     1 + len (getClientIP r) = LastIndex addr "]:" /\
     (forall j, (Z.to_nat (LastIndex addr "]:") < j <= String.length addr)%nat ->
                HasPrefix (drop j addr) "]:" = false)) /\
  (HasPrefix addr "[" = true -> LastIndex addr "]:" = -1 -> getClientIP r = addr) /\
  (HasPrefix addr "[" = false -> Index addr ":" <> -1 ->
     (exists rest, addr = getClientIP r +:+ ":" +:+ rest) /\
     Index (getClientIP r) ":" = -1) /\
  (HasPrefix addr "[" = false -> Index addr ":" = -1 -> getClientIP r = addr).
Proof.
  destruct r as [hdr addr]. cbn [RemoteAddr]. unfold getClientIP. cbn [RemoteAddr].
  split; [|split; [|split]].
  - intros Hb Hl. rewrite Hb. unfold LastIndex in *.
    destruct (last_index_opt addr "]:") as [i|] eqn:Hi; [|done].
    destruct (last_index_opt_Some _ _ _ Hi) as [Hp Hlast].
    assert (Hne : (Z.of_nat i =? -1) = false) by (apply Z.eqb_neq; lia).
    rewrite Hne. cbn [negb].
    destruct addr as [|c addr]; [done|]. cbn [HasPrefix] in Hb.
    apply andb_true_iff in Hb as [Hb _]. apply Ascii.eqb_eq in Hb. subst c.
    destruct i as [|i]; [by simpl in Hp|].
    unfold slice. replace (Z.to_nat (Z.of_nat (S i) - 1)) with i by lia.
    change (Z.to_nat 1) with 1%nat. cbn [drop].
    cbn [drop] in Hp. destruct (HasPrefix_drop_split _ _ _ Hp) as [rest Hrest].
    split; [exists rest; by rewrite string_app_cons, string_app_nil_l, <- Hrest|].
    split.
    + unfold len. assert ((i <= String.length addr)%nat).
      { clear -Hp. revert addr Hp. induction i as [|i IH]; intros addr Hp; [lia|].
        destruct addr as [|d addr]; [done|]. simpl in *. specialize (IH _ Hp). lia. }
      assert (String.length (take i addr) = i) as ->; [|lia].
      clear -H. revert addr H. induction i as [|i IH]; intros addr H; [done|].
      destruct addr as [|d addr]; simpl in *; [lia|]. rewrite IH; lia.
    + intros j Hj. apply Hlast; lia.
  - intros Hb Hl. rewrite Hb, Hl. done.
  - intros Hb Hl. rewrite Hb. unfold Cut. unfold Index in *.
    destruct (index_opt addr ":") as [i|] eqn:Hi; [|done].
    assert (Hge : (Z.of_nat i >=? 0) = true) by (apply Z.geb_le; lia).
    rewrite Hge. unfold slice. change (Z.to_nat 0) with 0%nat.
    replace (Z.to_nat (Z.of_nat i - 0)) with i by lia.
    assert (drop 0 addr = addr) as -> by (by destruct addr).
    destruct (index_opt_Some _ _ _ Hi) as [Hp _].
    split; [by apply HasPrefix_drop_split|].
    by rewrite (index_opt_char_take _ _ _ Hi).
  - intros Hb Hl. rewrite Hb. unfold Cut. rewrite Hl. done.
Qed.

Lemma getClientIP_splits_at_first_colon_witness :
  (exists rest, "[2001:db8::1]:8080" = "[" +:+ "2001:db8::1" +:+ "]:" +:+ rest) /\
  getClientIP (mkRequest ∅ "[::1]") = "[::1]" /\
  Index (getClientIP (mkRequest ∅ "fe80::1%eth0")) ":" = -1 /\
  getClientIP (mkRequest ∅ "192.168.1.1") = "192.168.1.1".
Proof.
  pose proof (getClientIP_splits_at_first_colon (mkRequest ∅ "[2001:db8::1]:8080"))
    as (H1 & _).
  pose proof (getClientIP_splits_at_first_colon (mkRequest ∅ "[::1]")) as (_ & H2 & _).
  pose proof (getClientIP_splits_at_first_colon (mkRequest ∅ "fe80::1%eth0"))
    as (_ & _ & H3 & _).
  pose proof (getClientIP_splits_at_first_colon (mkRequest ∅ "192.168.1.1"))
    as (_ & _ & _ & H4).
  split; [|split; [|split]].
  - apply H1; by vm_compute.
  - apply H2; by vm_compute.
  - apply H3; by vm_compute.
  - apply H4; by vm_compute.
Defined.

(** C4 as stated fails: for the bare IPv6 literal with a zone,
    [getClientIP] returns what precedes the first colon, not what
    precedes the last one. *)
Lemma getClientIP_not_before_last_colon :
  getClientIP (mkRequest ∅ "fe80::1%eth0") = "fe80" /\
  before_last_colon "fe80::1%eth0" = "fe80:" /\
  ~ getClientIP_as_specified (mkRequest ∅ "fe80::1%eth0").
Proof.
  split; [by vm_compute|]. split; [by vm_compute|].
  unfold getClientIP_as_specified. vm_compute. intros H. discriminate H.
Qed.

Lemma GetAuthCredentials_ok (cfg : Config) (username password : string) :
  GetAuthCredentials cfg = (username, password, true) ->
  Auth cfg = username +:+ ":" +:+ password /\
  index_opt username ":" = None /\
  String.eqb (Auth cfg) "" = false.
Proof.
  unfold GetAuthCredentials. destruct (String.eqb (Auth cfg) "") eqn:E; [done|].
  unfold SplitN. change (2 =? 0) with false. change (2 <? 0) with false.
  change (Z.to_nat (2 - 1)) with 1%nat. cbn [split_at_most].
  destruct (index_opt (Auth cfg) ":") as [m|] eqn:Hm; [|done].
  intros H. inversion H; subst; clear H.
  split; [|split; [|done]].
  - change (String.length ":") with 1%nat. rewrite Nat.add_1_r.
    by apply index_opt_char_split.
  - by apply index_opt_char_take.
Qed.

Section AuthenticateFacts.
Variable DecodeString : string -> option string.

(** What [authenticate] returns, case by case. *)
Lemma authenticate_cases (cfg : Config) (w : ResponseWriter) (r : Request)
    (username password : string) :
  GetAuthCredentials cfg = (username, password, true) ->
  (authenticate DecodeString cfg w r = (false, sendProxyAuthRequired w) /\
   refused DecodeString username password r) \/
  (authenticate DecodeString cfg w r = (true, w) /\
   ~ refused DecodeString username password r).
Proof.
  intros Hcred. destruct (GetAuthCredentials_ok _ _ _ Hcred) as (Hauth & Hnc & Hne).
  unfold authenticate, refused. rewrite Hne, Hcred. cbn [negb].
  set (auth := Header_Get (Header r) "Proxy-Authorization").
  destruct (String.eqb_spec auth "") as [He|He]; [left; split; [done|by left]|].
  destruct (HasPrefix auth "Basic ") eqn:Hp; cbn [negb];
    [|left; split; [done|right; by left]].
  pose proof Hp as Hp'. apply HasPrefix_app in Hp as [payload Hpay].
  assert (Hsl : slice_from auth (len "Basic ") = payload).
  { unfold slice_from, len. rewrite Nat2Z.id, Hpay. apply drop_app_length. }
  rewrite Hsl.
  assert (Hinj : forall pl, auth = "Basic " +:+ pl -> pl = payload).
  { intros pl Hpl. rewrite Hpay in Hpl. by apply (inj (String.app "Basic ")) in Hpl. }
  destruct (DecodeString payload) as [decoded|] eqn:Hdec.
  2:{ left. split; [done|]. right. right. exists payload. split; [done|]. by left. }
  unfold Index. destruct (index_opt decoded ":") as [i|] eqn:Hi.
  2:{ change (-1 <? 0) with true. left. split; [done|]. right. right.
      exists payload. split; [done|]. right. exists decoded. split; [done|].
      left. unfold Index. by rewrite Hi. }
  assert (Hlt : (Z.of_nat i <? 0) = false) by (apply Z.ltb_ge; lia).
  rewrite Hlt. unfold slice, slice_from. change (Z.to_nat 0) with 0%nat.
  replace (Z.to_nat (Z.of_nat i - 0)) with i by lia.
  replace (Z.to_nat (Z.of_nat i + 1)) with (S i) by lia.
  rewrite drop_0. unfold subtle.ConstantTimeCompare.
  pose proof (index_opt_char_split _ _ _ Hi) as Hsplit.
  pose proof (index_opt_char_take _ _ _ Hi) as Hnocolon.
  assert (Huniq : forall user pass,
            decoded = user +:+ ":" +:+ pass -> Index user ":" = -1 ->
            user = take i decoded /\ pass = drop (S i) decoded).
  { intros user pass Hd Hu. unfold Index in Hu.
    destruct (index_opt user ":") eqn:Hiu; [lia|].
    pose proof (index_opt_char_app _ user pass Hiu) as Hidx.
    change (String (Ascii.Ascii false true false true true true false false) "")
      with ":" in Hidx.
    rewrite <- Hd, Hi in Hidx. inversion Hidx; subst i.
    rewrite Hd. split.
    - by rewrite take_app_length.
    - change (S (String.length user)) with (1 + String.length user)%nat.
      rewrite Nat.add_comm, <- drop_drop, drop_app_length. done. }
  destruct (String.eqb_spec (take i decoded) username) as [Hu|Hu];
    destruct (String.eqb_spec (drop (S i) decoded) password) as [Hpw|Hpw];
    cbn [Z.eqb Pos.eqb negb orb].
  - right. split; [done|].
    intros [H|[H|(pl & Hpl & [H|(d & Hd & [H|(user & pass & Hs & Hn & Hdiff)])])]].
    + by fold auth in H.
    + fold auth in H. congruence.
    + apply Hinj in Hpl as ->. congruence.
    + apply Hinj in Hpl as ->. assert (d = decoded) as -> by congruence.
      unfold Index in H. rewrite Hi in H. lia.
    + apply Hinj in Hpl as ->. assert (d = decoded) as -> by congruence.
      destruct (Huniq user pass Hs Hn) as [-> ->]. by destruct Hdiff.
  - left. split; [done|]. right. right. exists payload. split; [done|]. right.
    exists decoded. split; [done|]. right.
    exists (take i decoded), (drop (S i) decoded).
    split; [done|]. split; [unfold Index; by rewrite Hnocolon|]. by right.
  - left. split; [done|]. right. right. exists payload. split; [done|]. right.
    exists decoded. split; [done|]. right.
    exists (take i decoded), (drop (S i) decoded).
    split; [done|]. split; [unfold Index; by rewrite Hnocolon|]. by left.
  - left. split; [done|]. right. right. exists payload. split; [done|]. right.
    exists decoded. split; [done|]. right.
    exists (take i decoded), (drop (S i) decoded).
    split; [done|]. split; [unfold Index; by rewrite Hnocolon|]. by left.
Qed.

(** C9.  With credentials configured, [authenticate] returns false
    exactly when the Proxy-Authorization header is missing, does not
    start with "Basic ", carries a payload that does not decode, decodes
    to something without a colon, or decodes to a user and password
    (split at the first colon) that differ from the configured ones; it
    then sends status 407 with the header Proxy-Authenticate: Basic
    realm=(quote)Proxy(quote).  Otherwise it returns true and sends
    nothing.  The configured password is everything after the first
    colon of the configured credentials, so a payload that decodes to the
    configured credentials is accepted whatever colons the password
    holds. *)
Theorem authenticate_refuses_exactly (cfg : Config) (w : ResponseWriter) (r : Request)
    (username password : string) :
  GetAuthCredentials cfg = (username, password, true) ->
  ((authenticate DecodeString cfg w r).1 = false <->
     refused DecodeString username password r) /\
  (refused DecodeString username password r ->
     authenticate DecodeString cfg w r = (false, sendProxyAuthRequired w)) /\
  (~ refused DecodeString username password r ->
     authenticate DecodeString cfg w r = (true, w)) /\
  (status w = None -> status (sendProxyAuthRequired w) = Some 407) /\
  header (sendProxyAuthRequired w) !! "Proxy-Authenticate"
    = Some ["Basic realm=" +:+ dquote +:+ "Proxy" +:+ dquote] /\
  Auth cfg = username +:+ ":" +:+ password /\
  Index username ":" = -1 /\
  (forall payload,
     Header_Get (Header r) "Proxy-Authorization" = "Basic " +:+ payload ->
     DecodeString payload = Some (username +:+ ":" +:+ password) ->
     authenticate DecodeString cfg w r = (true, w)).
Proof.
  intros Hcred. destruct (GetAuthCredentials_ok _ _ _ Hcred) as (Hauth & Hnc & Hne).
  pose proof (authenticate_cases cfg w r username password Hcred) as Hcases.
  assert (Hacc : forall payload,
     Header_Get (Header r) "Proxy-Authorization" = "Basic " +:+ payload ->
     DecodeString payload = Some (username +:+ ":" +:+ password) ->
     ~ refused DecodeString username password r).
  { intros payload Hh Hd.
    intros [H|[H|(pl & Hpl & [H|(d & Hdd & [H|(user & pass & Hs & Hn & Hdiff)])])]].
    - rewrite Hh in H. discriminate H.
    - rewrite Hh in H. assert (HasPrefix ("Basic " +:+ payload) "Basic " = true)
        by (apply HasPrefix_app; eauto). congruence.
    - rewrite Hh in Hpl. apply (inj (String.app "Basic ")) in Hpl as <-. congruence.
    - rewrite Hh in Hpl. apply (inj (String.app "Basic ")) in Hpl as <-.
      assert (d = username +:+ ":" +:+ password) as -> by congruence.
      unfold Index in H. rewrite (index_opt_char_app _ username password Hnc) in H. lia.
    - rewrite Hh in Hpl. apply (inj (String.app "Basic ")) in Hpl as <-.
      assert (d = username +:+ ":" +:+ password) as -> by congruence.
      unfold Index in Hn. destruct (index_opt user ":") eqn:Hu; [lia|].
      pose proof (index_opt_char_app _ user pass Hu) as H1.
      pose proof (index_opt_char_app _ username password Hnc) as H2.
      rewrite <- Hs, H2 in H1. inversion H1 as [Hlen].
      assert (user = username) as ->.
      { transitivity (take (String.length user) (user +:+ ":" +:+ pass));
          [by rewrite take_app_length|].
        rewrite <- Hs, <- Hlen. apply take_app_length. }
      apply (inj (String.app username)) in Hs. apply (inj (String.app ":")) in Hs.
      subst pass. by destruct Hdiff. }
  split; [|split; [|split; [|split; [|split; [|split; [|split]]]]]].
  - destruct Hcases as [[-> Hr]|[-> Hr]]; simpl; split; done.
  - intros Hr. by destruct Hcases as [[-> _]|[_ Hn]].
  - intros Hr. by destruct Hcases as [[_ Hn]|[-> _]].
  - intros Hs. unfold sendProxyAuthRequired, Error, Write, WriteHeader. simpl.
    rewrite Hs. done.
  - unfold sendProxyAuthRequired, Error, Write, WriteHeader, set_header.
    cbn [header status body].
    destruct (status w); cbn [header status body];
      unfold Header_Set, Header_Del;
      rewrite lookup_insert_ne by done; rewrite lookup_insert_ne by done;
      rewrite lookup_delete_ne by done; by rewrite lookup_insert_eq.
  - done.
  - unfold Index. by rewrite Hnc.
  - intros payload Hh Hd. destruct Hcases as [[_ Hr]|[-> _]]; [|done].
    by destruct (Hacc payload Hh Hd).
Qed.

End AuthenticateFacts.

Lemma authenticate_refuses_exactly_witness :
  let cfg := mkConfig "user:pass:word" in
  let w := mkResponseWriter ∅ None "" in
  let accept := mkRequest (<["Proxy-Authorization" := ["Basic dXNlcjpwYXNzOndvcmQ="]]> ∅)
                  "192.168.1.1:12345" in
  let reject := mkRequest (<["Proxy-Authorization" := ["Bearer dXNlcjpwYXNzOndvcmQ="]]> ∅)
                  "192.168.1.1:12345" in
  authenticate base64.DecodeString cfg w accept = (true, w) /\
  authenticate base64.DecodeString cfg w reject = (false, sendProxyAuthRequired w) /\
  status (sendProxyAuthRequired w) = Some 407.
Proof.
  intros cfg w accept reject.
  pose proof (authenticate_refuses_exactly base64.DecodeString cfg w accept
                "user" "pass:word" eq_refl) as (_ & _ & _ & _ & _ & _ & _ & Hacc).
  pose proof (authenticate_refuses_exactly base64.DecodeString cfg w reject
                "user" "pass:word" eq_refl) as (_ & Hrej & _ & Hst & _).
  split; [|split].
  - apply (Hacc "dXNlcjpwYXNzOndvcmQ="); by vm_compute.
  - apply Hrej. right. left. by vm_compute.
  - by apply Hst.
Defined.

End ProxyClaims.


Section HistoryFacts.
Import GoInt balancer.

Lemma foldl_delete_lookup (ks : list string) (m : gmap string HostHistory) (k : string) :
  foldl (fun m host => delete host m) m ks !! k
  = if decide (k ∈ ks) then None else m !! k.
Proof.
  revert m. induction ks as [|a ks IH]; intros m; simpl.
  - destruct (decide (k ∈ [])) as [Hin|_]; [by apply elem_of_nil in Hin|done].
  - rewrite IH.
    destruct (decide (k ∈ ks)) as [Hin|Hnin];
      destruct (decide (k ∈ a :: ks)) as [Hin'|Hnin']; try done.
    + exfalso. apply Hnin'. by right.
    + apply elem_of_cons in Hin' as [->|?]; [apply lookup_delete_eq|done].
    + apply lookup_delete_ne. intros ->. apply Hnin'. left.
Qed.

Lemma filter_After (cutoff : Z) (es : list Entry) :
  filter (fun e => After (Timestamp e) cutoff = true) es
  = filter (fun e => cutoff < Timestamp e) es.
Proof.
  apply list_filter_iff. intros e. unfold After. apply Z.ltb_lt.
Qed.

(** The negation of a duration is exact but for the smallest one. *)
Lemma neg64_opp (d : Z) : MinInt64 < d <= MaxInt64 -> neg64 d = - d.
Proof.
  intros H. unfold neg64. apply int64_id.
  unfold in_int64, MinInt64, MaxInt64 in *. lia.
Qed.

Lemma neg64_MinInt64 : neg64 MinInt64 = MinInt64.
Proof. reflexivity. Qed.

Lemma History_Cleanup_lookup (now : string -> Z) (window : Z) (h : History)
    (host : string) :
  hosts (History_Cleanup now window h).2 !! host
  = hosts h !! host ≫= keep (fun e => now host + neg64 window < Timestamp e).
Proof.
  unfold History_Cleanup. cbn [snd hosts set_hosts].
  rewrite foldl_delete_lookup.
  set (cleaned := map_imap _ (hosts h)).
  assert (Hc : cleaned !! host
               = hosts h !! host ≫= fun hh =>
                   Some (HostHistory_Cleanup (now host) window hh).2)
    by apply map_lookup_imap.
  destruct (hosts h !! host) as [hh|] eqn:Hh; simpl in *.
  - unfold keep. rewrite <- filter_After.
    destruct (filter (fun e => After (Timestamp e) (now host + neg64 window) = true)
                (entries hh))
      as [|e kept] eqn:Hf.
    + apply decide_True. apply list_elem_of_fmap.
      exists (host, {| entries := [] |}). split; [done|].
      apply list_elem_of_filter. split; [done|].
      apply elem_of_map_to_list. by rewrite Hc.
    + rewrite decide_False; [by rewrite Hc|].
      intros [[k hh'] [Hk [Hlen Hin]%list_elem_of_filter]]%list_elem_of_fmap.
      simpl in *. subst k. apply elem_of_map_to_list in Hin.
      rewrite Hc in Hin. inversion Hin; subst. done.
  - destruct (decide _); [done|]. by rewrite Hc.
Qed.

(** C6, as the code has it.  Let [window] be a duration other than the
    smallest one, [MinInt64] nanoseconds, whose negation overflows.
    [Cleanup] keeps, in every host's history and in their order, exactly
    the entries whose timestamp is strictly later than [now - window]
    (so an entry exactly at [now - window] goes with the earlier ones),
    removes exactly the hosts whose history is empty after that, and
    leaves all other entries as they were. *)
Theorem History_Cleanup_keeps_strictly_later (now : string -> Z) (window : Z)
    (h : History) (host : string) :
  MinInt64 < window <= MaxInt64 ->
  hosts (History_Cleanup now window h).2 !! host
  = hosts h !! host ≫= keep (fun e => now host - window < Timestamp e).
Proof.
  intros Hw. rewrite History_Cleanup_lookup, (neg64_opp window Hw).
  by rewrite Z.add_opp_r.
Qed.

Lemma History_Cleanup_keeps_strictly_later_witness :
  let h := History_Record 120 "example.com" "10.0.0.2"
             (History_Record 100 "example.com" "10.0.0.1" (NewHistory [])) in
  hosts (History_Cleanup (fun _ => 150) 50 h).2 !! "example.com"
  = Some {| entries := [mkEntry "10.0.0.2" 120] |}.
Proof.
  cbv zeta.
  rewrite (History_Cleanup_keeps_strictly_later (fun _ => 150) 50 _ "example.com")
    by (by vm_compute).
  by vm_compute.
Defined.

(** The smallest duration is its own negative: with it as the window,
    [Cleanup] keeps the entries later than [now - 2 ^ 63]. *)
Lemma History_Cleanup_smallest_window (now : string -> Z) (h : History) (host : string) :
  hosts (History_Cleanup now MinInt64 h).2 !! host
  = hosts h !! host ≫= keep (fun e => now host - 2 ^ 63 < Timestamp e).
Proof. by rewrite History_Cleanup_lookup. Qed.

(** C6 as stated fails: an entry whose timestamp is exactly
    [now - window] is removed, and its host with it. *)
Lemma History_Cleanup_removes_entry_at_cutoff :
  let h := History_Record 100 "example.com" "10.0.0.1" (NewHistory []) in
  hosts h !! "example.com" = Some {| entries := [mkEntry "10.0.0.1" 100] |} /\
  hosts (History_Cleanup (fun _ => 150) 50 h).2 !! "example.com" = None /\
  ~ Cleanup_as_specified (fun _ => 150) 50 h.
Proof.
  split; [by vm_compute|]. split; [by vm_compute|].
  intros H. specialize (H "example.com"). vm_compute in H. discriminate H.
Qed.

(** *** The cap holds when no host has the empty name *)

Lemma stored_perm (l l' : list (string * HostHistory)) :
  l ≡ₚ l' ->
  length (concat (entries_of <$> l)) = length (concat (entries_of <$> l')).
Proof.
  induction 1 as [|x l l' _ IH|x y l|l l' l'' _ IH1 _ IH2]; csimpl.
  - done.
  - by rewrite !length_app, IH.
  - rewrite !length_app. lia.
  - congruence.
Qed.

Lemma stored_unfold (h : History) :
  stored h = Z.of_nat (length (concat (entries_of <$> map_to_list (hosts h)))).
Proof. reflexivity. Qed.

Lemma stored_insert_fresh (k : string) (hh : HostHistory) (h : History) :
  hosts h !! k = None ->
  stored (set_hosts (<[k := hh]> (hosts h)) h)
  = Z.of_nat (length (entries hh)) + stored h.
Proof.
  intros Hk. rewrite !stored_unfold. cbn [hosts set_hosts].
  rewrite (stored_perm _ _ (map_to_list_insert (hosts h) k hh Hk)).
  csimpl. rewrite length_app. unfold entries_of at 1. simpl. lia.
Qed.

Lemma stored_delete (k : string) (hh : HostHistory) (h : History) :
  hosts h !! k = Some hh ->
  stored h = Z.of_nat (length (entries hh)) + stored (set_hosts (delete k (hosts h)) h).
Proof.
  intros Hk. rewrite !stored_unfold. cbn [hosts set_hosts].
  rewrite <- (stored_perm _ _ (map_to_list_delete (hosts h) k hh Hk)).
  csimpl. rewrite length_app. unfold entries_of at 1. simpl. lia.
Qed.

Lemma stored_insert (k : string) (hh hh' : HostHistory) (h : History) :
  hosts h !! k = Some hh ->
  stored (set_hosts (<[k := hh']> (hosts h)) h)
  = stored h - Z.of_nat (length (entries hh)) + Z.of_nat (length (entries hh')).
Proof.
  intros Hk. rewrite (stored_delete k hh h Hk).
  rewrite <- (insert_delete_eq (hosts h)).
  pose proof (stored_insert_fresh k hh' (set_hosts (delete k (hosts h)) h)) as H.
  cbn [hosts set_hosts] in H. rewrite stored_unfold in *. cbn [hosts set_hosts] in *.
  rewrite H by apply lookup_delete_eq. rewrite !stored_unfold. cbn [hosts set_hosts]. lia.
Qed.

Lemma stored_nonneg (h : History) : 0 <= stored h.
Proof. rewrite stored_unfold. lia. Qed.

Lemma stored_empty (h : History) : hosts h = ∅ -> stored h = 0.
Proof. intros H. rewrite stored_unfold, H, map_to_list_empty. done. Qed.

Lemma scan_step_host (acc : string * Z * bool) (kv : string * HostHistory) :
  (scan_step acc kv).1.1 = acc.1.1 \/ (scan_step acc kv).1.1 = kv.1.
Proof.
  destruct acc as [[oh ot] first], kv as [host hh]. unfold scan_step.
  destruct (entries hh); [by left|].
  destruct (first || Before _ _); [by right|by left].
Qed.

Lemma scan_host (kvs : list (string * HostHistory)) (acc : string * Z * bool) :
  (foldl scan_step acc kvs).1.1 = acc.1.1 \/
  exists hh, ((foldl scan_step acc kvs).1.1, hh) ∈ kvs.
Proof.
  revert acc. induction kvs as [|kv kvs IH]; intros acc; simpl; [by left|].
  destruct (IH (scan_step acc kv)) as [H|[hh H]].
  - rewrite H. destruct (scan_step_host acc kv) as [H'|H'].
    + by left.
    + right. exists kv.2. rewrite H'. destruct kv. left.
  - right. exists hh. by right.
Qed.

(** When no history is empty, the scan of a map that is not empty ends
    on one of its hosts. *)
Lemma scan_oldest_found (kvs : list (string * HostHistory)) :
  (forall kv, kv ∈ kvs -> entries kv.2 <> []) -> kvs <> [] ->
  exists hh, ((scan_oldest kvs).1.1, hh) ∈ kvs.
Proof.
  intros Hne Hkvs. destruct kvs as [|[host hh] kvs]; [done|].
  unfold scan_oldest.
  change (foldl scan_step ("", 0, true) ((host, hh) :: kvs))
    with (foldl scan_step (scan_step ("", 0, true) (host, hh)) kvs).
  assert (Hfirst : scan_step ("", 0, true) (host, hh)
                   = (host, Timestamp (default (mkEntry "" 0) (head (entries hh))), false)).
  { unfold scan_step. pose proof (Hne (host, hh) ltac:(left)) as H. simpl in H.
    by destruct (entries hh). }
  rewrite Hfirst.
  destruct (scan_host kvs (host, Timestamp (default (mkEntry "" 0) (head (entries hh))), false))
    as [H|[hh' H]].
  - exists hh. rewrite H. left.
  - exists hh'. by right.
Qed.

(** What [evictOldestLocked] does to a history without an empty host
    name and without empty host histories: nothing when there is no host,
    and otherwise it removes one entry, and the host with it when that
    was its only entry. *)
Lemma evict_effect (h : History) :
  hosts h !! "" = None ->
  (forall host hh, hosts h !! host = Some hh -> entries hh <> []) ->
  MinInt64 < totalEntries h <= MaxInt64 ->
  maxTotalEntries (History_evictOldestLocked h) = maxTotalEntries h /\
  hosts (History_evictOldestLocked h) !! "" = None /\
  (forall host hh, hosts (History_evictOldestLocked h) !! host = Some hh ->
                   entries hh <> []) /\
  ((hosts h = ∅ /\ History_evictOldestLocked h = h) \/
   (hosts h <> ∅ /\
    stored (History_evictOldestLocked h) = stored h - 1 /\
    totalEntries (History_evictOldestLocked h) = totalEntries h - 1)).
Proof.
  intros Hnamed Hne Hte. unfold History_evictOldestLocked.
  destruct (decide (hosts h = ∅)) as [Hempty|Hhosts].
  { rewrite Hempty, map_to_list_empty. simpl. rewrite Hempty.
    split; [done|]. split; [by rewrite <- Hempty|].
    split; [by rewrite <- Hempty|]. left. by destruct h; simpl in *; subst. }
  assert (Hkvs : map_to_list (hosts h) <> []) by (by rewrite map_to_list_empty_iff).
  destruct (scan_oldest_found (map_to_list (hosts h))) as [hh Hin]; [|done|].
  { intros [k x] Hk. apply elem_of_map_to_list in Hk. by apply (Hne k x). }
  destruct (scan_oldest (map_to_list (hosts h))) as [[oh ot] first]. simpl in Hin.
  apply elem_of_map_to_list in Hin.
  assert (Hoh : oh <> "") by (intros ->; congruence).
  destruct (String.eqb_spec oh "") as [|_]; [done|]. cbn [negb]. rewrite Hin.
  pose proof (Hne oh hh Hin) as Hhh.
  destruct (entries hh) as [|e rest] eqn:Hes; [done|].
  assert (Hdec : add64 (totalEntries h) (-1) = totalEntries h - 1).
  { apply add64_id. unfold in_int64, MinInt64, MaxInt64 in *. lia. }
  pose proof (stored_delete oh hh h Hin) as Hdel. rewrite Hes in Hdel. simpl length in Hdel.
  destruct rest as [|e' rest]; cbn [hosts set_hosts set_totalEntries maxTotalEntries totalEntries].
  - split; [done|]. split; [by rewrite lookup_delete_ne|]. split.
    + intros host x Hx. destruct (decide (oh = host)) as [->|Hn].
      * by rewrite lookup_delete_eq in Hx.
      * rewrite lookup_delete_ne in Hx by done. by apply (Hne host x).
    + right. split; [done|]. split; [|done].
      rewrite !stored_unfold in *. cbn [hosts set_hosts length] in *. lia.
  - split; [done|]. split; [by rewrite lookup_insert_ne|]. split.
    + intros host x Hx. destruct (decide (oh = host)) as [->|Hn].
      * rewrite lookup_insert_eq in Hx. by inversion Hx.
      * rewrite lookup_insert_ne in Hx by done. by apply (Hne host x).
    + right. split; [done|]. split; [|done].
      pose proof (stored_insert oh hh {| entries := e' :: rest |} h Hin) as Hins.
      rewrite Hes in Hins.
      rewrite !stored_unfold in *. cbn [hosts set_hosts length entries] in *. lia.
Qed.

Lemma stored_set_totalEntries (v : Z) (h : History) :
  stored (set_totalEntries v h) = stored h.
Proof. reflexivity. Qed.

(** The second half of [Record]: the entry is appended to the history of
    its host, which is created when missing. *)
Lemma append_effect (now : Z) (host ip : string) (h : History) :
  host <> "" ->
  hosts h !! "" = None ->
  (forall k hh, hosts h !! k = Some hh -> entries hh <> []) ->
  let h' := (let '(hh, h) := History_GetOrCreate host h in
             set_hosts (<[host := HostHistory_Add now ip hh]> (hosts h)) h) in
  stored h' = stored h + 1 /\
  maxTotalEntries h' = maxTotalEntries h /\
  totalEntries h' = totalEntries h /\
  hosts h' !! "" = None /\
  (forall k hh, hosts h' !! k = Some hh -> entries hh <> []).
Proof.
  intros Hhost Hnamed Hne. unfold History_GetOrCreate.
  destruct (hosts h !! host) as [hh|] eqn:Hh; cbn zeta.
  - split; [|split; [done|split; [done|split]]].
    + rewrite (stored_insert host hh _ h Hh). unfold HostHistory_Add. cbn [entries].
      rewrite length_app. simpl. lia.
    + cbn [hosts set_hosts]. by rewrite lookup_insert_ne.
    + cbn [hosts set_hosts]. intros k x Hx. destruct (decide (host = k)) as [->|Hn].
      * rewrite lookup_insert_eq in Hx. inversion Hx; subst.
        unfold HostHistory_Add. cbn [entries]. by destruct (entries hh).
      * rewrite lookup_insert_ne in Hx by done. by apply (Hne k x).
  - cbn [hosts set_hosts maxTotalEntries totalEntries]. rewrite insert_insert_eq.
    split; [|split; [done|split; [done|split]]].
    + pose proof (stored_insert_fresh host (HostHistory_Add now ip NewHostHistory) h Hh) as H.
      rewrite !stored_unfold in *. cbn [hosts set_hosts] in *. rewrite H. simpl. lia.
    + by rewrite lookup_insert_ne.
    + intros k x Hx. destruct (decide (host = k)) as [->|Hn].
      * rewrite lookup_insert_eq in Hx. by inversion Hx; subst.
      * rewrite lookup_insert_ne in Hx by done. by apply (Hne k x).
Qed.

Lemma Record_bounded (C n now : Z) (host ip : string) (h : History) :
  0 < C -> host <> "" -> n < MaxInt64 ->
  bounded C n h -> bounded C (n + 1) (History_Record now host ip h).
Proof.
  intros HC Hhost Hn [Hcap Hnamed Hne Hcnt Hops Hwithin].
  pose proof (stored_nonneg h) as Hs0.
  unfold History_Record. rewrite Hcap.
  destruct (Z.gtb_spec C 0) as [_|]; [|lia].
  set (h1 := set_totalEntries _ _).
  assert (H1 : maxTotalEntries h1 = C /\ hosts h1 !! "" = None /\
               (forall k hh, hosts h1 !! k = Some hh -> entries hh <> []) /\
               stored h1 + 1 <= totalEntries h1 /\ totalEntries h1 <= n + 1 /\
               stored h1 + 1 <= C).
  { subst h1. destruct (Z.geb_spec (totalEntries h) C) as [Hge|Hlt].
    - destruct (evict_effect h Hnamed Hne) as (Hm & Hn' & Hne' & Heff).
      { unfold MinInt64, MaxInt64 in *. lia. }
      rewrite stored_set_totalEntries.
      cbn [set_totalEntries maxTotalEntries hosts totalEntries].
      destruct Heff as [[He Heq]|(Hhne & Hst & Hte)].
      + rewrite Heq. rewrite add64_id by (unfold in_int64, MinInt64, MaxInt64 in *; lia).
        rewrite (stored_empty h He). repeat split; try done; lia.
      + rewrite Hte, Hst, Hm.
        rewrite add64_id by (unfold in_int64, MinInt64, MaxInt64 in *; lia).
        repeat split; try done; lia.
    - rewrite stored_set_totalEntries.
      cbn [set_totalEntries maxTotalEntries hosts totalEntries].
      rewrite add64_id by (unfold in_int64, MinInt64, MaxInt64 in *; lia).
      repeat split; try done; lia. }
  destruct H1 as (Hm1 & Hn1 & Hne1 & Hc1 & Ho1 & Hw1).
  destruct (append_effect now host ip h1 Hhost Hn1 Hne1) as (Hst & Hm & Hte & Hn2 & Hne2).
  constructor; [congruence|done|done|lia|lia|lia].
Qed.

Lemma count_insert_fresh (m : gmap string HostHistory) (k : string) (hh : HostHistory) :
  m !! k = None ->
  length (concat (entries_of <$> map_to_list (<[k := hh]> m)))
  = (length (entries hh) + length (concat (entries_of <$> map_to_list m)))%nat.
Proof.
  intros Hk. rewrite (stored_perm _ _ (map_to_list_insert m k hh Hk)).
  csimpl. by rewrite length_app.
Qed.

Lemma count_delete (m : gmap string HostHistory) (k : string) (hh : HostHistory) :
  m !! k = Some hh ->
  length (concat (entries_of <$> map_to_list m))
  = (length (entries hh) + length (concat (entries_of <$> map_to_list (delete k m))))%nat.
Proof.
  intros Hk. rewrite <- (stored_perm _ _ (map_to_list_delete m k hh Hk)).
  csimpl. by rewrite length_app.
Qed.

(** A map whose histories are those of [m], each shortened or dropped,
    holds no more entries than [m]. *)
Lemma count_shortened (g : string -> HostHistory -> option HostHistory)
    (m m' : gmap string HostHistory) :
  (forall k hh hh', g k hh = Some hh' -> (length (entries hh') <= length (entries hh))%nat) ->
  (forall i, m' !! i = m !! i ≫= g i) ->
  (length (concat (entries_of <$> map_to_list m'))
   <= length (concat (entries_of <$> map_to_list m)))%nat.
Proof.
  intros Hg. revert m'.
  induction m as [|k hh m Hk IH] using map_ind; intros m' Hl.
  - assert (m' = ∅) as ->; [|done].
    apply map_eq. intros i. by rewrite Hl, !lookup_empty.
  - rewrite (count_insert_fresh m k hh Hk).
    assert (Hrest : forall i, delete k m' !! i = m !! i ≫= g i).
    { intros i. destruct (decide (k = i)) as [->|Hne].
      - by rewrite lookup_delete_eq, Hk.
      - by rewrite lookup_delete_ne, Hl, lookup_insert_ne. }
    specialize (IH (delete k m') Hrest).
    pose proof (Hl k) as Hkk. rewrite lookup_insert_eq in Hkk. simpl in Hkk.
    destruct (g k hh) as [hh'|] eqn:Hgk.
    + rewrite (count_delete m' k hh' Hkk). specialize (Hg k hh hh' Hgk). lia.
    + rewrite delete_id in IH by done. lia.
Qed.

Lemma Cleanup_bounded (C n window : Z) (now : string -> Z) (h : History) :
  bounded C n h -> bounded C n (History_Cleanup now window h).2.
Proof.
  intros [Hcap Hnamed Hne Hcnt Hops Hwithin].
  assert (Hl : forall host,
             hosts (History_Cleanup now window h).2 !! host
             = hosts h !! host ≫= keep (fun e => now host + neg64 window < Timestamp e))
    by (intros host; apply History_Cleanup_lookup).
  assert (Hst : stored (History_Cleanup now window h).2 <= stored h).
  { rewrite !stored_unfold. apply inj_le.
    apply (count_shortened (fun k => keep (fun e => now k + neg64 window < Timestamp e)));
      [|done].
    intros k hh hh'. unfold keep.
    destruct (filter _ (entries hh)) eqn:E; [done|].
    intros H; inversion H; subst. cbn [entries]. rewrite <- E. apply length_filter. }
  assert (Hte : totalEntries (History_Cleanup now window h).2 = totalEntries h)
    by reflexivity.
  assert (Hmx : maxTotalEntries (History_Cleanup now window h).2 = maxTotalEntries h)
    by reflexivity.
  constructor.
  - congruence.
  - by rewrite Hl, Hnamed.
  - intros host hh. rewrite Hl. destruct (hosts h !! host) as [x|]; [|done].
    simpl. unfold keep. destruct (filter _ (entries x)) eqn:E; [done|].
    intros H; inversion H; subst. done.
  - lia.
  - lia.
  - lia.
Qed.

Lemma NewHistory_bounded (C : Z) :
  0 < C -> bounded C 0 (NewHistory [WithMaxTotalEntries C]).
Proof.
  intros HC.
  assert (Hs : stored (NewHistory [WithMaxTotalEntries C]) = 0)
    by (by apply stored_empty).
  constructor; try done; rewrite ?Hs; simpl; lia.
Qed.

Lemma bounded_weaken (C n n' : Z) (h : History) :
  n <= n' -> bounded C n h -> bounded C n' h.
Proof. intros Hn [? ? ? ? ? ?]. constructor; try done. lia. Qed.

Lemma apply_op_bounded (C n : Z) (o : history_op) (h : History) :
  0 < C -> names_host o -> n < MaxInt64 ->
  bounded C n h -> bounded C (n + 1) (apply_op h o).
Proof.
  intros HC Ho Hn Hb. destruct o as [now host ip|now window];
    cbn [apply_op names_host] in *.
  - by apply Record_bounded.
  - apply (bounded_weaken C n); [lia|]. by apply Cleanup_bounded.
Qed.

Lemma ops_bounded (C : Z) (ops : list history_op) (n : Z) (h : History) :
  0 < C -> Forall names_host ops -> n + Z.of_nat (length ops) <= MaxInt64 ->
  bounded C n h -> bounded C (n + Z.of_nat (length ops)) (foldl apply_op h ops).
Proof.
  intros HC. revert n h. induction ops as [|o ops IH]; intros n h Hall Hlen Hb; simpl.
  - by rewrite Z.add_0_r.
  - inversion Hall as [|? ? Ho Hrest]; subst. simpl length in *.
    replace (n + Z.of_nat (S (length ops))) with ((n + 1) + Z.of_nat (length ops)) by lia.
    apply IH; [done|lia|]. apply apply_op_bounded; [done|done|lia|done].
Qed.

(** Apart from the empty host name, the first part of C5 holds: from a
    new history capped at [C > 0], after any sequence of [Record] and
    [Cleanup] calls that record no host with the empty name (and is
    short enough for the entry counter not to wrap), the entries stored
    over all hosts are at most [C].  Every prefix of such a sequence is
    one, so this holds after each call. *)
Lemma History_within_cap_named_hosts (C : Z) (ops : list history_op) :
  0 < C -> Forall names_host ops -> Z.of_nat (length ops) <= MaxInt64 ->
  stored (foldl apply_op (NewHistory [WithMaxTotalEntries C]) ops) <= C.
Proof.
  intros HC Hall Hlen.
  apply (b_within C (0 + Z.of_nat (length ops))).
  apply ops_bounded; [done|done|lia|by apply NewHistory_bounded].
Qed.

(** C5 fails on the code.  A history capped at one entry that records
    the empty host name twice stores two entries: the scan of
    [evictOldestLocked] finds the empty host, whose name is also the
    value that means "no host found", so nothing is evicted.  With host
    names that are not empty the same two calls leave one entry. *)
Theorem History_Record_empty_host_exceeds_cap :
  let h0 := NewHistory [WithMaxTotalEntries 1] in
  let h1 := History_Record 1 "" "10.0.0.1" h0 in
  let h2 := History_Record 2 "" "10.0.0.1" h1 in
  maxTotalEntries h2 = 1 /\
  stored h1 = 1 /\ totalEntries h1 = 1 /\
  scan_oldest (map_to_list (hosts h1)) = ("", 1, false) /\
  History_evictOldestLocked h1 = h1 /\
  stored h2 = 2 /\ (History_Stats h2).1.2 = 2 /\
  stored (History_Record 2 "b.example" "10.0.0.1"
            (History_Record 1 "a.example" "10.0.0.1" h0)) = 1.
Proof. by vm_compute. Qed.

End HistoryFacts.

Section SelectorFacts.
Import GoInt balancer.

Lemma choose_step_cold (st : string * Z * Z) (ip : string) :
  0 <= st.1.2 -> choose_step empty_context st ip = (ip, 0, 0).
Proof.
  destruct st as [[sel minUsage] oldest]. simpl. intros Hmin.
  rewrite !lookup_empty. simpl.
  destruct (Z.ltb_spec 0 minUsage); [done|].
  destruct (Z.eqb_spec 0 minUsage) as [<-|]; [done|lia].
Qed.

Lemma choose_cold (ips : list string) (st : string * Z * Z) (ip : string) :
  0 <= st.1.2 ->
  foldl (choose_step empty_context) st (ip :: ips)
  = (default ip (last ips), 0, 0).
Proof.
  revert st ip. induction ips as [|a ips IH]; intros st ip Hmin.
  - simpl foldl. by rewrite choose_step_cold.
  - change (foldl (choose_step empty_context) st (ip :: a :: ips))
      with (foldl (choose_step empty_context) (choose_step empty_context st ip) (a :: ips)).
    rewrite choose_step_cold by done. rewrite IH by done.
    destruct ips as [|b ips]; [done|].
    change (last (a :: b :: ips)) with (last (b :: ips)).
    destruct (last (b :: ips)) eqn:E; [done|]. by apply last_None in E.
Qed.

(** On a cold start [Select] returns the last available address. *)
Lemma LRU_Select_cold_start_last (now : Z) (host : string) (l : LRU) (ip : string)
    (rest : list string) :
  History_GetFiltered now host (historyWindow l) (historySize l) (history l) = Some [] ->
  LRU_getAvailableIPs l = ip :: rest ->
  LRU_Select now host l = Some (default ip (last rest), None).
Proof.
  intros Hh Ha. unfold LRU_Select. rewrite Ha, Hh. simpl length.
  change (Z.of_nat (S (length rest)) =? 0) with false. cbn iota.
  change (foldl count_entry empty_context []) with empty_context.
  rewrite choose_cold; [done|]. simpl. unfold MaxInt, MaxInt64. lia.
Qed.

Lemma getAvailableIPs_candidate_set (l : LRU) :
  (forall lim, limiter l = Some lim -> filters_by_IsIPAvailable lim) ->
  (forall hc, healthChecker l = Some hc -> filters_by_IsHealthy hc) ->
  LRU_getAvailableIPs l = candidate_set l.
Proof.
  intros Hlim Hhc. unfold LRU_getAvailableIPs, candidate_set.
  assert (Hh : match healthChecker l with
               | Some hc =>
                   if Z.of_nat (length (GetHealthyIPs hc (ips l))) =? 0
                   then ips l else GetHealthyIPs hc (ips l)
               | None => ips l
               end
               = match healthChecker l with
                 | Some hc =>
                     match filter (fun ip => IsHealthy hc ip = true) (ips l) with
                     | [] => ips l
                     | healthy => healthy
                     end
                 | None => ips l
                 end).
  { destruct (healthChecker l) as [hc|] eqn:E; [|done].
    rewrite (Hhc hc eq_refl).
    by destruct (filter (fun ip => IsHealthy hc ip = true) (ips l)). }
  rewrite Hh. destruct (limiter l) as [lim|] eqn:E; [|done].
  by rewrite (Hlim lim eq_refl).
Qed.

Lemma collect_recent_length (cutoff maxSize : Z) (es result : list Entry) :
  Z.of_nat (length result) <= maxSize ->
  Z.of_nat (length (collect_recent cutoff maxSize es result)) <= maxSize.
Proof.
  revert result. induction es as [|e es IH]; intros result H; simpl; [done|].
  destruct (Z.ltb_spec (Z.of_nat (length result)) maxSize); [|done].
  apply IH. destruct (After (Timestamp e) cutoff); [|done].
  rewrite length_app. simpl. lia.
Qed.

Lemma makeslice_ok_spec (size cap : Z) :
  makeslice_ok size cap = true <-> 0 <= cap /\ size * cap <= maxAlloc.
Proof.
  unfold makeslice_ok. rewrite andb_true_iff, Z.leb_le, Z.leb_le. done.
Qed.

(** [GetFiltered] panics when the host has a history and [make]
    refuses the size. *)
Lemma GetFiltered_panics (now : Z) (host : string) (window maxSize : Z) (h : History) :
  History_GetFiltered now host window maxSize h = None <->
  is_Some (hosts h !! host) /\ makeslice_ok Entry_Sizeof maxSize = false.
Proof.
  unfold History_GetFiltered, HostHistory_GetFiltered.
  destruct (hosts h !! host) as [hh|].
  - destruct (makeslice_ok Entry_Sizeof maxSize).
    + split; [done|]. by intros [_ ?].
    + split; [|done]. intros _. split; [by eexists|done].
  - split; [done|]. by intros [[? ?] _].
Qed.

(** What [GetFiltered] returns is no longer than the size asked for,
    and is a slice that [make] has accepted. *)
Lemma GetFiltered_length (now : Z) (host : string) (window maxSize : Z) (h : History)
    (es : list Entry) :
  History_GetFiltered now host window maxSize h = Some es ->
  Z.of_nat (length es) <= Z.max 0 maxSize /\
  Entry_Sizeof * Z.of_nat (length es) <= maxAlloc.
Proof.
  unfold History_GetFiltered, HostHistory_GetFiltered.
  destruct (hosts h !! host) as [hh|].
  - destruct (makeslice_ok Entry_Sizeof maxSize) eqn:Hok; [|done].
    apply makeslice_ok_spec in Hok as [Hm Hok]. intros [= <-].
    pose proof (collect_recent_length (now + neg64 window) maxSize (rev (entries hh)) [])
      as Hlen.
    cbn [length] in Hlen. specialize (Hlen Hm). unfold Entry_Sizeof in *. lia.
  - intros [= <-]. cbn [length]. unfold Entry_Sizeof, maxAlloc. lia.
Qed.

(** So its length is a Go int below [math.MaxInt]. *)
Lemma GetFiltered_below_MaxInt (now : Z) (host : string) (window maxSize : Z) (h : History)
    (es : list Entry) :
  History_GetFiltered now host window maxSize h = Some es ->
  Z.of_nat (length es) < MaxInt.
Proof.
  intros [_ H]%GetFiltered_length.
  unfold Entry_Sizeof, maxAlloc, MaxInt, MaxInt64 in *. lia.
Qed.

(** The usage count of an address is at most the number of entries
    counted, as long as that number is a Go int. *)
Lemma usage_bound (es : list Entry) (ctx : selectContext) (n : Z) :
  (forall ip, 0 <= default 0 (usageCount ctx !! ip) <= n) ->
  0 <= n -> n + Z.of_nat (length es) <= MaxInt64 ->
  forall ip, 0 <= default 0 (usageCount (foldl count_entry ctx es) !! ip)
             <= n + Z.of_nat (length es).
Proof.
  revert ctx n. induction es as [|e es IH]; intros ctx n Hctx Hn Hlen ip; simpl.
  - specialize (Hctx ip). lia.
  - simpl length in Hlen.
    replace (n + Z.of_nat (S (length es))) with ((n + 1) + Z.of_nat (length es)) by lia.
    apply IH; [|lia|lia]. intros ip'. unfold count_entry; simpl.
    pose proof (Hctx (IP e)) as He. pose proof (Hctx ip') as Hip'.
    rewrite add64_id by (unfold in_int64, MinInt64, MaxInt64 in *; lia).
    destruct (decide (IP e = ip')) as [->|Hne].
    + rewrite lookup_insert_eq. simpl. lia.
    + rewrite lookup_insert_ne by done. lia.
Qed.

Lemma choose_step_selected (ctx : selectContext) (st : string * Z * Z) (ip : string) :
  (choose_step ctx st ip).1.1 = st.1.1 \/ (choose_step ctx st ip).1.1 = ip.
Proof.
  destruct st as [[sel minUsage] oldest]. unfold choose_step.
  repeat match goal with |- context [if ?b then _ else _] => destruct b end; auto.
Qed.

Lemma choose_selected (ctx : selectContext) (ips : list string) (st : string * Z * Z) :
  (foldl (choose_step ctx) st ips).1.1 = st.1.1 \/
  (foldl (choose_step ctx) st ips).1.1 ∈ ips.
Proof.
  revert st. induction ips as [|ip ips IH]; intros st; simpl; [by left|].
  destruct (IH (choose_step ctx st ip)) as [H|H].
  - rewrite H. destruct (choose_step_selected ctx st ip) as [H'|H'].
    + by left.
    + right. rewrite H'. left.
  - right. by right.
Qed.

Lemma choose_first (ctx : selectContext) (ip : string) :
  default 0 (usageCount ctx !! ip) < MaxInt ->
  choose_step ctx (EmptyString, MaxInt, 0) ip
  = (ip, default 0 (usageCount ctx !! ip), default 0 (lastUsed ctx !! ip)).
Proof.
  intros H. unfold choose_step. by destruct (Z.ltb_spec (default 0 (usageCount ctx !! ip)) MaxInt); [|lia].
Qed.

End SelectorFacts.

Section SelectorClaims.
Import GoInt balancer wiring.

(** C3 fails on the code.  With three available addresses and no
    history (the configuration of the balancer's own tests, whose
    comments expect the first address), [Select] returns the last
    address, 192.168.1.3, and not the first candidate in iteration
    order: each never-used address takes the tie from the one chosen
    before it. *)
Theorem LRU_Select_cold_start_returns_last_candidate :
  LRU_getAvailableIPs cold_start = three_ips /\
  History_GetFiltered 1000 "example.com" (historyWindow cold_start)
    (historySize cold_start) (history cold_start) = Some [] /\
  LRU_Select 1000 "example.com" cold_start = Some ("192.168.1.3", None) /\
  head (LRU_getAvailableIPs cold_start) = Some "192.168.1.1".
Proof.
  assert (Ha : LRU_getAvailableIPs cold_start = three_ips) by (by vm_compute).
  assert (Hh : History_GetFiltered 1000 "example.com" (historyWindow cold_start)
                 (historySize cold_start) (history cold_start) = Some [])
    by (by vm_compute).
  split; [done|]. split; [done|]. split.
  - by rewrite (LRU_Select_cold_start_last 1000 "example.com" cold_start _ _ Hh Ha).
  - by rewrite Ha.
Qed.

(** The limiter and the health checker of this repository filter by
    their own test of a single address. *)
Lemma limiter_filters_by_IsIPAvailable (l : limiter.Limiter) :
  filters_by_IsIPAvailable (limiter_IPLimiter l).
Proof. intros ips. reflexivity. Qed.

Lemma checker_filters_by_IsHealthy (hc : checker.HealthChecker) :
  filters_by_IsHealthy (checker_IPHealthChecker hc).
Proof. intros ips. reflexivity. Qed.

(** C8.  Let the limiter and the health checker, when present, filter
    by their own test of a single address.  The addresses [Select]
    chooses from are the candidate set of the specification, and
    [Select] returns [ErrNoAvailableIPs] exactly when that set is empty.
    When it is not empty, [Select] reads the history of the host with
    [GetFiltered]: if that call returns, [Select] returns, without an
    error, a member of the candidate set; if it panics, because [make]
    refuses the history size, so does [Select]. *)
Theorem LRU_Select_error_iff_no_candidate (now : Z) (host : string) (l : LRU) :
  (forall lim, limiter l = Some lim -> filters_by_IsIPAvailable lim) ->
  (forall hc, healthChecker l = Some hc -> filters_by_IsHealthy hc) ->
  LRU_getAvailableIPs l = candidate_set l /\
  (LRU_Select now host l = Some (EmptyString, Some ErrNoAvailableIPs)
     <-> candidate_set l = []) /\
  (candidate_set l <> [] ->
     match History_GetFiltered now host (historyWindow l) (historySize l) (history l) with
     | Some _ =>
         exists ip, LRU_Select now host l = Some (ip, None) /\ ip ∈ candidate_set l
     | None => LRU_Select now host l = None
     end).
Proof.
  intros Hlim Hhc.
  pose proof (getAvailableIPs_candidate_set l Hlim Hhc) as Hc.
  assert (Hne : candidate_set l <> [] ->
     match History_GetFiltered now host (historyWindow l) (historySize l) (history l) with
     | Some _ =>
         exists ip, LRU_Select now host l = Some (ip, None) /\ ip ∈ candidate_set l
     | None => LRU_Select now host l = None
     end).
  { intros Hnil. unfold LRU_Select. rewrite Hc.
    destruct (candidate_set l) as [|ip rest] eqn:Hcs; [done|].
    simpl length. change (Z.of_nat (S (length rest)) =? 0) with false. cbn iota.
    destruct (History_GetFiltered now host (historyWindow l) (historySize l) (history l))
      as [es|] eqn:Hes; [|done].
    pose proof (GetFiltered_below_MaxInt _ _ _ _ _ _ Hes) as Hlen.
    set (ctx := foldl count_entry empty_context es).
    assert (Hu : default 0 (usageCount ctx !! ip) < MaxInt).
    { pose proof (usage_bound es empty_context 0) as Hb. simpl in Hb.
      unfold MaxInt in *. specialize (Hb ltac:(intros; rewrite lookup_empty; simpl; lia)
                                         ltac:(lia) ltac:(lia) ip).
      fold ctx in Hb. lia. }
    change (foldl (choose_step ctx) (EmptyString, MaxInt, 0) (ip :: rest))
      with (foldl (choose_step ctx) (choose_step ctx (EmptyString, MaxInt, 0) ip) rest).
    rewrite (choose_first ctx ip Hu).
    pose proof (choose_selected ctx rest
                  (ip, default 0 (usageCount ctx !! ip), default 0 (lastUsed ctx !! ip)))
      as Hsel.
    destruct (foldl (choose_step ctx) _ rest) as [[sel m] o]. simpl in Hsel.
    exists sel. split; [done|]. destruct Hsel as [->|Hin]; [left|by right]. }
  split; [done|]. split; [|done]. split.
  - intros Hs. destruct (candidate_set l) as [|ip rest] eqn:Hcs; [done|].
    specialize (Hne ltac:(done)).
    destruct (History_GetFiltered now host (historyWindow l) (historySize l) (history l)).
    + destruct Hne as (ip' & Hs' & _). congruence.
    + congruence.
  - intros Hnil. unfold LRU_Select. by rewrite Hc, Hnil.
Qed.

Lemma LRU_Select_error_iff_no_candidate_witness :
  candidate_set cold_start = three_ips /\
  exists ip, LRU_Select 1000 "example.com" cold_start = Some (ip, None) /\
             ip ∈ candidate_set cold_start.
Proof.
  split; [by vm_compute|].
  destruct (LRU_Select_error_iff_no_candidate 1000 "example.com" cold_start)
    as (_ & _ & H).
  - intros lim H. injection H as <-. apply limiter_filters_by_IsIPAvailable.
  - intros hc H. discriminate H.
  - assert (Hg : History_GetFiltered 1000 "example.com" (historyWindow cold_start)
                   (historySize cold_start) (history cold_start) = Some [])
      by (by vm_compute).
    rewrite Hg in H. apply H. by vm_compute.
Defined.

End SelectorClaims.

(** * Further properties of the limiter *)

Section LimiterExtras.
Import GoInt limiter.

Lemma Acquire_verdict (ip : string) (l : Limiter) :
  0 < maxPerIP l ->
  (Acquire ip l).1 =
    if total l >=? maxTotal l then Some ErrTotalLimitReached
    else if IsIPAvailable l ip then None
    else Some ErrIPLimitReached.
Proof.
  intros Hmp. unfold Acquire, IsIPAvailable.
  destruct (total l >=? maxTotal l); [done|].
  cbn [perIP set_total set_perIP]. unfold getOrCreateCounter.
  destruct (perIP l !! ip) as [c|] eqn:Hc; cbn [perIP set_perIP].
  - rewrite Hc. cbn [from_option id].
    destruct (Z.geb_spec c (maxPerIP l)), (Z.ltb_spec c (maxPerIP l)); try done; lia.
  - rewrite lookup_insert_eq. cbn [from_option id].
    destruct (Z.geb_spec 0 (maxPerIP l)); [lia|done].
Qed.

(** X1.  [Acquire] and [IsIPAvailable] agree.  On a limiter whose limit
    per address is positive, a call of [Acquire] that no other goroutine
    interferes with is refused for the global limit when the global count
    has reached it (whatever the state of the address), is refused for
    the limit of the address when the global count is below its limit and
    [IsIPAvailable] reports the address unavailable, and is granted
    otherwise. *)
Theorem Acquire_granted_iff_available (ip : string) (l : Limiter) :
  0 < maxPerIP l ->
  (Acquire ip l).1 =
    if total l >=? maxTotal l then Some ErrTotalLimitReached
    else if IsIPAvailable l ip then None
    else Some ErrIPLimitReached.
Proof. apply Acquire_verdict. Qed.

Lemma Acquire_granted_iff_available_witness :
  (Acquire "10.0.0.1" (New 2 5 ["10.0.0.1"])).1 = None /\
  (Acquire "10.0.0.1" (Acquire "10.0.0.1" (Acquire "10.0.0.1" (New 2 5 ["10.0.0.1"])).2).2).1
  = Some ErrIPLimitReached.
Proof.
  split.
  - rewrite (Acquire_granted_iff_available "10.0.0.1" (New 2 5 ["10.0.0.1"]));
      [reflexivity|vm_compute; reflexivity].
  - reflexivity.
Defined.

Lemma Acquire_granted (ip : string) (l l' : Limiter) :
  Acquire ip l = (None, l') ->
  total l < maxTotal l /\ GetIPCount ip l < maxPerIP l /\
  l' = set_perIP (<[ip := add64 (GetIPCount ip l) 1]> (getOrCreateCounter ip (perIP l)))
         (set_total (add64 (total l) 1) l).
Proof.
  unfold Acquire.
  destruct (Z.geb_spec (total l) (maxTotal l)) as [|Hlt]; [done|].
  cbn [perIP set_total set_perIP total].
  assert (Hm : getOrCreateCounter ip (perIP l) !! ip = Some (GetIPCount ip l)).
  { unfold getOrCreateCounter, GetIPCount.
    destruct (perIP l !! ip) eqn:E; [done|apply lookup_insert_eq]. }
  rewrite Hm. cbn [from_option id].
  destruct (Z.geb_spec (GetIPCount ip l) (maxPerIP l)) as [|Hlt']; [done|].
  intros [= <-]. done.
Qed.

(** X2.  A granted [Acquire] followed by the [Release] of the same
    address is a round trip.  When the limits are [int32] values and the
    counters [int64] values, a granted [Acquire] (run without
    interference) raises the global count and the count of its address by
    exactly one and changes no other count, and the [Release] that
    follows brings every count back to what it was before, for each
    address as [GetIPCount] reports it; neither changes the limits. *)
Theorem Acquire_Release_round_trip (ip : string) (l l' : Limiter) :
  in_int32 (maxTotal l) -> in_int32 (maxPerIP l) ->
  in_int64 (total l) -> in_int64 (GetIPCount ip l) ->
  Acquire ip l = (None, l') ->
  (GetTotalCount l' = GetTotalCount l + 1 /\
   GetIPCount ip l' = GetIPCount ip l + 1 /\
   (forall ip', ip' <> ip -> GetIPCount ip' l' = GetIPCount ip' l)) /\
  (GetTotalCount (Release ip l') = GetTotalCount l /\
   forall ip', GetIPCount ip' (Release ip l') = GetIPCount ip' l) /\
  maxPerIP (Release ip l') = maxPerIP l /\ maxTotal (Release ip l') = maxTotal l.
Proof.
  intros Hmt Hmp Ht Hc Hacq.
  destruct (Acquire_granted ip l l' Hacq) as (Hlt & Hlt' & ->).
  set (v := add64 (GetIPCount ip l) 1).
  set (l' := set_perIP _ _).
  assert (H1 : add64 (total l) 1 = total l + 1).
  { apply add64_id. unfold in_int64, in_int32, MinInt64, MaxInt64, MinInt32, MaxInt32 in *. lia. }
  assert (H2 : v = GetIPCount ip l + 1).
  { apply add64_id. unfold in_int64, in_int32, MinInt64, MaxInt64, MinInt32, MaxInt32 in *. lia. }
  assert (Hget : forall ip', GetIPCount ip' l'
                             = if decide (ip' = ip) then v else GetIPCount ip' l).
  { intros ip'. unfold GetIPCount at 1. subst l'. cbn [perIP set_perIP set_total].
    destruct (decide (ip' = ip)) as [->|Hne].
    - by rewrite lookup_insert_eq.
    - rewrite lookup_insert_ne by done. unfold getOrCreateCounter, GetIPCount.
      destruct (perIP l !! ip) eqn:E; [done|]. by rewrite lookup_insert_ne. }
  assert (Hrel : Release ip l'
                 = set_total (add64 (add64 (total l) 1) (-1))
                     (set_perIP (<[ip := add64 v (-1)]> (perIP l')) l')).
  { unfold Release. subst l'. cbn [perIP set_perIP set_total total].
    by rewrite lookup_insert_eq. }
  split; [|split].
  - split; [exact H1|]. split.
    + rewrite Hget. by rewrite decide_True.
    + intros ip' Hne. rewrite Hget. by rewrite decide_False.
  - rewrite Hrel. split.
    + unfold GetTotalCount. cbn [total set_total]. by apply int64_succ_pred.
    + intros ip'. rewrite GetIPCount_set_total, GetIPCount_insert.
      destruct (String.eqb_spec ip ip') as [<-|Hne].
      * by apply int64_succ_pred.
      * rewrite Hget. by rewrite decide_False.
  - by rewrite Hrel.
Qed.

Lemma Acquire_Release_round_trip_witness :
  let l := (Acquire "10.0.0.2" (New 2 5 ["10.0.0.1"; "10.0.0.2"])).2 in
  let l' := (Acquire "10.0.0.1" l).2 in
  GetTotalCount l' = 2 /\ GetIPCount "10.0.0.1" l' = 1 /\
  GetTotalCount (Release "10.0.0.1" l') = 1 /\
  forall ip', GetIPCount ip' (Release "10.0.0.1" l') = GetIPCount ip' l.
Proof.
  pose proof (Acquire_Release_round_trip "10.0.0.1"
                (Acquire "10.0.0.2" (New 2 5 ["10.0.0.1"; "10.0.0.2"])).2
                (Acquire "10.0.0.1" (Acquire "10.0.0.2" (New 2 5 ["10.0.0.1"; "10.0.0.2"])).2).2)
    as H.
  destruct H as ((H1 & H2 & _) & (H3 & H4) & _).
  - vm_compute. split; discriminate.
  - vm_compute. split; discriminate.
  - vm_compute. split; discriminate.
  - vm_compute. split; discriminate.
  - reflexivity.
  - cbv zeta. split; [exact H1|]. split; [exact H2|]. split; [exact H3|exact H4].
Defined.

Lemma Stats_fold (kvs : list (string * Z)) (stats : gmap string Z) (k : string) :
  NoDup kvs.*1 ->
  foldl (fun stats kv => <[kv.1 := kv.2]> stats) stats kvs !! k
  = match list_to_map (M := gmap string Z) kvs !! k with
    | Some c => Some c
    | None => stats !! k
    end.
Proof.
  revert stats. induction kvs as [|[k' c] kvs IH]; intros stats Hnd; csimpl.
  - by rewrite lookup_empty.
  - apply NoDup_cons in Hnd as [Hk' Hnd]. rewrite IH by done.
    destruct (decide (k' = k)) as [->|Hne].
    + rewrite lookup_insert_eq.
      rewrite (not_elem_of_list_to_map_1 (M := gmap string) kvs k Hk').
      by rewrite lookup_insert_eq.
    + rewrite !(lookup_insert_ne _ k' k) by done. done.
Qed.

(** X3.  [Stats] reports, under each address that has a counter, the
    value of that counter, and under "total" the global count, unless an
    address is itself written "total": then its counter is what "total"
    reports.  The map has no other key, and it is the same in whatever
    order the loop visits the counters. *)
Theorem Stats_lookup (range_order : list (string * Z)) (l : Limiter) (k : string) :
  range_order ≡ₚ map_to_list (perIP l) ->
  Stats_ranging range_order l !! k =
    match perIP l !! k with
    | Some c => Some c
    | None => if decide (k = "total") then Some (GetTotalCount l) else None
    end.
Proof.
  intros Hperm. unfold Stats_ranging. rewrite Stats_fold.
  - rewrite <- (list_to_map_flip (perIP l) range_order) by done.
    destruct (perIP l !! k); [done|].
    destruct (decide (k = "total")) as [->|Hne].
    + by rewrite lookup_insert_eq.
    + rewrite lookup_insert_ne by done. apply lookup_empty.
  - rewrite Hperm. apply NoDup_fst_map_to_list.
Qed.

Lemma Stats_lookup_witness :
  let l := (Acquire "10.0.0.1" (New 2 5 ["10.0.0.1"; "10.0.0.2"])).2 in
  Stats l !! "total" = Some 1 /\ Stats l !! "10.0.0.1" = Some 1 /\
  Stats l !! "10.0.0.2" = Some 0 /\ Stats l !! "10.0.0.3" = None.
Proof.
  cbv zeta. unfold Stats.
  rewrite !(Stats_lookup _ (Acquire "10.0.0.1" (New 2 5 ["10.0.0.1"; "10.0.0.2"])).2)
    by reflexivity.
  by vm_compute.
Defined.

End LimiterExtras.

(** * Further properties of the health status *)

Section HealthExtras.
Import GoInt health.

Lemma failures_keep_unhealthy (F : Z) (cs : list check) (s : IPStatus) :
  Forall (is_failure F) cs -> State s = StateUnhealthy ->
  State (record_all cs s) = StateUnhealthy.
Proof.
  revert s. induction cs as [|c cs IH]; intros s Hall Hs; [done|].
  inversion Hall as [|? ? Hc Hrest]; subst. destruct c as [|now err ft]; [done|].
  apply IH; [done|]. cbn [record RecordFailure snd State]. by rewrite Hs.
Qed.

Lemma successes_keep_healthy (S : Z) (cs : list check) (s : IPStatus) :
  Forall (is_success S) cs -> State s = StateHealthy ->
  State (record_all cs s) = StateHealthy.
Proof.
  revert s. induction cs as [|c cs IH]; intros s Hall Hs; [done|].
  inversion Hall as [|? ? Hc Hrest]; subst. destruct c as [now st|]; [|done].
  apply IH; [done|]. cbn [record RecordSuccess snd State]. by rewrite Hs.
Qed.

Lemma failures_from_healthy (F k : Z) (cs : list check) (s : IPStatus) :
  F <= MaxInt64 -> 0 <= k < MaxInt64 ->
  State s = StateHealthy -> ConsecutiveFailures s = k ->
  Forall (is_failure F) cs ->
  State (record_all cs s)
  = if (1 <=? Z.of_nat (length cs)) && (F <=? k + Z.of_nat (length cs))
    then StateUnhealthy else StateHealthy.
Proof.
  intros HF. revert k s. induction cs as [|c cs IH]; intros k s Hk Hs Hcf Hall.
  - by cbn.
  - inversion Hall as [|? ? Hc Hrest]; subst.
    destruct c as [|now err ft]; [done|]. cbn in Hc. subst ft.
    change (record_all (Failed now err F :: cs) s)
      with (record_all cs (record (Failed now err F) s)).
    assert (Hadd : add64 (ConsecutiveFailures s) 1 = ConsecutiveFailures s + 1)
      by (apply add64_succ; lia).
    assert (Hn : Z.of_nat (length (Failed now err F :: cs)) = 1 + Z.of_nat (length cs))
      by (cbn [length]; lia).
    rewrite Hn.
    destruct (Z.leb_spec 1 (1 + Z.of_nat (length cs))) as [_|]; [|lia]. cbn [andb].
    destruct (Z.geb_spec (ConsecutiveFailures s + 1) F) as [Hge|Hlt].
    + rewrite (failures_keep_unhealthy F); [|done|].
      * destruct (Z.leb_spec F (ConsecutiveFailures s + (1 + Z.of_nat (length cs)))); [done|lia].
      * cbn [record RecordFailure snd State ConsecutiveFailures]. rewrite Hs, Hadd.
        destruct (Z.geb_spec (ConsecutiveFailures s + 1) F); [done|lia].
    + rewrite (IH (ConsecutiveFailures s + 1)); [|lia| | |done].
      * destruct (Z.leb_spec 1 (Z.of_nat (length cs))) as [H1|H1]; cbn [andb].
        -- by replace (ConsecutiveFailures s + 1 + Z.of_nat (length cs))
             with (ConsecutiveFailures s + (1 + Z.of_nat (length cs))) by lia.
        -- destruct (Z.leb_spec F (ConsecutiveFailures s + (1 + Z.of_nat (length cs))));
             [lia|done].
      * cbn [record RecordFailure snd State ConsecutiveFailures]. rewrite Hs, Hadd.
        destruct (Z.geb_spec (ConsecutiveFailures s + 1) F); [lia|done].
      * cbn [record RecordFailure snd State ConsecutiveFailures]. rewrite Hs, Hadd.
        destruct (Z.geb_spec (ConsecutiveFailures s + 1) F); [lia|done].
Qed.

(** X4.  How many failed checks make a healthy address unhealthy.  A
    status in state Healthy that has [k] consecutive failures on record
    is, after [n] further failed checks in a row recorded with the
    threshold [F], Unhealthy exactly when [n >= 1] and [k + n >= F]: the
    state changes at the failure that brings the count to the threshold,
    and at the very first failure when the threshold is one or less. *)
Theorem failures_until_unhealthy (F k : Z) (cs : list check) (s : IPStatus) :
  F <= MaxInt64 -> 0 <= k < MaxInt64 ->
  State s = StateHealthy -> ConsecutiveFailures s = k ->
  Forall (is_failure F) cs ->
  State (record_all cs s)
  = if (1 <=? Z.of_nat (length cs)) && (F <=? k + Z.of_nat (length cs))
    then StateUnhealthy else StateHealthy.
Proof.
  apply failures_from_healthy.
Qed.

Lemma failures_until_unhealthy_witness :
  State (record_all [Failed 1 None 3; Failed 2 None 3] (NewIPStatus "10.0.0.1")) = StateHealthy /\
  State (record_all [Failed 1 None 3; Failed 2 None 3; Failed 3 None 3] (NewIPStatus "10.0.0.1"))
  = StateUnhealthy.
Proof.
  split.
  - rewrite (failures_until_unhealthy 3 0); [reflexivity|by vm_compute|by vm_compute|reflexivity|reflexivity|].
    repeat constructor.
  - rewrite (failures_until_unhealthy 3 0); [reflexivity|by vm_compute|by vm_compute|reflexivity|reflexivity|].
    repeat constructor.
Defined.

Lemma recovering_until_healthy (S k : Z) (cs : list check) (s : IPStatus) :
  S <= MaxInt64 -> 0 <= k < MaxInt64 ->
  State s = StateRecovering -> ConsecutiveSuccesses s = k ->
  Forall (is_success S) cs ->
  State (record_all cs s)
  = if (1 <=? Z.of_nat (length cs)) && (S <=? k + Z.of_nat (length cs))
    then StateHealthy else StateRecovering.
Proof.
  intros HS. revert k s. induction cs as [|c cs IH]; intros k s Hk Hs Hcf Hall.
  - by cbn.
  - inversion Hall as [|? ? Hc Hrest]; subst.
    destruct c as [now st|]; [|done]. cbn in Hc. subst st.
    change (record_all (Succeeded now S :: cs) s)
      with (record_all cs (record (Succeeded now S) s)).
    assert (Hadd : add64 (ConsecutiveSuccesses s) 1 = ConsecutiveSuccesses s + 1)
      by (apply add64_succ; lia).
    assert (Hn : Z.of_nat (length (Succeeded now S :: cs)) = 1 + Z.of_nat (length cs))
      by (cbn [length]; lia).
    rewrite Hn.
    destruct (Z.leb_spec 1 (1 + Z.of_nat (length cs))) as [_|]; [|lia]. cbn [andb].
    destruct (Z.geb_spec (ConsecutiveSuccesses s + 1) S) as [Hge|Hlt].
    + rewrite (successes_keep_healthy S); [|done|].
      * destruct (Z.leb_spec S (ConsecutiveSuccesses s + (1 + Z.of_nat (length cs)))); [done|lia].
      * cbn [record RecordSuccess snd State ConsecutiveSuccesses]. rewrite Hs, Hadd.
        destruct (Z.geb_spec (ConsecutiveSuccesses s + 1) S); [done|lia].
    + rewrite (IH (ConsecutiveSuccesses s + 1)); [|lia| | |done].
      * destruct (Z.leb_spec 1 (Z.of_nat (length cs))) as [H1|H1]; cbn [andb].
        -- by replace (ConsecutiveSuccesses s + 1 + Z.of_nat (length cs))
             with (ConsecutiveSuccesses s + (1 + Z.of_nat (length cs))) by lia.
        -- destruct (Z.leb_spec S (ConsecutiveSuccesses s + (1 + Z.of_nat (length cs))));
             [lia|done].
      * cbn [record RecordSuccess snd State ConsecutiveSuccesses]. rewrite Hs, Hadd.
        destruct (Z.geb_spec (ConsecutiveSuccesses s + 1) S); [lia|done].
      * cbn [record RecordSuccess snd State ConsecutiveSuccesses]. rewrite Hs, Hadd.
        destruct (Z.geb_spec (ConsecutiveSuccesses s + 1) S); [lia|done].
Qed.

Lemma successes_from_unhealthy (S : Z) (cs : list check) (s : IPStatus) :
  S <= MaxInt64 ->
  State s = StateUnhealthy ->
  Forall (is_success S) cs ->
  State (record_all cs s)
  = if Z.of_nat (length cs) =? 0 then StateUnhealthy
    else if (2 <=? Z.of_nat (length cs)) && (S <=? Z.of_nat (length cs))
    then StateHealthy else StateRecovering.
Proof.
  intros HS Hs Hall. destruct cs as [|c cs]; [done|].
  inversion Hall as [|? ? Hc Hrest]; subst.
  destruct c as [now st|]; [|done]. cbn in Hc. subst st.
  change (record_all (Succeeded now S :: cs) s)
    with (record_all cs (record (Succeeded now S) s)).
  rewrite (recovering_until_healthy S 1); [|done|by vm_compute| | |done].
  - cbn [length]. destruct (Z.eqb_spec (Z.of_nat (Datatypes.S (length cs))) 0); [lia|].
    replace (Z.of_nat (Datatypes.S (length cs))) with (1 + Z.of_nat (length cs)) by lia.
    destruct (Z.leb_spec 1 (Z.of_nat (length cs))), (Z.leb_spec 2 (1 + Z.of_nat (length cs)));
      try lia; done.
  - cbn [record RecordSuccess snd State]. by rewrite Hs.
  - cbn [record RecordSuccess snd State ConsecutiveSuccesses]. by rewrite Hs.
Qed.

(** X5.  How many successful checks bring an unhealthy address back.  A
    status in state Unhealthy is, after [n] successful checks in a row
    recorded with the threshold [S], still Unhealthy when [n = 0],
    Healthy when [n >= 2] and [n >= S], and Recovering otherwise.  So a
    recovery always takes at least two successes, also when the
    threshold is one: the first success only starts the recovery, with
    the count set to one and the threshold not looked at. *)
Theorem successes_until_healthy (S : Z) (cs : list check) (s : IPStatus) :
  S <= MaxInt64 ->
  State s = StateUnhealthy ->
  Forall (is_success S) cs ->
  State (record_all cs s)
  = if Z.of_nat (length cs) =? 0 then StateUnhealthy
    else if (2 <=? Z.of_nat (length cs)) && (S <=? Z.of_nat (length cs))
    then StateHealthy else StateRecovering.
Proof.
  apply successes_from_unhealthy.
Qed.

Lemma successes_until_healthy_witness :
  let down := record_all [Failed 1 None 1] (NewIPStatus "10.0.0.1") in
  State down = StateUnhealthy /\
  State (record_all [Succeeded 2 1] down) = StateRecovering /\
  State (record_all [Succeeded 2 1; Succeeded 3 1] down) = StateHealthy.
Proof.
  cbv zeta. split; [reflexivity|]. split.
  - rewrite (successes_until_healthy 1); [reflexivity|by vm_compute|reflexivity|repeat constructor].
  - rewrite (successes_until_healthy 1); [reflexivity|by vm_compute|reflexivity|repeat constructor].
Defined.


End HealthExtras.

Section CheckerExtras.
Import GoInt health checker.

Lemma filter_all {A : Type} (P : A -> Prop) `{!forall x, Decision (P x)} (l : list A) :
  (forall x, P x) -> filter P l = l.
Proof.
  intros HP. induction l as [|a l IH]; [done|].
  rewrite filter_cons_True by done. by rewrite IH.
Qed.

Lemma foldl_insert_lookup {V : Type} (f : string -> V) (ks : list string)
    (m : gmap string V) (k : string) :
  foldl (fun m ip => <[ip := f ip]> m) m ks !! k
  = if decide (k ∈ ks) then Some (f k) else m !! k.
Proof.
  revert m. induction ks as [|a ks IH]; intros m; cbn [foldl].
  - destruct (decide (k ∈ [])) as [Hin|_]; [by apply elem_of_nil in Hin|done].
  - rewrite IH.
    destruct (decide (k ∈ ks)) as [Hin|Hnin];
      destruct (decide (k ∈ a :: ks)) as [Hin'|Hnin']; try done.
    + exfalso. apply Hnin'. by right.
    + apply elem_of_cons in Hin' as [->|?]; [apply lookup_insert_eq|done].
    + apply lookup_insert_ne. intros ->. apply Hnin'. left.
Qed.

Lemma NewHealthChecker_lookup (cfg : HealthCheckerConfig) (ip : string) :
  statuses (NewHealthChecker cfg) !! ip
  = if decide (ip ∈ IPs cfg) then Some (NewIPStatus ip) else None.
Proof.
  unfold NewHealthChecker. cbn [statuses].
  rewrite (foldl_insert_lookup NewIPStatus). by destruct (decide _).
Qed.

(** The statuses after the checks of one address, whose results are
    [rs], have been recorded. *)
Lemma checks_recorded (cfg : HealthCheckerConfig) (ip : string)
    (rs : list (Z * option string)) (hc : HealthChecker) :
  statuses (foldl (fun hc r => checkIP cfg r.1 r.2 ip hc) hc rs)
  = match statuses hc !! ip with
    | Some status => <[ip := record_all (result_check cfg <$> rs) status]> (statuses hc)
    | None => statuses hc
    end.
Proof.
  revert hc. induction rs as [|[now err] rs IH]; intros hc; cbn [foldl].
  - destruct (statuses hc !! ip) eqn:E; [|done]. cbn. by rewrite insert_id.
  - rewrite IH. unfold checkIP. cbn [fst snd].
    destruct (statuses hc !! ip) as [status|] eqn:E.
    + destruct err as [e|]; cbn [statuses]; rewrite lookup_insert_eq, insert_insert_eq;
        reflexivity.
    + by rewrite E.
Qed.

(** X6.  When [GetHealthyIPs] leaves an address out.  From a new checker,
    after the checks of one address have failed [n] times in a row, what
    [GetHealthyIPs] returns for any list is that list without the
    address when the address is configured, [n >= 1] and [n] has reached
    the failure threshold, and the whole list otherwise: no other address
    is left out because of these checks, and an address that is not
    configured is never left out. *)
Theorem GetHealthyIPs_after_failed_checks (cfg : HealthCheckerConfig) (ip : string)
    (rs : list (Z * option string)) (ips : list string) :
  FailureThreshold cfg <= MaxInt64 ->
  Forall (fun r => r.2 <> None) rs ->
  GetHealthyIPs (foldl (fun hc r => checkIP cfg r.1 r.2 ip hc) (NewHealthChecker cfg) rs) ips
  = if bool_decide (ip ∈ IPs cfg) && (1 <=? Z.of_nat (length rs))
       && (FailureThreshold cfg <=? Z.of_nat (length rs))
    then filter (fun ip' => ip' <> ip) ips
    else ips.
Proof.
  intros HF Hrs. unfold GetHealthyIPs. rewrite checks_recorded, NewHealthChecker_lookup.
  assert (Hfail : Forall (is_failure (FailureThreshold cfg)) (result_check cfg <$> rs)).
  { apply Forall_fmap. eapply Forall_impl; [exact Hrs|].
    intros [now [e|]] H; [done|]. by cbn in H. }
  assert (Hnew : forall ip', match statuses (NewHealthChecker cfg) !! ip' with
                             | None => true
                             | Some status => health.IsHealthy status
                             end = true).
  { intros ip'. rewrite NewHealthChecker_lookup. by destruct (decide _). }
  destruct (decide (ip ∈ IPs cfg)) as [Hin|Hnin].
  - rewrite (bool_decide_eq_true_2 _ Hin). cbn [andb].
    pose proof (failures_from_healthy (FailureThreshold cfg) 0 (result_check cfg <$> rs)
                  (NewIPStatus ip) HF ltac:(by vm_compute) eq_refl eq_refl Hfail) as Hst.
    rewrite length_fmap, Z.add_0_l in Hst.
    destruct ((1 <=? Z.of_nat (length rs)) && (FailureThreshold cfg <=? Z.of_nat (length rs))).
    + apply list_filter_iff. intros ip'.
      destruct (decide (ip' = ip)) as [->|Hne].
      * rewrite lookup_insert_eq. unfold health.IsHealthy. rewrite Hst. cbn. split; done.
      * rewrite lookup_insert_ne by done. split; [done|]. intros _. apply Hnew.
    + apply filter_all. intros ip'.
      destruct (decide (ip' = ip)) as [->|Hne].
      * rewrite lookup_insert_eq. unfold health.IsHealthy. by rewrite Hst.
      * rewrite lookup_insert_ne by done. apply Hnew.
  - rewrite (bool_decide_eq_false_2 _ Hnin). cbn [andb].
    apply filter_all. intros ip'. apply Hnew.
Qed.

Lemma GetHealthyIPs_after_failed_checks_witness :
  let cfg := {| IPs := ["10.0.0.1"; "10.0.0.2"]; FailureThreshold := 2; SuccessThreshold := 2 |} in
  GetHealthyIPs
    (checkIP cfg 2 (Some "timeout") "10.0.0.1"
       (checkIP cfg 1 (Some "timeout") "10.0.0.1" (NewHealthChecker cfg)))
    ["10.0.0.1"; "10.0.0.2"; "10.0.0.3"]
  = ["10.0.0.2"; "10.0.0.3"].
Proof.
  cbv zeta.
  exact (GetHealthyIPs_after_failed_checks
           {| IPs := ["10.0.0.1"; "10.0.0.2"]; FailureThreshold := 2; SuccessThreshold := 2 |}
           "10.0.0.1" [(1, Some "timeout"); (2, Some "timeout")]
           ["10.0.0.1"; "10.0.0.2"; "10.0.0.3"]
           ltac:(by vm_compute) ltac:(repeat constructor; discriminate)).
Defined.

End CheckerExtras.

(** * Further properties of the usage history *)

Section HistoryExtras.
Import GoInt balancer.

Lemma uses_cons (ip : string) (e : Entry) (es : list Entry) :
  uses ip (e :: es) = (if decide (IP e = ip) then 1 else 0) + uses ip es.
Proof.
  unfold uses. destruct (decide (IP e = ip)) as [H|H].
  - rewrite filter_cons_True by done. cbn [length]. lia.
  - rewrite filter_cons_False by done. lia.
Qed.

Lemma uses_nonneg (ip : string) (es : list Entry) : 0 <= uses ip es.
Proof. unfold uses. lia. Qed.

Lemma uses_le_length (ip : string) (es : list Entry) : uses ip es <= Z.of_nat (length es).
Proof. unfold uses. pose proof (length_filter (fun e => IP e = ip) es). lia. Qed.

Lemma collect_recent_spec (cutoff maxSize : Z) (es result : list Entry) :
  Z.of_nat (length result) <= maxSize ->
  collect_recent cutoff maxSize es result
  = result ++ take (Z.to_nat maxSize - length result)
                   (filter (fun e => cutoff < Timestamp e) es).
Proof.
  revert result. induction es as [|e es IH]; intros result Hlen; cbn [collect_recent].
  - by rewrite filter_nil, take_nil, app_nil_r.
  - destruct (Z.ltb_spec (Z.of_nat (length result)) maxSize) as [Hlt|Hge].
    + unfold After. destruct (Z.ltb_spec cutoff (Timestamp e)) as [Hin|Hout].
      * rewrite IH by (rewrite length_app; cbn [length]; lia).
        rewrite filter_cons_True by done.
        replace (Z.to_nat maxSize - length result)%nat
          with (S (Z.to_nat maxSize - length (result ++ [e]))%nat)
          by (rewrite length_app; cbn [length]; lia).
        cbn [take]. by rewrite <- app_assoc.
      * rewrite IH by done. rewrite filter_cons_False by lia. done.
    + replace (Z.to_nat maxSize - length result)%nat with 0%nat by lia.
      cbn [firstn]. by rewrite app_nil_r.
Qed.

Lemma HostHistory_GetFiltered_spec (now window maxSize : Z) (hh : HostHistory) :
  HostHistory_GetFiltered now window maxSize hh
  = if makeslice_ok Entry_Sizeof maxSize then
      Some (take (Z.to_nat maxSize)
              (filter (fun e => now + neg64 window < Timestamp e) (rev (entries hh))))
    else None.
Proof.
  unfold HostHistory_GetFiltered.
  destruct (makeslice_ok Entry_Sizeof maxSize) eqn:Hok; [|done].
  apply makeslice_ok_spec in Hok as [Hm _].
  rewrite collect_recent_spec by (cbn [length]; lia).
  cbn [length app]. by rewrite Nat.sub_0_r.
Qed.

Lemma History_GetFiltered_spec (now : Z) (host : string) (window maxSize : Z)
    (h : History) (es : list Entry) :
  History_GetFiltered now host window maxSize h = Some es ->
  es = take (Z.to_nat maxSize)
         (filter (fun e => now + neg64 window < Timestamp e) (rev (entries_for host h))).
Proof.
  unfold History_GetFiltered, entries_for.
  destruct (hosts h !! host) as [hh|].
  - rewrite HostHistory_GetFiltered_spec.
    destruct (makeslice_ok Entry_Sizeof maxSize); [|done]. by intros [= <-].
  - intros [= <-]. cbn [rev]. by rewrite filter_nil, take_nil.
Qed.

(** X7.  What [GetFiltered] returns.  For a host without a history it
    is the empty list, whatever the size asked for.  For a host with a
    history the call panics when [maxSize] is negative, and when
    [maxSize] entries of 40 bytes are more than the [2 ^ 48] bytes
    [make] allows.  Whenever the call returns, for a window other than
    the smallest duration (whose negation overflows), the result is the
    entries of the host whose timestamp is strictly later than
    [now - window], the most recent first, cut after the first [maxSize]
    of them. *)
Theorem History_GetFiltered_most_recent (now : Z) (host : string) (window maxSize : Z)
    (h : History) :
  MinInt64 < window <= MaxInt64 ->
  (hosts h !! host = None -> History_GetFiltered now host window maxSize h = Some []) /\
  (is_Some (hosts h !! host) -> maxSize < 0 \/ 2 ^ 48 < 40 * maxSize ->
     History_GetFiltered now host window maxSize h = None) /\
  (forall es, History_GetFiltered now host window maxSize h = Some es ->
     es = take (Z.to_nat maxSize)
            (filter (fun e => now - window < Timestamp e) (rev (entries_for host h)))).
Proof.
  intros Hw. split; [|split].
  - intros Hn. unfold History_GetFiltered. by rewrite Hn.
  - intros Hs Hm. apply GetFiltered_panics. split; [done|].
    destruct (makeslice_ok Entry_Sizeof maxSize) eqn:Hok; [|done].
    apply makeslice_ok_spec in Hok. unfold Entry_Sizeof, maxAlloc in Hok. lia.
  - intros es Hes. apply History_GetFiltered_spec in Hes.
    by rewrite (neg64_opp window Hw), Z.add_opp_r in Hes.
Qed.

Lemma History_GetFiltered_most_recent_witness :
  let h := History_Record 110 "example.com" "10.0.0.3"
             (History_Record 100 "example.com" "10.0.0.2"
                (History_Record 10 "example.com" "10.0.0.1" (NewHistory []))) in
  History_GetFiltered 200 "example.com" 150 1 h = Some [mkEntry "10.0.0.3" 110] /\
  History_GetFiltered 200 "example.com" 150 5 h
  = Some [mkEntry "10.0.0.3" 110; mkEntry "10.0.0.2" 100] /\
  History_GetFiltered 200 "example.com" 150 (-1) h = None /\
  History_GetFiltered 200 "example.com" 150 (MaxInt - 1) h = None.
Proof.
  cbv zeta.
  set (h := History_Record 110 "example.com" "10.0.0.3" _).
  assert (Hw : MinInt64 < 150 <= MaxInt64) by (by vm_compute).
  split; [|split; [|split]].
  - destruct (History_GetFiltered 200 "example.com" 150 1 h) as [es|] eqn:E;
      [|by vm_compute in E].
    apply (History_GetFiltered_most_recent 200 "example.com" 150 1 h Hw) in E.
    rewrite E. by vm_compute.
  - destruct (History_GetFiltered 200 "example.com" 150 5 h) as [es|] eqn:E;
      [|by vm_compute in E].
    apply (History_GetFiltered_most_recent 200 "example.com" 150 5 h Hw) in E.
    rewrite E. by vm_compute.
  - apply (History_GetFiltered_most_recent 200 "example.com" 150 (-1) h Hw);
      [vm_compute; by eexists|lia].
  - apply (History_GetFiltered_most_recent 200 "example.com" 150 (MaxInt - 1) h Hw);
      [vm_compute; by eexists|right; by vm_compute].
Defined.

Lemma Record_lookup_host (t : Z) (host ip : string) (h : History) :
  exists es, hosts (History_Record t host ip h) !! host
             = Some {| entries := es ++ [mkEntry ip t] |}.
Proof.
  unfold History_Record.
  destruct (History_GetOrCreate host _) as [hh h2].
  exists (entries hh). cbn [hosts set_hosts]. by rewrite lookup_insert_eq.
Qed.

(** X8.  A recorded use is the first one read back.  After
    [Record host ip] at time [t], let [GetFiltered] be called for the
    same host, asking for at least one entry, at a time whose window
    still covers [t]; the window is not the smallest duration, whose
    negation overflows.  When the call returns, the list it returns
    starts with the entry just recorded: the address [ip] with the
    timestamp [t].  This holds whatever the cap and the eviction did to
    the older entries. *)
Theorem Record_then_GetFiltered (t now : Z) (host ip : string) (window maxSize : Z)
    (h : History) (es : list Entry) :
  MinInt64 < window <= MaxInt64 ->
  now - window < t -> 1 <= maxSize ->
  History_GetFiltered now host window maxSize (History_Record t host ip h) = Some es ->
  exists older, es = mkEntry ip t :: older.
Proof.
  intros Hwin Hw Hm Hget. apply History_GetFiltered_spec in Hget.
  rewrite (neg64_opp window Hwin), Z.add_opp_r in Hget.
  destruct (Record_lookup_host t host ip h) as [es' Hes].
  unfold entries_for in Hget. rewrite Hes in Hget.
  cbn [entries] in Hget. rewrite rev_unit, filter_cons_True in Hget by done.
  replace (Z.to_nat maxSize) with (S (Z.to_nat maxSize - 1)) in Hget by lia.
  cbn [take] in Hget. eauto.
Qed.

Lemma Record_then_GetFiltered_witness :
  exists older,
    History_GetFiltered 200 "example.com" 150 10
      (History_Record 100 "example.com" "10.0.0.2"
         (History_Record 90 "example.com" "10.0.0.1" (NewHistory [])))
    = Some (mkEntry "10.0.0.2" 100 :: older).
Proof.
  destruct (History_GetFiltered 200 "example.com" 150 10
              (History_Record 100 "example.com" "10.0.0.2"
                 (History_Record 90 "example.com" "10.0.0.1" (NewHistory []))))
    as [es|] eqn:E; [|by vm_compute in E].
  destruct (Record_then_GetFiltered 100 200 "example.com" "10.0.0.2" 150 10
              (History_Record 90 "example.com" "10.0.0.1" (NewHistory [])) es)
    as [older ->]; [by vm_compute|lia|lia|exact E|].
  by exists older.
Defined.

(** *** What [Cleanup] reports *)


Lemma foldl_add64_sum {A : Type} (F : A -> Z) (f : A -> nat) (l : list A) (a : Z) :
  (forall x, F x = Z.of_nat (f x)) ->
  0 <= a -> a + Z.of_nat (sum_list_with f l) <= MaxInt64 ->
  foldl (fun n x => add64 n (F x)) a l = a + Z.of_nat (sum_list_with f l).
Proof.
  intros HF. revert a. induction l as [|x l IH]; intros a Ha Hsum; cbn [foldl sum_list_with] in *.
  - lia.
  - rewrite HF, add64_id by (unfold in_int64, MinInt64, MaxInt64 in *; lia).
    rewrite IH by lia. lia.
Qed.

Lemma foldl_add64_count {A : Type} (l : list A) (a : Z) :
  0 <= a -> a + Z.of_nat (length l) <= MaxInt64 ->
  foldl (fun n _ => add64 n 1) a l = a + Z.of_nat (length l).
Proof.
  revert a. induction l as [|x l IH]; intros a Ha Hsum; cbn [foldl length] in *.
  - lia.
  - rewrite add64_id by (unfold in_int64, MinInt64, MaxInt64 in *; lia).
    rewrite IH by lia. lia.
Qed.

Lemma sum_list_with_zero {A : Type} (l : list A) : sum_list_with (fun _ => 0%nat) l = 0%nat.
Proof. induction l as [|x l IH]; [done|]. cbn [sum_list_with]. by rewrite IH. Qed.

Lemma filter_none {A : Type} (P : A -> Prop) `{!forall x, Decision (P x)} (l : list A) :
  (forall x, ~ P x) -> filter P l = [].
Proof.
  intros HP. induction l as [|a l IH]; [done|].
  rewrite filter_cons_False by apply HP. done.
Qed.

(** Two maps of histories of which the second holds, for each host of
    the first, what [g] leaves of its history: the entries of the first
    are those that [g] removed and those of the second. *)
Lemma count_removed (g : string -> HostHistory -> option HostHistory)
    (f : string * HostHistory -> nat) (m m' : gmap string HostHistory) :
  (forall k hh, length (entries hh) = (f (k, hh) + len_opt (g k hh))%nat) ->
  (forall i, m' !! i = m !! i ≫= g i) ->
  length (concat (entries_of <$> map_to_list m))
  = (sum_list_with f (map_to_list m) + length (concat (entries_of <$> map_to_list m')))%nat.
Proof.
  intros Hg. revert m'.
  induction m as [|k hh m Hk IH] using map_ind; intros m' Hl.
  - assert (m' = ∅) as ->; [|by rewrite map_to_list_empty].
    apply map_eq. intros i. by rewrite Hl, !lookup_empty.
  - rewrite (count_insert_fresh m k hh Hk).
    assert (Hsum : sum_list_with f (map_to_list (<[k:=hh]> m))
                   = sum_list_with f ((k, hh) :: map_to_list m))
      by (by rewrite map_to_list_insert).
    rewrite Hsum.
    cbn [sum_list_with].
    assert (Hrest : forall i, delete k m' !! i = m !! i ≫= g i).
    { intros i. destruct (decide (k = i)) as [->|Hne].
      - by rewrite lookup_delete_eq, Hk.
      - by rewrite lookup_delete_ne, Hl, lookup_insert_ne. }
    specialize (IH (delete k m') Hrest).
    pose proof (Hl k) as Hkk. rewrite lookup_insert_eq in Hkk. cbn in Hkk.
    pose proof (Hg k hh) as Hlen.
    destruct (g k hh) as [hh'|] eqn:Hgk; cbn [len_opt] in Hlen.
    + rewrite (count_delete m' k hh' Hkk). lia.
    + rewrite delete_id in IH by done. lia.
Qed.

Lemma size_removed (g : string -> HostHistory -> option HostHistory)
    (P : string * HostHistory -> Prop) `{!forall kv, Decision (P kv)}
    (m m' : gmap string HostHistory) :
  (forall k hh, g k hh = None <-> P (k, hh)) ->
  (forall i, m' !! i = m !! i ≫= g i) ->
  size m = (length (filter P (map_to_list m)) + size m')%nat.
Proof.
  intros Hg. revert m'.
  induction m as [|k hh m Hk IH] using map_ind; intros m' Hl.
  - assert (m' = ∅) as ->; [|by rewrite map_to_list_empty, !map_size_empty].
    apply map_eq. intros i. by rewrite Hl, !lookup_empty.
  - rewrite (map_size_insert_None _ _ _ Hk).
    assert (Hfil : length (filter P (map_to_list (<[k:=hh]> m)))
                   = length (filter P ((k, hh) :: map_to_list m)))
      by (by rewrite map_to_list_insert).
    rewrite Hfil.
    assert (Hrest : forall i, delete k m' !! i = m !! i ≫= g i).
    { intros i. destruct (decide (k = i)) as [->|Hne].
      - by rewrite lookup_delete_eq, Hk.
      - by rewrite lookup_delete_ne, Hl, lookup_insert_ne. }
    specialize (IH (delete k m') Hrest).
    pose proof (Hl k) as Hkk. rewrite lookup_insert_eq in Hkk. cbn in Hkk.
    destruct (g k hh) as [hh'|] eqn:Hgk.
    + rewrite filter_cons_False by (intros HP; apply Hg in HP; congruence).
      rewrite (map_size_delete_Some k m') in IH by eauto.
      assert (size m' <> 0%nat).
      { intros H0. apply map_size_empty_iff in H0. subst m'. by rewrite lookup_empty in Hkk. }
      lia.
    + rewrite filter_cons_True by (by apply Hg).
      rewrite delete_id in IH by done. cbn [length]. lia.
Qed.

(** The hosts after [Cleanup]: those of the cleaned map whose history
    is not empty. *)
Lemma Cleanup_drops_empty (cleaned : gmap string HostHistory) (i : string) :
  foldl (fun m host => delete host m) cleaned
    (filter (fun kv => HostHistory_Len kv.2 = 0) (map_to_list cleaned)).*1 !! i
  = cleaned !! i ≫= fun hh => if decide (HostHistory_Len hh = 0) then None else Some hh.
Proof.
  rewrite foldl_delete_lookup.
  destruct (cleaned !! i) as [hh|] eqn:Hi; cbn.
  - destruct (decide (HostHistory_Len hh = 0)) as [Hlen|Hlen].
    + apply decide_True. apply list_elem_of_fmap. exists (i, hh). split; [done|].
      apply list_elem_of_filter. split; [done|]. by apply elem_of_map_to_list.
    + apply decide_False.
      intros [[k hh'] [Hk [Hlen' Hin]%list_elem_of_filter]]%list_elem_of_fmap.
      cbn in *. subst k. apply elem_of_map_to_list in Hin. congruence.
  - apply decide_False.
    intros [[k hh'] [Hk [Hlen' Hin]%list_elem_of_filter]]%list_elem_of_fmap.
    cbn in *. subst k. apply elem_of_map_to_list in Hin. congruence.
Qed.

(** [Cleanup] returns the number of entries it removed. *)
Lemma Cleanup_removed_entries (now : string -> Z) (window : Z) (h : History) :
  stored h <= MaxInt64 ->
  (History_Cleanup now window h).1.1 = stored h - stored (History_Cleanup now window h).2.
Proof.
  intros Hst. unfold History_Cleanup. cbn [fst snd].
  set (cleaned := map_imap _ (hosts h)).
  set (f := fun kv : string * HostHistory =>
              (length (entries kv.2)
               - length (filter (fun e => After (Timestamp e) (now kv.1 + neg64 window) = true)
                           (entries kv.2)))%nat).
  assert (HA : length (concat (entries_of <$> map_to_list (hosts h)))
               = (sum_list_with f (map_to_list (hosts h))
                  + length (concat (entries_of <$> map_to_list cleaned)))%nat).
  { apply (count_removed (fun k hh => Some (HostHistory_Cleanup (now k) window hh).2)).
    - intros k hh. subst f. cbn.
      pose proof (length_filter (fun e => After (Timestamp e) (now k + neg64 window) = true)
                    (entries hh)). lia.
    - intros i. subst cleaned. rewrite map_lookup_imap. by destruct (hosts h !! i). }
  assert (HB : length (concat (entries_of <$> map_to_list cleaned))
               = length (concat (entries_of <$> map_to_list
                   (foldl (fun m host => delete host m) cleaned
                      (filter (fun kv => HostHistory_Len kv.2 = 0) (map_to_list cleaned)).*1)))).
  { rewrite (count_removed
               (fun _ hh => if decide (HostHistory_Len hh = 0) then None else Some hh)
               (fun _ => 0%nat) cleaned
               (foldl (fun m host => delete host m) cleaned
                  (filter (fun kv => HostHistory_Len kv.2 = 0) (map_to_list cleaned)).*1)).
    - by rewrite sum_list_with_zero.
    - intros k hh. destruct (decide (HostHistory_Len hh = 0)) as [H0|]; cbn; [|done].
      unfold HostHistory_Len in H0. lia.
    - intros i. apply Cleanup_drops_empty. }
  rewrite !stored_unfold in *. cbn [hosts set_hosts].
  rewrite (foldl_add64_sum _ f).
  - rewrite <- HB. lia.
  - intros [k hh]. subst f. cbn.
    pose proof (length_filter (fun e => After (Timestamp e) (now k + neg64 window) = true)
                  (entries hh)). lia.
  - done.
  - lia.
Qed.

Lemma Cleanup_removed_hosts (now : string -> Z) (window : Z) (h : History) :
  Z.of_nat (size (hosts h)) <= MaxInt64 ->
  (History_Cleanup now window h).1.2
  = Z.of_nat (size (hosts h)) - Z.of_nat (size (hosts (History_Cleanup now window h).2)).
Proof.
  intros Hsz. unfold History_Cleanup. cbn [fst snd hosts set_hosts].
  set (cleaned := map_imap _ (hosts h)).
  assert (HA : size (hosts h) = size cleaned).
  { rewrite (size_removed (fun k hh => Some (HostHistory_Cleanup (now k) window hh).2)
               (fun _ => False) (hosts h) cleaned).
    - by rewrite filter_none by (intros ? []).
    - intros k hh. split; [done|by intros []].
    - intros i. subst cleaned. rewrite map_lookup_imap. by destruct (hosts h !! i). }
  assert (HB : size cleaned
               = (length (filter (fun kv => (HostHistory_Len kv.2 = 0)%Z) (map_to_list cleaned))
                  + size (foldl (fun m host => delete host m) cleaned
                            (filter (fun kv => (HostHistory_Len kv.2 = 0)%Z)
                               (map_to_list cleaned)).*1))%nat).
  { apply (size_removed
             (fun _ hh => if decide (HostHistory_Len hh = 0) then None else Some hh)).
    - intros k hh. cbn. by destruct (decide (HostHistory_Len hh = 0)).
    - intros i. apply Cleanup_drops_empty. }
  rewrite foldl_add64_count; rewrite ?length_fmap; lia.
Qed.

(** X9.  [Cleanup] reports what it removed.  As long as the number of
    entries stored and the number of hosts are Go ints, the first result
    of [Cleanup] is the number of entries stored before minus the number
    stored after, and the second is the number of hosts before minus the
    number of hosts after. *)
Theorem History_Cleanup_reports_removed (now : string -> Z) (window : Z) (h : History) :
  stored h <= MaxInt64 -> Z.of_nat (size (hosts h)) <= MaxInt64 ->
  let '(removedEntries, removedHosts, h') := History_Cleanup now window h in
  removedEntries = stored h - stored h' /\
  removedHosts = Z.of_nat (size (hosts h)) - Z.of_nat (size (hosts h')).
Proof.
  intros Hst Hsz.
  pose proof (Cleanup_removed_entries now window h Hst) as He.
  pose proof (Cleanup_removed_hosts now window h Hsz) as Hh.
  by destruct (History_Cleanup now window h) as [[re rh] h'].
Qed.

Lemma History_Cleanup_reports_removed_witness :
  (History_Cleanup (fun _ => 200) 85
     (History_Record 120 "b.example" "10.0.0.1"
        (History_Record 110 "a.example" "10.0.0.2"
           (History_Record 100 "a.example" "10.0.0.1" (NewHistory []))))).1 = (2, 1) /\
  let h := History_Record 120 "b.example" "10.0.0.1"
             (History_Record 110 "a.example" "10.0.0.2"
                (History_Record 100 "a.example" "10.0.0.1" (NewHistory []))) in
  let '(removedEntries, removedHosts, h') := History_Cleanup (fun _ => 200) 85 h in
  removedEntries = stored h - stored h' /\
  removedHosts = Z.of_nat (size (hosts h)) - Z.of_nat (size (hosts h')).
Proof.
  split; [by vm_compute|].
  apply (History_Cleanup_reports_removed (fun _ => 200) 85); by vm_compute.
Defined.


(** *** The cap after [Cleanup] *)

Lemma Record_drifted (C n r now : Z) (host ip : string) (h : History) :
  0 < C -> host <> "" -> n < MaxInt64 ->
  drifted C n r h -> drifted C (n + 1) r (History_Record now host ip h).
Proof.
  intros HC Hhost Hn [Hcap Hnamed Hne Hcnt Hr Hops Hroom].
  pose proof (stored_nonneg h) as Hs0.
  unfold History_Record. rewrite Hcap.
  destruct (Z.gtb_spec C 0) as [_|]; [|lia].
  set (h1 := set_totalEntries _ _).
  assert (H1 : maxTotalEntries h1 = C /\ hosts h1 !! "" = None /\
               (forall k hh, hosts h1 !! k = Some hh -> entries hh <> []) /\
               totalEntries h1 = stored h1 + 1 + r /\ totalEntries h1 <= n + 1 /\
               (stored h1 + 1 <= 1 \/ totalEntries h1 <= C)).
  { subst h1. destruct (Z.geb_spec (totalEntries h) C) as [Hge|Hlt].
    - destruct (evict_effect h Hnamed Hne) as (Hm & Hn' & Hne' & Heff).
      { unfold MinInt64, MaxInt64 in *. lia. }
      rewrite stored_set_totalEntries.
      cbn [set_totalEntries maxTotalEntries hosts totalEntries].
      destruct Heff as [[He Heq]|(Hhne & Hst & Hte)].
      + rewrite Heq. rewrite add64_id by (unfold in_int64, MinInt64, MaxInt64 in *; lia).
        rewrite (stored_empty h He) in *. repeat split; try done; lia.
      + rewrite Hte, Hst, Hm.
        rewrite add64_id by (unfold in_int64, MinInt64, MaxInt64 in *; lia).
        repeat split; try done; lia.
    - rewrite stored_set_totalEntries.
      cbn [set_totalEntries maxTotalEntries hosts totalEntries].
      rewrite add64_id by (unfold in_int64, MinInt64, MaxInt64 in *; lia).
      repeat split; try done; lia. }
  destruct H1 as (Hm1 & Hn1 & Hne1 & Hc1 & Ho1 & Hw1).
  destruct (append_effect now host ip h1 Hhost Hn1 Hne1) as (Hst & Hm & Hte & Hn2 & Hne2).
  constructor; [congruence|done|done|lia|lia|lia|lia].
Qed.

Lemma Cleanup_drifted (C n r window : Z) (now : string -> Z) (h : History) :
  n <= MaxInt64 ->
  drifted C n r h ->
  drifted C n (r + (History_Cleanup now window h).1.1) (History_Cleanup now window h).2.
Proof.
  intros Hn [Hcap Hnamed Hne Hcnt Hr Hops Hroom].
  pose proof (stored_nonneg h) as Hs0.
  assert (Hl : forall host,
             hosts (History_Cleanup now window h).2 !! host
             = hosts h !! host ≫= keep (fun e => now host + neg64 window < Timestamp e))
    by (intros host; apply History_Cleanup_lookup).
  assert (Hst : stored (History_Cleanup now window h).2 <= stored h).
  { rewrite !stored_unfold. apply inj_le.
    apply (count_shortened (fun k => keep (fun e => now k + neg64 window < Timestamp e)));
      [|done].
    intros k hh hh'. unfold keep.
    destruct (filter _ (entries hh)) eqn:E; [done|].
    intros H; inversion H; subst. cbn [entries]. rewrite <- E. apply length_filter. }
  rewrite (Cleanup_removed_entries now window h) by lia.
  assert (Hte : totalEntries (History_Cleanup now window h).2 = totalEntries h)
    by reflexivity.
  assert (Hmx : maxTotalEntries (History_Cleanup now window h).2 = maxTotalEntries h)
    by reflexivity.
  constructor.
  - congruence.
  - by rewrite Hl, Hnamed.
  - intros host hh. rewrite Hl. destruct (hosts h !! host) as [x|]; [|done].
    cbn. unfold keep. destruct (filter _ (entries x)) eqn:E; [done|].
    intros H; inversion H; subst. done.
  - lia.
  - lia.
  - lia.
  - lia.
Qed.

Lemma apply_op_counting_drifted (C n : Z) (o : history_op) (st : History * Z) :
  0 < C -> names_host o -> n < MaxInt64 ->
  drifted C n st.2 st.1 ->
  drifted C (n + 1) (apply_op_counting st o).2 (apply_op_counting st o).1.
Proof.
  intros HC Ho Hn Hd. destruct st as [h r].
  destruct o as [now host ip|now window]; cbn [apply_op_counting names_host fst snd] in *.
  - by apply Record_drifted.
  - pose proof (Cleanup_drifted C n r window now h ltac:(lia) Hd) as Hc.
    destruct (History_Cleanup now window h) as [[re rh] h']. cbn [fst snd] in *.
    destruct Hc as [? ? ? ? ? ? ?]. constructor; try done. lia.
Qed.

Lemma ops_drifted (C : Z) (ops : list history_op) (n : Z) (st : History * Z) :
  0 < C -> Forall names_host ops -> n + Z.of_nat (length ops) <= MaxInt64 ->
  drifted C n st.2 st.1 ->
  drifted C (n + Z.of_nat (length ops))
    (foldl apply_op_counting st ops).2 (foldl apply_op_counting st ops).1.
Proof.
  intros HC. revert n st. induction ops as [|o ops IH]; intros n st Hall Hlen Hd; cbn [foldl].
  - by rewrite Z.add_0_r.
  - inversion Hall as [|? ? Ho Hrest]; subst. cbn [length] in *.
    replace (n + Z.of_nat (S (length ops))) with ((n + 1) + Z.of_nat (length ops)) by lia.
    apply IH; [done|lia|]. apply apply_op_counting_drifted; [done|done|lia|done].
Qed.

(** X10.  The entries that [Cleanup] removes still count against the
    cap.  Take a new history capped at [C > 0] and any sequence of
    [Record] and [Cleanup] calls that record no host with the empty name
    (short enough for the counter not to wrap), and let [removed] be the
    sum of the [removedEntries] that the [Cleanup] calls returned.  Then
    the counter [totalEntries] that [Record] compares with the cap is
    the number of entries stored plus [removed], because [Cleanup] never
    lowers it; and the history holds at most [C - removed] entries, or
    one entry when [C - removed] is less than one. *)
Theorem History_cap_shrinks_with_Cleanup (C : Z) (ops : list history_op) :
  0 < C -> Forall names_host ops -> Z.of_nat (length ops) <= MaxInt64 ->
  let '(h, removed) := foldl apply_op_counting (NewHistory [WithMaxTotalEntries C], 0) ops in
  0 <= removed /\
  totalEntries h = stored h + removed /\
  stored h <= Z.max 1 (C - removed).
Proof.
  intros HC Hall Hlen.
  pose proof (ops_drifted C ops 0 (NewHistory [WithMaxTotalEntries C], 0) HC Hall
                ltac:(lia)) as Hd.
  destruct (foldl apply_op_counting _ ops) as [h removed]. cbn [fst snd] in Hd.
  destruct Hd as [_ _ _ Hcnt Hr _ Hroom].
  { assert (Hs : stored (NewHistory [WithMaxTotalEntries C]) = 0)
      by (by apply stored_empty).
    constructor; try done; rewrite ?Hs; cbn; lia. }
  split; [done|]. split; [done|]. lia.
Qed.

Lemma History_cap_shrinks_with_Cleanup_witness :
  let ops := [OpRecord 1 "a.example" "10.0.0.1"; OpRecord 2 "a.example" "10.0.0.2";
              OpRecord 3 "b.example" "10.0.0.1"; OpCleanup (fun _ => 100) 10;
              OpRecord 101 "a.example" "10.0.0.1"; OpRecord 102 "a.example" "10.0.0.2";
              OpRecord 103 "b.example" "10.0.0.1"] in
  (let '(h, removed) := foldl apply_op_counting (NewHistory [WithMaxTotalEntries 3], 0) ops in
   0 <= removed /\ totalEntries h = stored h + removed /\ stored h <= Z.max 1 (3 - removed)) /\
  (let '(h, removed) := foldl apply_op_counting (NewHistory [WithMaxTotalEntries 3], 0) ops in
   removed = 3 /\ stored h = 1).
Proof.
  cbv zeta. split.
  - apply (History_cap_shrinks_with_Cleanup 3); [lia| |by vm_compute].
    repeat constructor; discriminate.
  - by vm_compute.
Defined.


(** *** Which entry is evicted *)

Lemma scan_step_scanned (seen : list (string * HostHistory)) (acc : string * Z * bool)
    (kv : string * HostHistory) :
  scanned seen acc -> scanned (seen ++ [kv]) (scan_step acc kv).
Proof.
  destruct acc as [[oh ot] first], kv as [host hh]. unfold scan_step.
  intros [[Hacc Hnone]|[Hfirst (hh0 & e0 & rest0 & Hin & Hes & Hot & Hmin)]].
  - injection Hacc as -> -> ->.
    destruct (entries hh) as [|e rest] eqn:Hes.
    + left. split; [done|]. intros kv [Hin| ->%list_elem_of_singleton]%elem_of_app;
        [by apply Hnone|done].
    + right. cbn [orb fst snd]. split; [done|].
      exists hh, e, rest. split; [apply elem_of_app; right; left|].
      split; [done|]. split; [done|].
      intros kv e' [Hin| ->%list_elem_of_singleton]%elem_of_app Hhead.
      * by rewrite (Hnone kv Hin) in Hhead.
      * cbn [snd] in Hhead. rewrite Hes in Hhead. injection Hhead as <-. lia.
  - cbn [fst snd] in *. subst first. cbn [orb].
    destruct (entries hh) as [|e rest] eqn:Hes'.
    + right. cbn [fst snd]. split; [done|].
      exists hh0, e0, rest0. split; [apply elem_of_app; by left|].
      split; [done|]. split; [done|].
      intros kv e' [Hin'| ->%list_elem_of_singleton]%elem_of_app Hhead.
      * by apply (Hmin kv).
      * cbn [snd] in Hhead. by rewrite Hes' in Hhead.
    + unfold Before. destruct (Z.ltb_spec (Timestamp e) ot) as [Hlt|Hge].
      * right. cbn [fst snd]. split; [done|].
        exists hh, e, rest. split; [apply elem_of_app; right; left|].
        split; [done|]. split; [done|].
        intros kv e' [Hin'| ->%list_elem_of_singleton]%elem_of_app Hhead.
        -- pose proof (Hmin kv e' Hin' Hhead). lia.
        -- cbn [snd] in Hhead. rewrite Hes' in Hhead. injection Hhead as <-. lia.
      * right. cbn [fst snd]. split; [done|].
        exists hh0, e0, rest0. split; [apply elem_of_app; by left|].
        split; [done|]. split; [done|].
        intros kv e' [Hin'| ->%list_elem_of_singleton]%elem_of_app Hhead.
        -- by apply (Hmin kv).
        -- cbn [snd] in Hhead. rewrite Hes' in Hhead. injection Hhead as <-. lia.
Qed.

Lemma scan_scanned (kvs seen : list (string * HostHistory)) (acc : string * Z * bool) :
  scanned seen acc -> scanned (seen ++ kvs) (foldl scan_step acc kvs).
Proof.
  revert seen acc. induction kvs as [|kv kvs IH]; intros seen acc Hs; cbn [foldl].
  - by rewrite app_nil_r.
  - replace (seen ++ kv :: kvs) with ((seen ++ [kv]) ++ kvs) by (by rewrite <- app_assoc).
    apply IH. by apply scan_step_scanned.
Qed.

Lemma scan_oldest_scanned (kvs : list (string * HostHistory)) :
  scanned kvs (scan_oldest kvs).
Proof.
  unfold scan_oldest. apply (scan_scanned kvs []).
  left. split; [done|]. intros kv Hin. by apply elem_of_nil in Hin.
Qed.

(** X11.  [evictOldestLocked] evicts the oldest first entry.  In a
    history that has a host, no host with the empty name and no host
    without entries, the call removes the first entry of one host, and
    no host has a first entry with an earlier timestamp; the host goes
    with the entry when it was its only one, the counter [totalEntries]
    goes down by one, and no other host changes. *)
Theorem evictOldestLocked_removes_oldest (h : History) :
  hosts h !! "" = None ->
  (forall host hh, hosts h !! host = Some hh -> entries hh <> []) ->
  hosts h <> ∅ ->
  MinInt64 < totalEntries h <= MaxInt64 ->
  exists host e rest,
    hosts h !! host = Some {| entries := e :: rest |} /\
    (forall host' hh' e', hosts h !! host' = Some hh' -> head (entries hh') = Some e' ->
                          Timestamp e <= Timestamp e') /\
    hosts (History_evictOldestLocked h)
    = (match rest with
       | [] => delete host (hosts h)
       | _ :: _ => <[host := {| entries := rest |}]> (hosts h)
       end) /\
    totalEntries (History_evictOldestLocked h) = totalEntries h - 1 /\
    maxTotalEntries (History_evictOldestLocked h) = maxTotalEntries h.
Proof.
  intros Hnamed Hne Hhosts Hte.
  pose proof (scan_oldest_scanned (map_to_list (hosts h))) as Hscan.
  unfold History_evictOldestLocked.
  destruct (scan_oldest (map_to_list (hosts h))) as [[oh ot] first].
  destruct Hscan as [[_ Hnone]|[_ (hh & e & rest & Hin & Hes & Hot & Hmin)]].
  - exfalso. apply Hhosts. apply map_to_list_empty_iff.
    destruct (map_to_list (hosts h)) as [|[k x] kvs] eqn:E; [done|].
    assert (Hk : hosts h !! k = Some x) by (apply elem_of_map_to_list; rewrite E; left).
    pose proof (Hnone (k, x) ltac:(left)) as Hx. by apply (Hne k x Hk) in Hx.
  - cbn [fst snd] in *. apply elem_of_map_to_list in Hin.
    assert (Hoh : oh <> "") by (intros ->; congruence).
    destruct (String.eqb_spec oh "") as [|_]; [done|]. cbn [negb]. rewrite Hin, Hes.
    exists oh, e, rest. split; [by destruct hh; cbn in *; subst|].
    split.
    { intros host' hh' e' Hh' Hhead. rewrite <- Hot.
      apply (Hmin (host', hh') e'); [by apply elem_of_map_to_list|done]. }
    assert (Hdec : add64 (totalEntries h) (-1) = totalEntries h - 1).
    { apply add64_id. unfold in_int64, MinInt64, MaxInt64 in *. lia. }
    destruct rest as [|e2 rest];
      cbn [hosts set_hosts set_totalEntries totalEntries maxTotalEntries]; by rewrite Hdec.
Qed.

Lemma evictOldestLocked_removes_oldest_witness :
  let h := History_Record 30 "b.example" "10.0.0.1"
             (History_Record 20 "a.example" "10.0.0.2"
                (History_Record 10 "b.example" "10.0.0.3"
                   (NewHistory [WithMaxTotalEntries 3]))) in
  hosts (History_evictOldestLocked h) !! "b.example"
  = Some {| entries := [mkEntry "10.0.0.1" 30] |} /\
  exists host e rest,
    hosts h !! host = Some {| entries := e :: rest |} /\
    (forall host' hh' e', hosts h !! host' = Some hh' -> head (entries hh') = Some e' ->
                          Timestamp e <= Timestamp e').
Proof.
  cbv zeta. split; [by vm_compute|].
  destruct (evictOldestLocked_removes_oldest
              (History_Record 30 "b.example" "10.0.0.1"
                 (History_Record 20 "a.example" "10.0.0.2"
                    (History_Record 10 "b.example" "10.0.0.3"
                       (NewHistory [WithMaxTotalEntries 3])))))
    as (host & e & rest & Hh & Hmin & _).
  - by vm_compute.
  - intros host hh Hh. apply elem_of_map_to_list in Hh. vm_compute in Hh.
    repeat (apply elem_of_cons in Hh as [Hh|Hh]; [by injection Hh as -> ->|]).
    by apply elem_of_nil in Hh.
  - by vm_compute.
  - by vm_compute.
  - exists host, e, rest. split; [exact Hh|exact Hmin].
Defined.

(** *** The statistics of the history *)

Lemma perIP_fold (es : list Entry) (m : gmap string Z) (n : Z) (ip : string) :
  (forall ip, 0 <= default 0 (m !! ip) <= n) ->
  0 <= n -> n + Z.of_nat (length es) <= MaxInt64 ->
  foldl (fun m e => <[IP e := add64 (default 0 (m !! IP e)) 1]> m) m es !! ip
  = if decide (uses ip es = 0) then m !! ip
    else Some (default 0 (m !! ip) + uses ip es).
Proof.
  revert m n. induction es as [|e es IH]; intros m n Hm Hn Hlen; cbn [foldl].
  - by rewrite decide_True by done.
  - cbn [length] in Hlen. pose proof (Hm (IP e)) as He.
    rewrite (IH _ (n + 1)); [| |lia|lia].
    + rewrite uses_cons. pose proof (uses_nonneg ip es) as Hu.
      rewrite add64_id by (unfold in_int64, MinInt64, MaxInt64 in *; lia).
      destruct (decide (IP e = ip)) as [<-|Hne].
      * rewrite lookup_insert_eq. cbn [from_option id].
        rewrite (decide_False (P := 1 + uses (IP e) es = 0)) by lia.
        destruct (decide (uses (IP e) es = 0)) as [->|_]; f_equal; lia.
      * rewrite lookup_insert_ne by done. rewrite Z.add_0_l. done.
    + intros ip'. pose proof (Hm ip') as Hip'.
      rewrite add64_id by (unfold in_int64, MinInt64, MaxInt64 in *; lia).
      destruct (decide (IP e = ip')) as [<-|Hne].
      * rewrite lookup_insert_eq. cbn. lia.
      * rewrite lookup_insert_ne by done. lia.
Qed.

(** X12.  [Stats] counts what is stored.  As long as the entries
    stored number at most [math.MaxInt], the three results of
    [History.Stats] ([totalHosts], [totalEntries] and [entriesPerIP]) are
    the number of hosts that have a history, the
    number of entries stored over all hosts (a recount, which is not the
    counter [totalEntries] that [Record] compares with the cap), and a
    map that has a key for exactly the addresses that some entry names,
    holding under each the number of entries that name it. *)
Theorem History_Stats_recounts (h : History) (ip : string) :
  stored h <= MaxInt64 ->
  let '(nHosts, nEntries, perIP) := History_Stats h in
  nHosts = Z.of_nat (size (hosts h)) /\
  nEntries = stored h /\
  perIP !! ip
  = if decide (uses ip (concat (entries_of <$> map_to_list (hosts h))) = 0) then None
    else Some (uses ip (concat (entries_of <$> map_to_list (hosts h)))).
Proof.
  intros Hst. unfold History_Stats. rewrite stored_unfold in *.
  split; [done|]. split.
  - rewrite foldl_add64_count by lia. lia.
  - rewrite (perIP_fold _ ∅ 0); [| |lia|lia].
    + rewrite lookup_empty. cbn [from_option]. by rewrite Z.add_0_l.
    + intros ip'. rewrite lookup_empty. cbn. lia.
Qed.

Lemma History_Stats_recounts_witness :
  let h := (History_Cleanup (fun _ => 100) 85
              (History_Record 30 "b.example" "10.0.0.1"
                 (History_Record 20 "a.example" "10.0.0.2"
                    (History_Record 10 "b.example" "10.0.0.1"
                       (NewHistory [WithMaxTotalEntries 3]))))).2 in
  totalEntries h = 3 /\
  let '(nHosts, nEntries, perIP) := History_Stats h in
  nHosts = Z.of_nat (size (hosts h)) /\
  nEntries = stored h /\
  perIP !! "10.0.0.1"
  = if decide (uses "10.0.0.1" (concat (entries_of <$> map_to_list (hosts h))) = 0) then None
    else Some (uses "10.0.0.1" (concat (entries_of <$> map_to_list (hosts h)))).
Proof.
  cbv zeta. split; [by vm_compute|].
  apply (History_Stats_recounts _ "10.0.0.1"). by vm_compute.
Defined.

End HistoryExtras.

(** * Further properties of the selector *)

Section SelectorExtras.
Import GoInt balancer.

(** The usage count that [Select] computes for an address is the number
    of the entries that name it. *)
Lemma usage_count (es : list Entry) (ctx : selectContext) (n : Z) :
  (forall ip, 0 <= default 0 (usageCount ctx !! ip) <= n) ->
  0 <= n -> n + Z.of_nat (length es) <= MaxInt64 ->
  forall ip, default 0 (usageCount (foldl count_entry ctx es) !! ip)
             = default 0 (usageCount ctx !! ip) + uses ip es.
Proof.
  revert ctx n. induction es as [|e es IH]; intros ctx n Hctx Hn Hlen ip; cbn [foldl].
  - unfold uses. cbn. lia.
  - cbn [length] in Hlen. rewrite uses_cons.
    rewrite (IH (count_entry ctx e) (n + 1)); [| |lia|lia].
    + unfold count_entry; cbn [usageCount].
      pose proof (Hctx (IP e)) as He.
      rewrite add64_id by (unfold in_int64, MinInt64, MaxInt64 in *; lia).
      destruct (decide (IP e = ip)) as [->|Hne].
      * rewrite lookup_insert_eq. cbn. lia.
      * rewrite lookup_insert_ne by done. lia.
    + intros ip'. unfold count_entry; cbn [usageCount].
      pose proof (Hctx (IP e)) as He. pose proof (Hctx ip') as Hip'.
      rewrite add64_id by (unfold in_int64, MinInt64, MaxInt64 in *; lia).
      destruct (decide (IP e = ip')) as [->|Hne].
      * rewrite lookup_insert_eq. cbn. lia.
      * rewrite lookup_insert_ne by done. lia.
Qed.

Lemma usage_count_empty (es : list Entry) (ip : string) :
  Z.of_nat (length es) <= MaxInt64 ->
  default 0 (usageCount (foldl count_entry empty_context es) !! ip) = uses ip es.
Proof.
  intros Hlen. rewrite (usage_count es empty_context 0); [| |lia|lia].
  - cbn. by rewrite lookup_empty.
  - intros ip'. cbn. rewrite lookup_empty. cbn. lia.
Qed.

(** The time of last use that [Select] computes for an address is the
    latest timestamp of the entries that name it. *)
Lemma last_use_fold (es : list Entry) (ctx : selectContext) (ip : string) :
  Forall (fun e => 0 < Timestamp e) es ->
  0 <= default 0 (lastUsed ctx !! ip) ->
  default 0 (lastUsed (foldl count_entry ctx es) !! ip)
  = foldl Z.max (default 0 (lastUsed ctx !! ip))
      (Timestamp <$> filter (fun e => IP e = ip) es).
Proof.
  revert ctx. induction es as [|e es IH]; intros ctx Hpos Hctx; cbn [foldl]; [done|].
  inversion Hpos as [|? ? He Hrest]; subst.
  assert (Hstep : default 0 (lastUsed (count_entry ctx e) !! ip)
                  = if decide (IP e = ip)
                    then Z.max (default 0 (lastUsed ctx !! ip)) (Timestamp e)
                    else default 0 (lastUsed ctx !! ip)).
  { unfold count_entry; cbn [lastUsed]. destruct (decide (IP e = ip)) as [<-|Hne].
    - destruct (lastUsed ctx !! IP e) as [t|] eqn:Et; cbn in Hctx |- *.
      + unfold After. destruct (Z.ltb_spec t (Timestamp e)).
        * rewrite lookup_insert_eq. cbn. lia.
        * rewrite Et. cbn. lia.
      + rewrite lookup_insert_eq. cbn. lia.
    - destruct (lastUsed ctx !! IP e) as [t|] eqn:Et.
      + destruct (After (Timestamp e) t); [by rewrite lookup_insert_ne|done].
      + by rewrite lookup_insert_ne. }
  rewrite IH; [|done|rewrite Hstep; destruct (decide _); lia].
  rewrite Hstep. destruct (decide (IP e = ip)) as [Heq|Hne].
  - by rewrite filter_cons_True by done.
  - by rewrite filter_cons_False by done.
Qed.

Lemma last_use_empty (es : list Entry) (ip : string) :
  Forall (fun e => 0 < Timestamp e) es ->
  default 0 (lastUsed (foldl count_entry empty_context es) !! ip) = last_use ip es.
Proof.
  intros Hpos. rewrite last_use_fold; [|done|].
  - cbn. by rewrite lookup_empty.
  - cbn. rewrite lookup_empty. cbn. lia.
Qed.

Lemma foldl_max_ge (ts : list Z) (a : Z) : a <= foldl Z.max a ts.
Proof.
  revert a. induction ts as [|t ts IH]; intros a; cbn [foldl]; [lia|].
  specialize (IH (Z.max a t)). lia.
Qed.

Lemma last_use_positive (es : list Entry) (ip : string) :
  Forall (fun e => 0 < Timestamp e) es -> 1 <= uses ip es -> 0 < last_use ip es.
Proof.
  intros Hpos Hu. unfold last_use, uses in *.
  assert (Hpos' : Forall (fun e => 0 < Timestamp e) (filter (fun e => IP e = ip) es)).
  { apply Forall_forall. intros e [_ Hin]%list_elem_of_filter.
    by apply (proj1 (Forall_forall _ _) Hpos). }
  destruct (filter (fun e => IP e = ip) es) as [|e fs]; [cbn in Hu; lia|].
  inversion Hpos' as [|? ? He _]; subst. cbn [fmap list_fmap foldl].
  pose proof (foldl_max_ge (Timestamp <$> fs) (Z.max 0 (Timestamp e))). lia.
Qed.

(** An address that no entry names has no time of last use. *)
Lemma last_use_unused (es : list Entry) (ctx : selectContext) (ip : string) :
  uses ip es = 0 ->
  lastUsed (foldl count_entry ctx es) !! ip = lastUsed ctx !! ip.
Proof.
  revert ctx. induction es as [|e es IH]; intros ctx Hu; cbn [foldl]; [done|].
  rewrite uses_cons in Hu. pose proof (uses_nonneg ip es).
  destruct (decide (IP e = ip)) as [|Hne]; [lia|].
  rewrite IH by lia. unfold count_entry; cbn [lastUsed].
  destruct (lastUsed ctx !! IP e) as [t|] eqn:Et.
  - destruct (After (Timestamp e) t); [by rewrite lookup_insert_ne|done].
  - by rewrite lookup_insert_ne.
Qed.

(** One round of the loop of [Select]. *)
Lemma choose_step_cases (ctx : selectContext) (sel : string) (m o : Z) (ip : string) :
  let u := default 0 (usageCount ctx !! ip) in
  let t := default 0 (lastUsed ctx !! ip) in
  choose_step ctx (sel, m, o) ip
  = if decide (u < m \/ (u = m /\ (t = 0 \/ t < o))) then (ip, u, t) else (sel, m, o).
Proof.
  cbv zeta. unfold choose_step, IsZero, Before.
  destruct (Z.ltb_spec (default 0 (usageCount ctx !! ip)) m) as [Hlt|Hge].
  - rewrite decide_True by (by left). done.
  - destruct (Z.eqb_spec (default 0 (usageCount ctx !! ip)) m) as [Heq|Hne].
    + destruct (Z.eqb_spec (default 0 (lastUsed ctx !! ip)) 0) as [Hz|Hnz]; cbn [orb].
      * rewrite decide_True by (right; split; [done|by left]). by rewrite Heq.
      * destruct (Z.ltb_spec (default 0 (lastUsed ctx !! ip)) o) as [Hb|Hnb].
        -- rewrite decide_True by (right; split; [done|by right]). by rewrite Heq.
        -- rewrite decide_False by lia. done.
    + rewrite decide_False by lia. done.
Qed.

(** The loop of [Select] over [ips], started in a state that stands for
    an address [sel] with usage [m] and last use [o]: it ends on an
    address of least usage. *)
Lemma choose_least (ctx : selectContext) (ips : list string) (sel : string) (m o : Z) :
  let r := foldl (choose_step ctx) (sel, m, o) ips in
  r.1.2 <= m /\
  (forall ip, ip ∈ ips -> r.1.2 <= default 0 (usageCount ctx !! ip)) /\
  (r = (sel, m, o) \/
   (r.1.1 ∈ ips /\ r.1.2 = default 0 (usageCount ctx !! r.1.1))).
Proof.
  cbv zeta. revert sel m o. induction ips as [|ip ips IH]; intros sel m o; cbn [foldl].
  - split; [cbn; lia|]. split; [|by left]. intros ip Hin. by apply elem_of_nil in Hin.
  - rewrite choose_step_cases. cbv zeta.
    destruct (decide _) as [Hd|Hd].
    + destruct (IH ip (default 0 (usageCount ctx !! ip)) (default 0 (lastUsed ctx !! ip)))
        as (Hle & Hall & Hsel).
      split; [lia|]. split.
      * intros ip' [->|Hin]%elem_of_cons; [done|by apply Hall].
      * right. destruct Hsel as [->|[Hin Hu]]; [|split; [by right|done]].
        split; [left|done].
    + destruct (IH sel m o) as (Hle & Hall & Hsel).
      split; [done|]. split.
      * intros ip' [->|Hin]%elem_of_cons; [lia|by apply Hall].
      * destruct Hsel as [Heq|[Hin Hu]]; [by left|right; split; [by right|done]].
Qed.

(** What [Select] computes when there is a candidate. *)
Lemma Select_unfold (now : Z) (host : string) (l : LRU) (es : list Entry) :
  LRU_getAvailableIPs l <> [] ->
  History_GetFiltered now host (historyWindow l) (historySize l) (history l) = Some es ->
  LRU_Select now host l
  = Some ((foldl (choose_step (foldl count_entry empty_context es))
             (EmptyString, MaxInt, 0) (LRU_getAvailableIPs l)).1.1, None).
Proof.
  intros Hne Hes. unfold LRU_Select. rewrite Hes.
  destruct (LRU_getAvailableIPs l) as [|ip rest]; [done|].
  cbn [length]. change (Z.of_nat (S (length rest)) =? 0) with false. cbn iota.
  by destruct (foldl _ _ (ip :: rest)) as [[sel m] o].
Qed.

Lemma GetFiltered_bound (now : Z) (host : string) (window maxSize : Z) (h : History)
    (es : list Entry) :
  0 <= maxSize ->
  History_GetFiltered now host window maxSize h = Some es ->
  Z.of_nat (length es) <= maxSize.
Proof.
  intros Hm Hes. apply GetFiltered_length in Hes as [Hlen _]. lia.
Qed.

Lemma Select_least_used (now : Z) (host : string) (l : LRU) (ip : string)
    (es : list Entry) :
  History_GetFiltered now host (historyWindow l) (historySize l) (history l) = Some es ->
  LRU_Select now host l = Some (ip, None) ->
  ip ∈ LRU_getAvailableIPs l /\
  forall ip', ip' ∈ LRU_getAvailableIPs l -> uses ip es <= uses ip' es.
Proof.
  intros Hes Hsel.
  pose proof (GetFiltered_below_MaxInt _ _ _ _ _ _ Hes) as Hlen.
  unfold MaxInt in *.
  assert (Hne : LRU_getAvailableIPs l <> []).
  { intros Hnil. unfold LRU_Select in Hsel. by rewrite Hnil in Hsel. }
  rewrite (Select_unfold now host l es Hne Hes) in Hsel.
  set (ctx := foldl count_entry empty_context es) in *.
  assert (Hu : forall ip', default 0 (usageCount ctx !! ip') = uses ip' es)
    by (intros ip'; apply usage_count_empty; lia).
  destruct (LRU_getAvailableIPs l) as [|ip0 rest]; [done|].
  cbn [foldl] in Hsel. rewrite choose_step_cases in Hsel. cbv zeta in Hsel.
  rewrite decide_True in Hsel
    by (left; rewrite Hu; pose proof (uses_le_length ip0 es); unfold MaxInt; lia).
  destruct (choose_least ctx rest ip0 (default 0 (usageCount ctx !! ip0))
              (default 0 (lastUsed ctx !! ip0))) as (Hle & Hall & Hcase).
  destruct (foldl (choose_step ctx) _ rest) as [[sel m] o].
  cbn [fst snd] in *. injection Hsel as <-.
  assert (Hm : m = uses sel es /\ sel ∈ ip0 :: rest).
  { destruct Hcase as [Heq|[Hin Heq]].
    - injection Heq as -> -> ->. split; [apply Hu|left].
    - split; [by rewrite Heq, Hu|by right]. }
  destruct Hm as [-> Hin]. split; [done|].
  intros ip' [->|Hin']%elem_of_cons.
  - rewrite <- (Hu ip0). done.
  - rewrite <- (Hu ip'). by apply Hall.
Qed.

(** X13.  [Select] returns a least-used candidate.  When the history
    size is a non-negative Go int below [math.MaxInt] and [Select]
    returns an address without an error, that address is one of the
    available addresses, and no available address is named by fewer of
    the entries that [GetFiltered] returns for the host (the recent
    entries within the window, at most [historySize] of them). *)
Theorem LRU_Select_least_used (now : Z) (host : string) (l : LRU) (ip : string) :
  0 <= historySize l < MaxInt ->
  LRU_Select now host l = Some (ip, None) ->
  exists es,
    History_GetFiltered now host (historyWindow l) (historySize l) (history l) = Some es /\
    ip ∈ LRU_getAvailableIPs l /\
    forall ip', ip' ∈ LRU_getAvailableIPs l -> uses ip es <= uses ip' es.
Proof.
  intros _ Hsel.
  destruct (History_GetFiltered now host (historyWindow l) (historySize l) (history l))
    as [es|] eqn:Hes.
  - exists es. split; [done|]. by apply (Select_least_used now host l ip es).
  - unfold LRU_Select in Hsel. rewrite Hes in Hsel.
    by destruct (Z.of_nat (length (LRU_getAvailableIPs l)) =? 0).
Qed.


Lemma LRU_Select_least_used_witness :
  let l := LRU_Record 900 "example.com" "192.168.1.3" wiring.cold_start in
  exists es,
    History_GetFiltered 1000 "example.com" (historyWindow l) (historySize l) (history l)
    = Some es /\
    "192.168.1.2" ∈ LRU_getAvailableIPs l /\
    forall ip', ip' ∈ LRU_getAvailableIPs l -> uses "192.168.1.2" es <= uses ip' es.
Proof.
  cbv zeta.
  apply (LRU_Select_least_used 1000 "example.com"
           (LRU_Record 900 "example.com" "192.168.1.3" wiring.cold_start) "192.168.1.2");
    by vm_compute.
Defined.

(** The loop of [Select] ends on the last of the addresses that no
    entry names, when there is one. *)
Lemma choose_last_unused (ctx : selectContext) (ips : list string) (sel : string)
    (m o : Z) (ip0 : string) :
  0 <= m ->
  (forall ip, 0 <= default 0 (usageCount ctx !! ip)) ->
  (forall ip, default 0 (usageCount ctx !! ip) = 0 -> default 0 (lastUsed ctx !! ip) = 0) ->
  last (filter (fun ip => default 0 (usageCount ctx !! ip) = 0) ips) = Some ip0 ->
  (foldl (choose_step ctx) (sel, m, o) ips).1 = (ip0, 0).
Proof.
  intros Hm Hu Ht. revert ip0. induction ips as [|x ips IH] using rev_ind; intros ip0 Hlast.
  - done.
  - rewrite foldl_snoc. rewrite filter_app in Hlast.
    destruct (choose_least ctx ips sel m o) as (_ & _ & Hcase).
    destruct (foldl (choose_step ctx) (sel, m, o) ips) as [[sel' m'] o'] eqn:Hr.
    cbn [fst snd] in *.
    assert (Hm' : 0 <= m').
    { destruct Hcase as [Heq|[_ ->]]; [|apply Hu]. by injection Heq as _ <- _. }
    rewrite choose_step_cases. cbv zeta.
    destruct (decide (default 0 (usageCount ctx !! x) = 0)) as [Hx|Hx].
    + rewrite filter_cons_True, filter_nil in Hlast by done.
      rewrite last_snoc in Hlast. injection Hlast as <-.
      rewrite decide_True.
      * cbn [fst]. by rewrite Hx.
      * specialize (Ht x Hx). lia.
    + rewrite filter_cons_False, filter_nil, app_nil_r in Hlast by done.
      specialize (IH ip0 Hlast). injection IH as -> ->.
      pose proof (Hu x). rewrite decide_False by lia. done.
Qed.

Lemma Select_last_unused (now : Z) (host : string) (l : LRU)
    (es : list Entry) (ip0 : string) :
  History_GetFiltered now host (historyWindow l) (historySize l) (history l) = Some es ->
  last (filter (fun ip => uses ip es = 0) (LRU_getAvailableIPs l)) = Some ip0 ->
  LRU_Select now host l = Some (ip0, None).
Proof.
  intros Hes Hlast.
  pose proof (GetFiltered_below_MaxInt _ _ _ _ _ _ Hes) as Hlen.
  unfold MaxInt in Hlen.
  assert (Hne : LRU_getAvailableIPs l <> []).
  { intros Hnil. by rewrite Hnil in Hlast. }
  rewrite (Select_unfold now host l es Hne Hes).
  set (ctx := foldl count_entry empty_context es) in *.
  assert (Hu : forall ip', default 0 (usageCount ctx !! ip') = uses ip' es)
    by (intros ip'; apply usage_count_empty; lia).
  rewrite (choose_last_unused ctx (LRU_getAvailableIPs l) "" MaxInt 0 ip0); [done|..].
  - by vm_compute.
  - intros ip. rewrite Hu. apply uses_nonneg.
  - intros ip Hz. rewrite Hu in Hz. subst ctx.
    rewrite (last_use_unused es empty_context ip Hz). cbn. by rewrite lookup_empty.
  - rewrite <- Hlast. f_equal. apply list_filter_iff. intros ip. by rewrite Hu.
Qed.

(** X14.  An address not used recently is preferred, and the last such
    one wins.  When some available address is named by none of the
    entries that [GetFiltered] returns for the host, [Select] returns the
    last available address (in the order of the list) that no such entry
    names.  A cold start, where no address is named, is the case in which
    this is the last available address. *)
Theorem LRU_Select_prefers_last_unused (now : Z) (host : string) (l : LRU)
    (es : list Entry) (ip0 : string) :
  0 <= historySize l < MaxInt ->
  History_GetFiltered now host (historyWindow l) (historySize l) (history l) = Some es ->
  last (filter (fun ip => uses ip es = 0) (LRU_getAvailableIPs l)) = Some ip0 ->
  LRU_Select now host l = Some (ip0, None).
Proof. intros _. apply Select_last_unused. Qed.

Lemma LRU_Select_prefers_last_unused_witness :
  LRU_Select 1000 "example.com"
    (LRU_Record 900 "example.com" "192.168.1.3" wiring.cold_start)
  = Some ("192.168.1.2", None).
Proof.
  apply (LRU_Select_prefers_last_unused 1000 "example.com"
           (LRU_Record 900 "example.com" "192.168.1.3" wiring.cold_start)
           [mkEntry "192.168.1.3" 900] "192.168.1.2"); by vm_compute.
Defined.

(** The loop of [Select] over addresses that all have a time of last
    use: among the addresses seen so far, the one it holds has the least
    usage and, among those of least usage, the earliest last use. *)
Lemma choose_oldest (ctx : selectContext) (ips seen : list string) (sel : string)
    (m o : Z) :
  (forall ip, ip ∈ ips -> 0 < default 0 (lastUsed ctx !! ip)) ->
  default 0 (usageCount ctx !! sel) = m -> default 0 (lastUsed ctx !! sel) = o ->
  (forall p, p ∈ seen ->
     m <= default 0 (usageCount ctx !! p) /\
     (default 0 (usageCount ctx !! p) = m -> o <= default 0 (lastUsed ctx !! p))) ->
  let r := foldl (choose_step ctx) (sel, m, o) ips in
  default 0 (usageCount ctx !! r.1.1) = r.1.2 /\
  default 0 (lastUsed ctx !! r.1.1) = r.2 /\
  forall p, p ∈ seen ++ ips ->
    r.1.2 <= default 0 (usageCount ctx !! p) /\
    (default 0 (usageCount ctx !! p) = r.1.2 -> r.2 <= default 0 (lastUsed ctx !! p)).
Proof.
  cbv zeta. revert seen sel m o.
  induction ips as [|ip ips IH]; intros seen sel m o Hpos Hu Ht Hseen; cbn [foldl].
  - rewrite app_nil_r. cbn [fst snd]. done.
  - rewrite choose_step_cases. cbv zeta.
    assert (Hpos' : forall ip', ip' ∈ ips -> 0 < default 0 (lastUsed ctx !! ip'))
      by (intros ip' Hin; apply Hpos; by right).
    pose proof (Hpos ip ltac:(left)) as Hip.
    replace (seen ++ ip :: ips) with ((seen ++ [ip]) ++ ips) by (by rewrite <- app_assoc).
    destruct (decide _) as [Hd|Hd].
    + apply IH; [done|done|done|].
      intros p [Hin| ->%list_elem_of_singleton]%elem_of_app.
      * destruct (Hseen p Hin) as [H1 H2]. split; [lia|]. intros Heq. lia.
      * split; [lia|]. intros _. lia.
    + apply IH; [done|done|done|].
      intros p [Hin| ->%list_elem_of_singleton]%elem_of_app.
      * by apply Hseen.
      * split; [lia|]. intros Heq. lia.
Qed.

(** X15.  Among the least-used candidates the least recently used one
    is chosen.  Let the entries that [GetFiltered] returns for the host
    have positive timestamps (as [time.Now] gives them) and let every
    available address be named by at least one of them.  Then the address
    that [Select] returns has, among the available addresses named by as
    few entries as itself, the earliest time of last use. *)
Theorem LRU_Select_least_recently_used (now : Z) (host : string) (l : LRU)
    (es : list Entry) (ip : string) :
  0 <= historySize l < MaxInt ->
  History_GetFiltered now host (historyWindow l) (historySize l) (history l) = Some es ->
  Forall (fun e => 0 < Timestamp e) es ->
  (forall ip', ip' ∈ LRU_getAvailableIPs l -> 1 <= uses ip' es) ->
  LRU_Select now host l = Some (ip, None) ->
  forall ip', ip' ∈ LRU_getAvailableIPs l -> uses ip' es = uses ip es ->
              last_use ip es <= last_use ip' es.
Proof.
  intros Hsize Hes Hpos Hused Hsel.
  pose proof (GetFiltered_bound now host (historyWindow l) (historySize l) (history l) es
                ltac:(lia) Hes) as Hlen.
  unfold MaxInt in Hsize.
  assert (Hne : LRU_getAvailableIPs l <> []).
  { intros Hnil. unfold LRU_Select in Hsel. by rewrite Hnil in Hsel. }
  rewrite (Select_unfold now host l es Hne Hes) in Hsel.
  set (ctx := foldl count_entry empty_context es) in *.
  assert (Hu : forall ip', default 0 (usageCount ctx !! ip') = uses ip' es)
    by (intros ip'; apply usage_count_empty; lia).
  assert (Ht : forall ip', default 0 (lastUsed ctx !! ip') = last_use ip' es)
    by (intros ip'; by apply last_use_empty).
  destruct (LRU_getAvailableIPs l) as [|ip0 rest]; [done|].
  cbn [foldl] in Hsel. rewrite choose_step_cases in Hsel. cbv zeta in Hsel.
  rewrite decide_True in Hsel
    by (left; rewrite Hu; pose proof (uses_le_length ip0 es); unfold MaxInt; lia).
  destruct (choose_oldest ctx rest [ip0] ip0 (default 0 (usageCount ctx !! ip0))
              (default 0 (lastUsed ctx !! ip0))) as (Hru & Hrt & Hall).
  - intros ip' Hin. rewrite Ht. apply last_use_positive; [done|]. apply Hused. by right.
  - done.
  - done.
  - intros p ->%list_elem_of_singleton. split; [lia|]. intros _. lia.
  - destruct (foldl (choose_step ctx) _ rest) as [[sel m] o].
    cbn [fst snd] in *. injection Hsel as <-.
    intros ip' Hin Heq. destruct (Hall ip' Hin) as [_ Htie].
    rewrite <- !Ht, Hrt. apply Htie. rewrite <- Hru, !Hu. done.
Qed.

Lemma LRU_Select_least_recently_used_witness :
  let l := LRU_Record 930 "example.com" "192.168.1.1"
             (LRU_Record 920 "example.com" "192.168.1.2"
                (LRU_Record 910 "example.com" "192.168.1.3" wiring.cold_start)) in
  LRU_Select 1000 "example.com" l = Some ("192.168.1.3", None) /\
  forall ip', ip' ∈ LRU_getAvailableIPs l ->
    uses ip' [mkEntry "192.168.1.1" 930; mkEntry "192.168.1.2" 920; mkEntry "192.168.1.3" 910]
    = uses "192.168.1.3"
        [mkEntry "192.168.1.1" 930; mkEntry "192.168.1.2" 920; mkEntry "192.168.1.3" 910] ->
    last_use "192.168.1.3"
      [mkEntry "192.168.1.1" 930; mkEntry "192.168.1.2" 920; mkEntry "192.168.1.3" 910]
    <= last_use ip'
         [mkEntry "192.168.1.1" 930; mkEntry "192.168.1.2" 920; mkEntry "192.168.1.3" 910].
Proof.
  cbv zeta. split; [by vm_compute|].
  apply (LRU_Select_least_recently_used 1000 "example.com"
           (LRU_Record 930 "example.com" "192.168.1.1"
              (LRU_Record 920 "example.com" "192.168.1.2"
                 (LRU_Record 910 "example.com" "192.168.1.3" wiring.cold_start)))).
  - by vm_compute.
  - by vm_compute.
  - repeat constructor.
  - intros ip' Hin. vm_compute in Hin.
    repeat (apply elem_of_cons in Hin as [->|Hin]; [by vm_compute|]).
    by apply elem_of_nil in Hin.
  - by vm_compute.
Defined.


(** *** Selections from a cold start *)

Lemma uses_zero_iff (ip : string) (es : list Entry) :
  uses ip es = 0 <-> ip ∉ (IP <$> es).
Proof.
  induction es as [|e es IH].
  - split; [intros _ Hin; by apply elem_of_nil in Hin|done].
  - rewrite uses_cons. pose proof (uses_nonneg ip es). rewrite fmap_cons, not_elem_of_cons.
    destruct (decide (IP e = ip)) as [Heq|Hne].
    + split; [lia|]. intros [Hne _]. by rewrite Heq in Hne.
    + rewrite Z.add_0_l, IH. split; [by intros ?; split|by intros [_ ?]].
Qed.

Lemma fmap_rev_list {A B : Type} (f : A -> B) (l : list A) : f <$> rev l = rev (f <$> l).
Proof.
  induction l as [|a l IH]; [done|]. cbn [rev]. rewrite fmap_app, IH. done.
Qed.

Lemma filter_none_in {A : Type} (P : A -> Prop) `{!forall x, Decision (P x)} (l : list A) :
  (forall x, x ∈ l -> ~ P x) -> filter P l = [].
Proof.
  induction l as [|a l IH]; intros HP; [done|].
  rewrite filter_cons_False by (apply HP; left). apply IH. intros x Hin. apply HP. by right.
Qed.

Lemma Record_uncapped (t : Z) (host ip : string) (h : History) :
  maxTotalEntries h = 0 ->
  entries_for host (History_Record t host ip h) = entries_for host h ++ [mkEntry ip t] /\
  maxTotalEntries (History_Record t host ip h) = 0.
Proof.
  intros Hcap. unfold History_Record, entries_for. rewrite Hcap.
  change (0 >? 0) with false. cbn iota. unfold History_GetOrCreate.
  destruct (hosts h !! host) as [hh|] eqn:E; cbn [hosts set_hosts maxTotalEntries];
    rewrite lookup_insert_eq; done.
Qed.

Lemma GetFiltered_all (now : Z) (host : string) (window maxSize : Z) (h : History)
    (es : list Entry) :
  Z.of_nat (length (entries_for host h)) <= maxSize ->
  Forall (fun e => now + neg64 window < Timestamp e) (entries_for host h) ->
  History_GetFiltered now host window maxSize h = Some es ->
  es = rev (entries_for host h).
Proof.
  intros Hlen Hwin Hes. apply History_GetFiltered_spec in Hes. rewrite Hes.
  assert (Hf : filter (fun e => now + neg64 window < Timestamp e)
                 (rev (entries_for host h))
               = rev (entries_for host h)).
  { clear Hes Hlen. induction (entries_for host h) as [|e es' IH] using rev_ind; [done|].
    apply Forall_app in Hwin as [Hes [He _]%Forall_cons].
    rewrite rev_unit, filter_cons_True by done. f_equal. by apply IH. }
  rewrite Hf, take_ge; [done|]. rewrite length_rev. lia.
Qed.

(** A [Select] that returns has read the history. *)
Lemma Select_returns_GetFiltered (now : Z) (host : string) (l : LRU) (ip : string) :
  LRU_Select now host l = Some (ip, None) ->
  exists es,
    History_GetFiltered now host (historyWindow l) (historySize l) (history l) = Some es.
Proof.
  unfold LRU_Select. destruct (Z.of_nat (length (LRU_getAvailableIPs l)) =? 0); [done|].
  destruct (History_GetFiltered _ _ _ _ _) as [es|]; [by exists es|done].
Qed.

(** The uses of the selector stop at the first [Select] that fails. *)
Lemma select_and_record_stopped (host : string) (ts : list (Z * Z)) :
  foldl (select_and_record host) None ts = None.
Proof. by induction ts. Qed.

(** The state of the selector after the addresses [q], the last one
    first, have been selected and recorded for the host: the addresses
    [p] are still unused. *)
Lemma rounds_from_cold (host : string) (ts : list (Z * Z)) :
  forall (l : LRU) (p q selected : list string) (r : list string * LRU),
    ips l = p ++ q -> NoDup (p ++ q) ->
    LRU_getAvailableIPs l = ips l ->
    maxTotalEntries (history l) = 0 ->
    IP <$> entries_for host (history l) = rev q ->
    Z.of_nat (length (p ++ q)) <= historySize l ->
    Forall (fun t => Forall (fun e => t.1 + neg64 (historyWindow l) < Timestamp e)
                       (entries_for host (history l))) ts ->
    Forall (fun t => Forall (fun u => t.1 + neg64 (historyWindow l) < u.2) ts) ts ->
    (length ts <= length p)%nat ->
    foldl (select_and_record host) (Some (selected, l)) ts = Some r ->
    r.1 = selected ++ take (length ts) (rev p).
Proof.
  induction ts as [|[now now'] ts IH];
    intros l p q selected r Hips Hnd Hav Hcap Hes Hsize Hold Hnew Hlen Hrun;
    cbn [foldl] in Hrun.
  - injection Hrun as <-. cbn [length take fst]. by rewrite app_nil_r.
  - destruct p as [|x0 p0] using rev_ind; [cbn in Hlen; lia|]. clear IHp0.
    rename p0 into p. rewrite length_app in Hlen. cbn [length] in Hlen.
    apply Forall_cons in Hold as [Hold0 Hold].
    apply Forall_cons in Hnew as [Hnew0 Hnew]. cbn [fst snd] in *.
    apply Forall_cons in Hnew0 as [_ Hnew0].
    assert (Hlenq : length (entries_for host (history l)) = length q).
    { rewrite <- (length_fmap IP), Hes. apply length_rev. }
    cbn [select_and_record fst snd] in Hrun.
    destruct (LRU_Select now host l) as [[ip [e|]]|] eqn:Hsel;
      [by rewrite select_and_record_stopped in Hrun| |
       by rewrite select_and_record_stopped in Hrun].
    destruct (Select_returns_GetFiltered now host l ip Hsel) as [es Hget].
    assert (Hall : es = rev (entries_for host (history l))).
    { apply (GetFiltered_all now host (historyWindow l) (historySize l) (history l));
        [|done|done].
      rewrite Hlenq. rewrite !length_app in Hsize. lia. }
    subst es.
    assert (Hx0 : LRU_Select now host l = Some (x0, None)).
    { apply (Select_last_unused now host l (rev (entries_for host (history l))));
        [done|].
      rewrite Hav, Hips, <- app_assoc, !filter_app.
      assert (Hx : uses x0 (rev (entries_for host (history l))) = 0).
      { apply uses_zero_iff. rewrite fmap_rev_list, Hes, rev_involutive.
        rewrite <- app_assoc in Hnd. apply NoDup_app in Hnd as (_ & _ & Hnd).
        apply NoDup_cons in Hnd as [Hx _]. done. }
      assert (Hq : filter (fun ip => uses ip (rev (entries_for host (history l))) = 0) q
                   = []).
      { apply filter_none_in. intros ip' Hin Hu.
        apply uses_zero_iff in Hu. apply Hu.
        by rewrite fmap_rev_list, Hes, rev_involutive. }
      rewrite filter_cons_True, filter_nil, Hq by done. cbn [app].
      by rewrite last_snoc. }
    rewrite Hsel in Hx0. injection Hx0 as ->.
    destruct (Record_uncapped now' host x0 (history l) Hcap) as [Hrec Hcap'].
    rewrite (IH (LRU_Record now' host x0 l) p (x0 :: q) (selected ++ [x0]) r);
      [| | | | | | | | | |exact Hrun].
    + rewrite rev_unit. cbn [length take]. by rewrite <- app_assoc.
    + cbn [LRU_Record ips]. by rewrite Hips, <- app_assoc.
    + by rewrite <- app_assoc in Hnd.
    + unfold LRU_getAvailableIPs in *. cbn [LRU_Record ips healthChecker limiter]. done.
    + done.
    + cbn [LRU_Record history]. rewrite Hrec, fmap_app, Hes. done.
    + cbn [LRU_Record historySize]. rewrite <- app_assoc in Hsize. done.
    + cbn [LRU_Record history historyWindow]. rewrite Hrec.
      apply Forall_forall. intros t Ht. apply Forall_app. split.
      * by apply (proj1 (Forall_forall _ _) Hold).
      * apply Forall_singleton. cbn [Timestamp].
        pose proof (proj1 (Forall_forall _ _) Hnew t Ht) as Hnow.
        by apply Forall_cons in Hnow as [Hnow _].
    + cbn [LRU_Record historyWindow].
      eapply Forall_impl; [exact Hnew|]. intros t Ht. by apply Forall_cons in Ht as [_ Ht].
    + lia.
Qed.

(** X16.  From a cold start the addresses take turns.  Let all the
    configured addresses be available and distinct, the history be
    without a cap and without entries for the host, the history size be
    at least the number of addresses, and let the selector be used for
    the host [n] times in a row, each time a [Select] followed by the
    [Record] of the address selected, within one history window (a
    window other than the smallest duration, whose negation overflows).
    When [n] is at most the number of addresses and the [n] uses
    complete, none of them failing or panicking, the addresses selected
    are [n] different ones: the last [n] of the configured list, from
    the last one backwards. *)
Theorem LRU_cold_start_selections_distinct (host : string) (ts : list (Z * Z)) (l : LRU)
    (selected : list string) (l' : LRU) :
  NoDup (ips l) ->
  LRU_getAvailableIPs l = ips l ->
  maxTotalEntries (history l) = 0 ->
  entries_for host (history l) = [] ->
  Z.of_nat (length (ips l)) <= historySize l ->
  MinInt64 < historyWindow l <= MaxInt64 ->
  Forall (fun t => Forall (fun u => t.1 - historyWindow l < u.2) ts) ts ->
  (length ts <= length (ips l))%nat ->
  foldl (select_and_record host) (Some ([], l)) ts = Some (selected, l') ->
  selected = take (length ts) (rev (ips l)) /\ NoDup selected /\
  length selected = length ts.
Proof.
  intros Hnd Hav Hcap Hes Hsize Hw Hnew Hlen Hrun.
  assert (Hsel : selected = take (length ts) (rev (ips l))).
  { change selected with (selected, l').1.
    rewrite (rounds_from_cold host ts l (ips l) [] [] (selected, l')); [done|..].
    - by rewrite app_nil_r.
    - by rewrite app_nil_r.
    - done.
    - done.
    - by rewrite Hes.
    - by rewrite app_nil_r.
    - rewrite Hes. apply Forall_forall. intros t _. apply Forall_nil_2.
    - rewrite (neg64_opp _ Hw).
      eapply Forall_impl; [exact Hnew|]. intros t Ht.
      eapply Forall_impl; [exact Ht|]. intros u Hu. cbn beta in *. lia.
    - done.
    - done. }
  subst selected. split; [done|]. split.
  - apply (sublist_NoDup _ (rev (ips l))); [|apply sublist_take].
    by apply NoDup_ListNoDup, List.NoDup_rev, NoDup_ListNoDup.
  - rewrite length_take, length_rev. lia.
Qed.

Lemma LRU_cold_start_selections_distinct_witness :
  exists selected l',
    foldl (select_and_record "example.com") (Some ([], wiring.cold_start))
      [(1000, 1001); (1010, 1011); (1020, 1021)]
    = Some (selected, l') /\
    selected = ["192.168.1.3"; "192.168.1.2"; "192.168.1.1"] /\
    NoDup selected.
Proof.
  destruct (foldl (select_and_record "example.com") (Some ([], wiring.cold_start))
              [(1000, 1001); (1010, 1011); (1020, 1021)])
    as [[selected l']|] eqn:E; [|by vm_compute in E].
  exists selected, l'. split; [done|].
  destruct (LRU_cold_start_selections_distinct "example.com"
              [(1000, 1001); (1010, 1011); (1020, 1021)] wiring.cold_start selected l')
    as (Hs & Hnd & _).
  - repeat constructor; vm_compute; intros Hin;
      repeat (apply elem_of_cons in Hin as [Hin|Hin]; [discriminate Hin|]);
      by apply elem_of_nil in Hin.
  - by vm_compute.
  - by vm_compute.
  - by vm_compute.
  - by vm_compute.
  - by vm_compute.
  - repeat constructor; by vm_compute.
  - vm_compute. lia.
  - exact E.
  - split; [|done]. rewrite Hs. by vm_compute.
Defined.

End SelectorExtras.

(** * Properties of the circuit breaker *)

Section BreakerExtras.
Import GoInt balancer.

Lemma RecordFailure_config (t : Z) (ip : string) (cb : CircuitBreaker) :
  config (CircuitBreaker_RecordFailure t ip cb) = config cb.
Proof.
  unfold CircuitBreaker_RecordFailure, CircuitBreaker_getOrCreateState.
  by destruct (states cb !! ip).
Qed.

Lemma RecordSuccess_config (ip : string) (cb : CircuitBreaker) :
  config (CircuitBreaker_RecordSuccess ip cb) = config cb.
Proof.
  unfold CircuitBreaker_RecordSuccess.
  destruct (states cb !! ip) as [st|]; [|done].
  destruct (state st); try done. by destruct (_ >=? _).
Qed.

Lemma IsHealthy_config (now : Z) (ip : string) (cb : CircuitBreaker) :
  config (CircuitBreaker_IsHealthy now ip cb).2 = config cb.
Proof.
  unfold CircuitBreaker_IsHealthy.
  destruct (states cb !! ip) as [st|]; [|done].
  destruct (state st); try done. by destruct (_ >=? _).
Qed.

(** A failure recorded for a closed circuit. *)
Lemma RecordFailure_closed (k t : Z) (ip : string) (cb : CircuitBreaker) :
  closed_with k ip cb -> 0 <= k < MaxInt64 ->
  exists s,
    states (CircuitBreaker_RecordFailure t ip cb) !! ip
    = Some {| failures := k + 1; successes := s;
              state := if k + 1 >=? FailureThreshold (config cb)
                       then StateOpen else StateClosed;
              lastFailure := t |}.
Proof.
  unfold closed_with, CircuitBreaker_RecordFailure, CircuitBreaker_getOrCreateState.
  intros Hc Hk. destruct (states cb !! ip) as [st|] eqn:E.
  - destruct Hc as [Hs Hf]. rewrite Hs, Hf. rewrite add64_succ by done.
    exists (successes st). cbn [states set_states config]. rewrite lookup_insert_eq.
    by destruct (k + 1 >=? _).
  - subst k. cbn [state failures successes config set_states states].
    exists 0. rewrite lookup_insert_eq.
    change (add64 0 1) with 1. change (0 + 1) with 1. by destruct (1 >=? _).
Qed.

(** A failure recorded for an open circuit only moves the time of the
    last failure. *)
Lemma RecordFailure_open (t : Z) (ip : string) (cb : CircuitBreaker) (st : ipState) :
  states cb !! ip = Some st -> state st = StateOpen ->
  states (CircuitBreaker_RecordFailure t ip cb) !! ip
  = Some {| failures := failures st; successes := successes st; state := StateOpen;
            lastFailure := t |}.
Proof.
  intros E Hs. unfold CircuitBreaker_RecordFailure, CircuitBreaker_getOrCreateState.
  rewrite E, Hs. cbn [states set_states]. by rewrite lookup_insert_eq.
Qed.

Lemma failures_run (k : Z) (ip : string) (ts : list Z) (cb : CircuitBreaker) :
  FailureThreshold (config cb) <= MaxInt64 -> 0 <= k < MaxInt64 ->
  closed_with k ip cb ->
  let cb' := foldl (fun cb t => CircuitBreaker_RecordFailure t ip cb) cb ts in
  let n := Z.of_nat (length ts) in
  config cb' = config cb /\
  if (1 <=? n) && (FailureThreshold (config cb) <=? k + n)
  then exists st, states cb' !! ip = Some st /\ state st = StateOpen /\
                  Some (lastFailure st) = last ts
  else closed_with (k + n) ip cb' /\
       (ts <> [] -> exists st, states cb' !! ip = Some st /\ Some (lastFailure st) = last ts).
Proof.
  intros HF Hk Hc. cbv zeta. induction ts as [|t ts IH] using rev_ind.
  - cbn. split; [done|]. rewrite Z.add_0_r. done.
  - rewrite foldl_snoc, length_app, last_snoc. cbn [length].
    destruct IH as [Hcfg IH]. rewrite RecordFailure_config. split; [done|].
    set (cb' := foldl _ cb ts) in *. set (n := Z.of_nat (length ts)) in *.
    replace (Z.of_nat (length ts + 1)) with (n + 1) by lia.
    destruct (Z.leb_spec 1 (n + 1)) as [_|]; [|lia]. cbn [andb].
    destruct ((1 <=? n) && (FailureThreshold (config cb) <=? k + n)) eqn:Hopen.
    + destruct IH as (st & Hst & Hs & _).
      apply andb_true_iff in Hopen as [_ Hle%Z.leb_le].
      destruct (Z.leb_spec (FailureThreshold (config cb)) (k + (n + 1))); [|lia].
      eexists. split; [by apply RecordFailure_open|]. done.
    + destruct IH as [Hcl _].
      assert (Hlt : k + n < FailureThreshold (config cb) \/ n = 0).
      { apply andb_false_iff in Hopen as [H%Z.leb_gt|H%Z.leb_gt]; lia. }
      destruct (RecordFailure_closed (k + n) t ip cb' Hcl ltac:(lia)) as [s Hs].
      rewrite Hcfg in Hs. rewrite Hs.
      replace (k + (n + 1)) with (k + n + 1) by lia.
      destruct (Z.geb_spec (k + n + 1) (FailureThreshold (config cb))) as [Hge|Hlt'].
      * destruct (Z.leb_spec (FailureThreshold (config cb)) (k + n + 1)); [|lia].
        eexists. split; [done|]. done.
      * destruct (Z.leb_spec (FailureThreshold (config cb)) (k + n + 1)); [lia|].
        split; [|intros _; eexists; split; done].
        unfold closed_with. by rewrite Hs.
Qed.

(** X17.  When the circuit of an address opens.  Let the circuit of
    [ip] be closed with [k] failures counted (an address without a state
    is closed with none), and let [n] failures be recorded for it, at the
    times [ts].  The circuit is then open exactly when [n >= 1] and
    [k + n] has reached the failure threshold (so the first failure opens
    it when the threshold is one or less); in that case [IsHealthy]
    refuses the address exactly until [Timeout] has passed since the
    last of the failures, and grants it otherwise.  A success recorded
    for a closed circuit puts its failure count back to zero. *)
Theorem CircuitBreaker_opens_at_threshold (k : Z) (ip : string) (ts : list Z)
    (cb : CircuitBreaker) :
  FailureThreshold (config cb) <= MaxInt64 -> 0 <= k < MaxInt64 ->
  closed_with k ip cb ->
  let cb' := foldl (fun cb t => CircuitBreaker_RecordFailure t ip cb) cb ts in
  let opened := (1 <=? Z.of_nat (length ts))
                && (FailureThreshold (config cb) <=? k + Z.of_nat (length ts)) in
  CircuitBreaker_GetState ip cb' = (if opened then StateOpen else StateClosed) /\
  (forall now t, last ts = Some t ->
     (CircuitBreaker_IsHealthy now ip cb').1
     = negb opened || (Timeout (config cb) <=? Since now t)) /\
  closed_with 0 ip (CircuitBreaker_RecordSuccess ip cb).
Proof.
  intros HF Hk Hc. cbv zeta.
  destruct (failures_run k ip ts cb HF Hk Hc) as [Hcfg Hrun].
  set (cb' := foldl _ cb ts) in *.
  split; [|split].
  - unfold CircuitBreaker_GetState.
    destruct ((1 <=? _) && _).
    + destruct Hrun as (st & -> & Hs & _). done.
    + destruct Hrun as [Hcl _]. unfold closed_with in Hcl.
      destruct (states cb' !! ip) as [st|]; [by destruct Hcl|done].
  - intros now t Hlast. unfold CircuitBreaker_IsHealthy.
    destruct ((1 <=? _) && _).
    + destruct Hrun as (st & -> & Hs & Hlf). rewrite Hs, Hcfg. cbn [negb orb].
      rewrite Hlast in Hlf. injection Hlf as ->.
      destruct (Z.geb_spec (Since now t) (Timeout (config cb))),
               (Z.leb_spec (Timeout (config cb)) (Since now t)); try done; lia.
    + destruct Hrun as [Hcl _]. unfold closed_with in Hcl. cbn [negb orb].
      destruct (states cb' !! ip) as [st|]; [|done]. destruct Hcl as [-> _]. done.
  - unfold closed_with in *. unfold CircuitBreaker_RecordSuccess.
    destruct (states cb !! ip) as [st|] eqn:E.
    + destruct Hc as [Hs _]. rewrite Hs. cbn [states set_states].
      by rewrite lookup_insert_eq.
    + by rewrite E.
Qed.

Lemma CircuitBreaker_opens_at_threshold_witness :
  let cb := NewCircuitBreaker DefaultCircuitBreakerConfig in
  let cb' := foldl (fun cb t => CircuitBreaker_RecordFailure t "10.0.0.1" cb) cb
               [100; 200; 300; 400; 500] in
  CircuitBreaker_GetState "10.0.0.1" cb' = StateOpen /\
  (CircuitBreaker_IsHealthy (500 + 29 * Second) "10.0.0.1" cb').1 = false /\
  (CircuitBreaker_IsHealthy (500 + 30 * Second) "10.0.0.1" cb').1 = true.
Proof.
  cbv zeta.
  destruct (CircuitBreaker_opens_at_threshold 0 "10.0.0.1" [100; 200; 300; 400; 500]
              (NewCircuitBreaker DefaultCircuitBreakerConfig))
    as (H1 & H2 & _); [by vm_compute|by vm_compute|by vm_compute|].
  split; [exact H1|]. split.
  - exact (H2 (500 + 29 * Second) 500 eq_refl).
  - exact (H2 (500 + 30 * Second) 500 eq_refl).
Defined.


Lemma record_successes_config (n : nat) (ip : string) (cb : CircuitBreaker) :
  config (record_successes n ip cb) = config cb.
Proof.
  revert cb. induction n as [|n IH]; intros cb; cbn [record_successes]; [done|].
  by rewrite IH, RecordSuccess_config.
Qed.

Lemma successes_keep_closed (n : nat) (ip : string) (cb : CircuitBreaker) (k : Z) :
  closed_with k ip cb -> is_Some (states cb !! ip) ->
  closed_with 0 ip (record_successes (S n) ip cb) /\
  is_Some (states (record_successes (S n) ip cb) !! ip).
Proof.
  revert cb k. induction n as [|n IH]; intros cb k Hc [st E].
  - cbn [record_successes]. unfold closed_with, CircuitBreaker_RecordSuccess in *.
    rewrite E in *. destruct Hc as [-> _]. cbn [states set_states].
    rewrite lookup_insert_eq. eauto.
  - change (record_successes (S (S n)) ip cb)
      with (record_successes (S n) ip (CircuitBreaker_RecordSuccess ip cb)).
    apply (IH _ 0).
    + unfold closed_with, CircuitBreaker_RecordSuccess in *.
      rewrite E in *. destruct Hc as [-> _]. cbn [states set_states].
      by rewrite lookup_insert_eq.
    + unfold closed_with, CircuitBreaker_RecordSuccess in *.
      rewrite E in *. destruct Hc as [-> _]. cbn [states set_states].
      rewrite lookup_insert_eq. eauto.
Qed.

(** The successes recorded for a half-open circuit that has counted [s]
    of them. *)
Lemma halfopen_run (n : nat) (ip : string) (cb : CircuitBreaker) (st : ipState) (s : Z) :
  SuccessThreshold (config cb) <= MaxInt64 -> 0 <= s < MaxInt64 ->
  states cb !! ip = Some st -> state st = StateHalfOpen -> successes st = s ->
  let cb' := record_successes n ip cb in
  if (1 <=? Z.of_nat n) && (SuccessThreshold (config cb) <=? s + Z.of_nat n)
  then closed_with 0 ip cb' /\ is_Some (states cb' !! ip)
  else exists st', states cb' !! ip = Some st' /\ state st' = StateHalfOpen /\
                   successes st' = s + Z.of_nat n /\ failures st' = failures st /\
                   lastFailure st' = lastFailure st.
Proof.
  cbv zeta. revert cb st s.
  induction n as [|n IH]; intros cb st s HS Hs E Hst Hsucc.
  - cbn [record_successes andb Z.of_nat Z.leb Z.compare]. exists st.
    rewrite Z.add_0_r. done.
  - cbn [record_successes].
    destruct (Z.leb_spec 1 (Z.of_nat (S n))) as [_|]; [|lia]. cbn [andb].
    assert (Hstep : CircuitBreaker_RecordSuccess ip cb
                    = if s + 1 >=? SuccessThreshold (config cb)
                      then set_states (<[ip := {| failures := 0; successes := 0;
                                                  state := StateClosed;
                                                  lastFailure := lastFailure st |}]>
                                         (states cb)) cb
                      else set_states (<[ip := {| failures := failures st;
                                                  successes := s + 1;
                                                  state := StateHalfOpen;
                                                  lastFailure := lastFailure st |}]>
                                         (states cb)) cb).
    { unfold CircuitBreaker_RecordSuccess. rewrite E, Hst, Hsucc.
      by rewrite add64_succ by done. }
    rewrite Hstep.
    destruct (Z.geb_spec (s + 1) (SuccessThreshold (config cb))) as [Hge|Hlt].
    + destruct (Z.leb_spec (SuccessThreshold (config cb)) (s + Z.of_nat (S n))); [|lia].
      destruct n as [|n].
      * cbn [record_successes]. unfold closed_with. cbn [states set_states].
        rewrite lookup_insert_eq. eauto.
      * apply (successes_keep_closed n ip _ 0).
        -- unfold closed_with. cbn [states set_states]. by rewrite lookup_insert_eq.
        -- cbn [states set_states]. rewrite lookup_insert_eq. eauto.
    + specialize (IH (set_states (<[ip := {| failures := failures st; successes := s + 1;
                                             state := StateHalfOpen;
                                             lastFailure := lastFailure st |}]>
                                    (states cb)) cb)
                     {| failures := failures st; successes := s + 1;
                        state := StateHalfOpen; lastFailure := lastFailure st |}
                     (s + 1) HS ltac:(lia)).
      cbn [states set_states config] in IH. rewrite lookup_insert_eq in IH.
      specialize (IH eq_refl eq_refl eq_refl).
      replace (s + Z.of_nat (S n)) with (s + 1 + Z.of_nat n) by lia.
      destruct (Z.leb_spec 1 (Z.of_nat n)) as [H1|H1]; cbn [andb] in IH.
      * done.
      * assert (n = 0%nat) as -> by lia. cbn [Z.of_nat] in *. rewrite Z.add_0_r in *.
        destruct (Z.leb_spec (SuccessThreshold (config cb)) (s + 1)); [lia|done].
Qed.

(** X18.  How an open circuit recovers.  While the circuit of an
    address is open, a recorded success changes nothing, and [IsHealthy]
    grants the address exactly when [Timeout] has passed since the last
    failure; a refusal changes nothing, and the first grant makes the
    circuit half-open.  From there, [n] recorded successes close the
    circuit, with the failure count back at zero, exactly when [n >= 1]
    and [n] has reached the success threshold; until then the circuit
    stays half-open. *)
Theorem CircuitBreaker_recovers_after_timeout (now : Z) (ip : string)
    (cb : CircuitBreaker) (st : ipState) (n : nat) :
  SuccessThreshold (config cb) <= MaxInt64 ->
  states cb !! ip = Some st -> state st = StateOpen ->
  CircuitBreaker_RecordSuccess ip cb = cb /\
  (CircuitBreaker_IsHealthy now ip cb).1
  = (Timeout (config cb) <=? Since now (lastFailure st)) /\
  (Since now (lastFailure st) < Timeout (config cb) ->
   (CircuitBreaker_IsHealthy now ip cb).2 = cb) /\
  (Timeout (config cb) <= Since now (lastFailure st) ->
   let cb' := record_successes n ip (CircuitBreaker_IsHealthy now ip cb).2 in
   if (1 <=? Z.of_nat n) && (SuccessThreshold (config cb) <=? Z.of_nat n)
   then closed_with 0 ip cb' /\ CircuitBreaker_GetState ip cb' = StateClosed
   else CircuitBreaker_GetState ip cb' = StateHalfOpen).
Proof.
  intros HS E Hst.
  assert (Hh : CircuitBreaker_IsHealthy now ip cb
               = if Since now (lastFailure st) >=? Timeout (config cb)
                 then (true,
                       set_states (<[ip := {| failures := failures st; successes := 0;
                                              state := StateHalfOpen;
                                              lastFailure := lastFailure st |}]>
                                     (states cb)) cb)
                 else (false, cb)).
  { unfold CircuitBreaker_IsHealthy. by rewrite E, Hst. }
  split; [|split; [|split]].
  - unfold CircuitBreaker_RecordSuccess. by rewrite E, Hst.
  - rewrite Hh. destruct (Z.geb_spec (Since now (lastFailure st)) (Timeout (config cb))),
                         (Z.leb_spec (Timeout (config cb)) (Since now (lastFailure st)));
      try done; lia.
  - intros Hlt. rewrite Hh.
    destruct (Z.geb_spec (Since now (lastFailure st)) (Timeout (config cb))); [lia|done].
  - intros Hge. cbv zeta. rewrite Hh.
    destruct (Z.geb_spec (Since now (lastFailure st)) (Timeout (config cb))); [|lia].
    cbn [snd].
    pose proof (halfopen_run n ip
                  (set_states (<[ip := {| failures := failures st; successes := 0;
                                          state := StateHalfOpen;
                                          lastFailure := lastFailure st |}]>
                                 (states cb)) cb)
                  {| failures := failures st; successes := 0; state := StateHalfOpen;
                     lastFailure := lastFailure st |} 0) as Hrun.
    cbn [states set_states config] in Hrun. rewrite lookup_insert_eq in Hrun.
    specialize (Hrun HS ltac:(by vm_compute) eq_refl eq_refl eq_refl).
    cbv zeta in Hrun. rewrite Z.add_0_l in Hrun.
    destruct ((1 <=? Z.of_nat n) && _).
    + destruct Hrun as [Hc [st' Hs']]. split; [done|].
      unfold CircuitBreaker_GetState, closed_with in *. rewrite Hs' in *. by destruct Hc.
    + destruct Hrun as (st' & Hs' & Hst' & _).
      unfold CircuitBreaker_GetState. by rewrite Hs'.
Qed.

Lemma CircuitBreaker_recovers_after_timeout_witness :
  let cb := foldl (fun cb t => CircuitBreaker_RecordFailure t "10.0.0.1" cb)
              (NewCircuitBreaker DefaultCircuitBreakerConfig) [100; 200; 300; 400; 500] in
  let half := (CircuitBreaker_IsHealthy (500 + 30 * Second) "10.0.0.1" cb).2 in
  CircuitBreaker_RecordSuccess "10.0.0.1" cb = cb /\
  CircuitBreaker_GetState "10.0.0.1" (record_successes 1 "10.0.0.1" half) = StateHalfOpen /\
  CircuitBreaker_GetState "10.0.0.1" (record_successes 2 "10.0.0.1" half) = StateClosed.
Proof.
  cbv zeta.
  pose proof (fun n => CircuitBreaker_recovers_after_timeout (500 + 30 * Second) "10.0.0.1"
                (foldl (fun cb t => CircuitBreaker_RecordFailure t "10.0.0.1" cb)
                   (NewCircuitBreaker DefaultCircuitBreakerConfig) [100; 200; 300; 400; 500])
                {| failures := 5; successes := 0; state := StateOpen; lastFailure := 500 |}
                n ltac:(by vm_compute) eq_refl eq_refl) as H.
  split; [exact (proj1 (H 0%nat))|]. split.
  - exact (proj2 (proj2 (proj2 (H 1%nat))) ltac:(by vm_compute)).
  - exact (proj2 (proj2 (proj2 (proj2 (H 2%nat))) ltac:(by vm_compute))).
Defined.

(** *** An invariant of the breaker *)

Lemma breaker_step_config (cb : CircuitBreaker) (c : breaker_call) :
  config (breaker_step cb c) = config cb.
Proof.
  destruct c; cbn [breaker_step]; try done.
  - apply IsHealthy_config.
  - apply RecordSuccess_config.
  - apply RecordFailure_config.
Qed.

Lemma breaker_ok_insert (cb : CircuitBreaker) (ip : string) (st : ipState) :
  breaker_ok cb -> ipState_ok (config cb) st ->
  breaker_ok (set_states (<[ip := st]> (states cb)) cb).
Proof.
  intros Hok Hst ip' st'. cbn [states set_states config].
  destruct (decide (ip = ip')) as [->|Hne].
  - rewrite lookup_insert_eq. by intros [= <-].
  - rewrite lookup_insert_ne by done. apply Hok.
Qed.

Lemma breaker_step_ok (cb : CircuitBreaker) (c : breaker_call) :
  FailureThreshold (config cb) <= MaxInt64 ->
  SuccessThreshold (config cb) <= MaxInt64 ->
  breaker_ok cb -> breaker_ok (breaker_step cb c).
Proof.
  intros HF HS Hok.
  assert (H1 : 1 < MaxInt64) by (by vm_compute).
  destruct c as [now ip|ip|now ip|ip|]; cbn [breaker_step].
  - unfold CircuitBreaker_IsHealthy.
    destruct (states cb !! ip) as [st|] eqn:E; [|done].
    pose proof (Hok ip st E) as Hst. unfold ipState_ok in Hst.
    destruct (state st) eqn:Es; try done.
    destruct (_ >=? _); [|done]. cbn [snd].
    apply breaker_ok_insert; [done|]. unfold ipState_ok. cbn. lia.
  - unfold CircuitBreaker_RecordSuccess.
    destruct (states cb !! ip) as [st|] eqn:E; [|done].
    pose proof (Hok ip st E) as Hst. unfold ipState_ok in Hst.
    destruct (state st) eqn:Es; try done.
    + apply breaker_ok_insert; [done|]. unfold ipState_ok. cbn. lia.
    + rewrite add64_succ by lia.
      destruct (Z.geb_spec (successes st + 1) (SuccessThreshold (config cb)));
        (apply breaker_ok_insert; [done|]); unfold ipState_ok; cbn; lia.
  - unfold CircuitBreaker_RecordFailure, CircuitBreaker_getOrCreateState.
    destruct (states cb !! ip) as [st|] eqn:E.
    + pose proof (Hok ip st E) as Hst. unfold ipState_ok in Hst.
      apply breaker_ok_insert; [done|].
      destruct (state st) eqn:Es.
      * rewrite add64_succ by lia.
        destruct (Z.geb_spec (failures st + 1) (FailureThreshold (config cb)));
          unfold ipState_ok; cbn; lia.
      * unfold ipState_ok; cbn; lia.
      * unfold ipState_ok; cbn; lia.
    + cbn [state failures successes].
      change (add64 0 1) with 1.
      apply breaker_ok_insert.
      * apply breaker_ok_insert; [done|]. unfold ipState_ok; cbn; lia.
      * cbn [config set_states].
        destruct (Z.geb_spec 1 (FailureThreshold (config cb)));
          unfold ipState_ok; cbn; lia.
  - intros ip' st'. cbn [CircuitBreaker_Reset states set_states config].
    destruct (decide (ip = ip')) as [->|Hne].
    + by rewrite lookup_delete_eq.
    + rewrite lookup_delete_ne by done. apply Hok.
  - intros ip' st'. cbn [CircuitBreaker_ResetAll states set_states config].
    by rewrite lookup_empty.
Qed.

Lemma breaker_steps_ok (calls : list breaker_call) (cb : CircuitBreaker) :
  FailureThreshold (config cb) <= MaxInt64 ->
  SuccessThreshold (config cb) <= MaxInt64 ->
  breaker_ok cb ->
  config (foldl breaker_step cb calls) = config cb /\
  breaker_ok (foldl breaker_step cb calls).
Proof.
  revert cb. induction calls as [|c calls IH]; intros cb HF HS Hok; cbn [foldl]; [done|].
  destruct (IH (breaker_step cb c)) as [Hcfg Hok'].
  - by rewrite breaker_step_config.
  - by rewrite breaker_step_config.
  - by apply breaker_step_ok.
  - split; [|done]. by rewrite Hcfg, breaker_step_config.
Qed.

(** X19.  What [GetStats] can report.  After any sequence of calls of
    [IsHealthy], [RecordSuccess], [RecordFailure], [Reset] and
    [ResetAll], for any addresses, on a new breaker whose thresholds are
    Go ints, every address that [GetStats] lists is either closed with a
    failure count that is not negative and below the failure threshold
    (below one, when the threshold is less than one), or open or
    half-open with a failure count equal to that threshold: the count
    of a circuit that is not closed never moves. *)
Theorem CircuitBreaker_GetStats_consistent (cfg : CircuitBreakerConfig)
    (calls : list breaker_call) (ip : string) (s : State) (f : Z) :
  FailureThreshold cfg <= MaxInt64 -> SuccessThreshold cfg <= MaxInt64 ->
  CircuitBreaker_GetStats (foldl breaker_step (NewCircuitBreaker cfg) calls) !! ip
  = Some (s, f) ->
  (s = StateClosed /\ 0 <= f < Z.max 1 (FailureThreshold cfg)) \/
  (s <> StateClosed /\ f = Z.max 1 (FailureThreshold cfg)).
Proof.
  intros HF HS Hstats.
  destruct (breaker_steps_ok calls (NewCircuitBreaker cfg) HF HS) as [Hcfg Hok].
  { intros ip' st'. cbn. by rewrite lookup_empty. }
  unfold CircuitBreaker_GetStats in Hstats. rewrite lookup_fmap in Hstats.
  destruct (states (foldl breaker_step (NewCircuitBreaker cfg) calls) !! ip) as [st|] eqn:E;
    [|done].
  cbn in Hstats. injection Hstats as <- <-.
  pose proof (Hok ip st E) as Hst. rewrite Hcfg in Hst. cbn [config NewCircuitBreaker] in Hst.
  unfold ipState_ok in Hst. destruct (state st); [left|right|right]; split; try done; lia.
Qed.

Lemma CircuitBreaker_GetStats_consistent_witness :
  CircuitBreaker_GetStats
    (foldl breaker_step (NewCircuitBreaker DefaultCircuitBreakerConfig)
       [CallRecordFailure 100 "10.0.0.1"; CallRecordFailure 200 "10.0.0.1";
        CallRecordSuccess "10.0.0.1"; CallRecordFailure 300 "10.0.0.1"]) !! "10.0.0.1"
  = Some (StateClosed, 1) /\
  ((StateClosed = StateClosed /\ 0 <= 1 < Z.max 1 5) \/
   (StateClosed <> StateClosed /\ 1 = Z.max 1 5)).
Proof.
  split; [by vm_compute|].
  apply (CircuitBreaker_GetStats_consistent DefaultCircuitBreakerConfig
           [CallRecordFailure 100 "10.0.0.1"; CallRecordFailure 200 "10.0.0.1";
            CallRecordSuccess "10.0.0.1"; CallRecordFailure 300 "10.0.0.1"] "10.0.0.1");
    by vm_compute.
Defined.

End BreakerExtras.

(** * Properties of the proxy's header handling *)

Section HeaderExtras.
Import gostrings http proxy.

Lemma foldl_Header_Del_lookup (ks : list string) (h : gmap string (list string))
    (k : string) :
  foldl Header_Del h ks !! k = if decide (k ∈ ks) then None else h !! k.
Proof.
  revert h. induction ks as [|a ks IH]; intros h; cbn [foldl].
  - destruct (decide (k ∈ [])) as [Hin|_]; [by apply elem_of_nil in Hin|done].
  - rewrite IH. unfold Header_Del.
    destruct (decide (k ∈ ks)) as [Hin|Hnin];
      destruct (decide (k ∈ a :: ks)) as [Hin'|Hnin']; try done.
    + exfalso. apply Hnin'. by right.
    + apply elem_of_cons in Hin' as [->|?]; [apply lookup_delete_eq|done].
    + apply lookup_delete_ne. intros ->. apply Hnin'. left.
Qed.

Lemma removeHopByHopHeaders_lookup (TrimSpace : string -> string)
    (CanonicalMIMEHeaderKey : string -> string) (header : gmap string (list string))
    (k : string) :
  removeHopByHopHeaders TrimSpace CanonicalMIMEHeaderKey header !! k
  = if decide (k ∈ hopByHopHeadersList) then None else header !! k.
Proof.
  unfold removeHopByHopHeaders.
  assert (Hconn : Header_Get (foldl Header_Del header hopByHopHeadersList) "Connection"
                  = "").
  { unfold Header_Get. rewrite foldl_Header_Del_lookup.
    rewrite decide_True; [done|]. unfold hopByHopHeadersList. left. }
  rewrite Hconn. cbn [String.eqb negb]. apply foldl_Header_Del_lookup.
Qed.

(** X20.  [removeHopByHopHeaders] removes the nine listed headers and
    nothing else.  Whatever [strings.TrimSpace] and
    [textproto.CanonicalMIMEHeaderKey] compute, the header map afterwards
    has none of the nine names of [hopByHopHeadersList] and has every
    other name with the values it had.  In particular a header that the
    request's Connection header names is kept: the Connection header is
    read after it has been deleted, so the loop over the names it lists
    never runs. *)
Theorem removeHopByHopHeaders_removes_listed_only (TrimSpace : string -> string)
    (CanonicalMIMEHeaderKey : string -> string) (header : gmap string (list string))
    (k : string) :
  removeHopByHopHeaders TrimSpace CanonicalMIMEHeaderKey header !! k
  = if decide (k ∈ hopByHopHeadersList) then None else header !! k.
Proof. apply removeHopByHopHeaders_lookup. Qed.

Lemma Header_Add_all (canon : string -> string) (key : string) (vs : list string)
    (d : gmap string (list string)) (k : string) :
  foldl (fun dst value => Header_Add canon dst key value) d vs !! k
  = if decide (k = canon key)
    then match vs with
         | [] => d !! k
         | _ :: _ => Some (default [] (d !! k) ++ vs)
         end
    else d !! k.
Proof.
  revert d. induction vs as [|v vs IH]; intros d; cbn [foldl].
  - by destruct (decide _).
  - rewrite IH. destruct (decide (k = canon key)) as [->|Hne].
    + destruct vs as [|v' vs]; unfold Header_Add; rewrite lookup_insert_eq;
        cbn [from_option id]; [done|by rewrite <- app_assoc].
    + unfold Header_Add. by rewrite lookup_insert_ne.
Qed.

Lemma copyHeaders_fold (canon : string -> string) (kvs : list (string * list string))
    (dst : gmap string (list string)) (k : string) :
  NoDup kvs.*1 -> (forall kv, kv ∈ kvs -> canon kv.1 = kv.1) ->
  foldl (fun dst kv =>
           if isHopByHop kv.1 then dst
           else foldl (fun dst value => Header_Add canon dst kv.1 value) dst kv.2)
    dst kvs !! k
  = match list_to_map (M := gmap string (list string)) kvs !! k with
    | Some (v :: vs) =>
        if isHopByHop k then dst !! k else Some (default [] (dst !! k) ++ v :: vs)
    | _ => dst !! k
    end.
Proof.
  revert dst. induction kvs as [|[k' vs'] kvs IH]; intros dst Hnd Hcanon; cbn [foldl].
  - by rewrite list_to_map_nil, lookup_empty.
  - cbn [fmap list_fmap fst] in Hnd. apply NoDup_cons in Hnd as [Hk' Hnd].
    rewrite IH; [|done|intros kv Hin; apply Hcanon; by right].
    pose proof (Hcanon (k', vs') ltac:(left)) as Hck. cbn [fst snd] in *.
    rewrite list_to_map_cons.
    destruct (decide (k' = k)) as [->|Hne].
    + rewrite lookup_insert_eq.
      rewrite (not_elem_of_list_to_map_1 (M := gmap string) kvs k Hk').
      destruct (isHopByHop k) eqn:Hhop.
      * by destruct vs'.
      * rewrite Header_Add_all, Hck. rewrite decide_True by done. by destruct vs'.
    + rewrite lookup_insert_ne by done.
      assert (Hsame : (if isHopByHop k' then dst
                       else foldl (fun dst value => Header_Add canon dst k' value) dst vs')
                      !! k = dst !! k).
      { destruct (isHopByHop k'); [done|]. rewrite Header_Add_all, Hck.
        by rewrite decide_False by done. }
      by rewrite Hsame.
Qed.

(** X21.  [copyHeaders] copies exactly the headers that are not
    hop-by-hop.  Let every name in [src] be canonical (as the names of a
    parsed response are).  After [copyHeaders dst src], a name that is
    one of the nine hop-by-hop names, or that has no value in [src], has
    in [dst] what it had before; every other name has the values it had
    in [dst] followed by all its values of [src], in their order.  This
    is so in whatever order the loop visits the headers of [src]. *)
Theorem copyHeaders_skips_hop_by_hop (CanonicalMIMEHeaderKey : string -> string)
    (range_order : list (string * list string))
    (dst src : gmap string (list string)) (k : string) :
  range_order ≡ₚ map_to_list src ->
  (forall key values, src !! key = Some values -> CanonicalMIMEHeaderKey key = key) ->
  copyHeaders_ranging CanonicalMIMEHeaderKey range_order dst !! k
  = match src !! k with
    | Some (v :: vs) =>
        if isHopByHop k then dst !! k else Some (default [] (dst !! k) ++ v :: vs)
    | _ => dst !! k
    end.
Proof.
  intros Hperm Hcanon. unfold copyHeaders_ranging.
  rewrite copyHeaders_fold.
  - by rewrite <- (list_to_map_flip src range_order).
  - rewrite Hperm. apply NoDup_fst_map_to_list.
  - intros [key values] Hin. rewrite Hperm in Hin.
    apply elem_of_map_to_list in Hin. by apply (Hcanon key values).
Qed.

Lemma copyHeaders_skips_hop_by_hop_witness :
  let src : gmap string (list string) :=
    list_to_map [("Content-Type", ["text/html"]); ("Connection", ["close"]);
                 ("Set-Cookie", ["a=1"; "b=2"])] in
  let dst : gmap string (list string) := list_to_map [("Set-Cookie", ["c=3"])] in
  copyHeaders textproto.CanonicalMIMEHeaderKey dst src !! "Set-Cookie"
  = Some ["c=3"; "a=1"; "b=2"] /\
  copyHeaders textproto.CanonicalMIMEHeaderKey dst src !! "Connection" = None.
Proof.
  cbv zeta. unfold copyHeaders.
  assert (Hc : forall key values,
             (list_to_map [("Content-Type", ["text/html"]); ("Connection", ["close"]);
                           ("Set-Cookie", ["a=1"; "b=2"])] : gmap string (list string))
               !! key = Some values ->
             textproto.CanonicalMIMEHeaderKey key = key).
  { intros key values H. apply elem_of_map_to_list in H. vm_compute in H.
    repeat (apply elem_of_cons in H as [H|H]; [injection H as -> _; by vm_compute|]).
    by apply elem_of_nil in H. }
  split.
  - rewrite (copyHeaders_skips_hop_by_hop textproto.CanonicalMIMEHeaderKey _ _ _ _
               ltac:(reflexivity) Hc).
    by vm_compute.
  - rewrite (copyHeaders_skips_hop_by_hop textproto.CanonicalMIMEHeaderKey _ _ _ _
               ltac:(reflexivity) Hc).
    by vm_compute.
Defined.

(** The nine names are canonical for the canonical form written out
    above. *)
Lemma hopByHopHeadersList_canonical :
  Forall (fun name => textproto.CanonicalMIMEHeaderKey name = name) hopByHopHeadersList.
Proof. repeat constructor. Qed.

(** X22.  The headers of the outgoing request.  Whatever
    [strings.TrimSpace] and [textproto.CanonicalMIMEHeaderKey] compute,
    the request that [createOutgoingRequest] returns has none of the nine
    hop-by-hop headers and has every other header but X-Forwarded-For as
    the incoming request has it.  When [getClientIP] gives an address
    that is not empty, X-Forwarded-For has exactly one value: that
    address, preceded by the first incoming value of X-Forwarded-For and
    a comma and a space when that value is not empty; further incoming
    values of X-Forwarded-For are dropped.  When [getClientIP] gives the
    empty string, X-Forwarded-For is left as it is.  The URL of the
    outgoing request is absolute. *)
Theorem createOutgoingRequest_headers (TrimSpace : string -> string)
    (CanonicalMIMEHeaderKey : string -> string) (r : ProxyRequest) :
  let out := createOutgoingRequest TrimSpace CanonicalMIMEHeaderKey r in
  let clientIP := getClientIP (request r) in
  let prior := Header_Get (Header (request r)) "X-Forwarded-For" in
  (forall k, k ∈ hopByHopHeadersList -> Header (request out) !! k = None) /\
  (forall k, k ∉ hopByHopHeadersList -> k <> "X-Forwarded-For" ->
             Header (request out) !! k = Header (request r) !! k) /\
  Header (request out) !! "X-Forwarded-For"
  = (if decide (clientIP = "") then Header (request r) !! "X-Forwarded-For"
     else if decide (prior = "") then Some [clientIP]
     else Some [prior +:+ ", " +:+ clientIP]) /\
  IsAbs (RequestURL out) = true.
Proof.
  cbv zeta. unfold createOutgoingRequest. cbn [request Header RequestURL].
  set (h := removeHopByHopHeaders TrimSpace CanonicalMIMEHeaderKey (Header (request r))).
  assert (Hh : forall k, h !! k = if decide (k ∈ hopByHopHeadersList) then None
                                  else Header (request r) !! k)
    by (intros k; apply removeHopByHopHeaders_lookup).
  assert (Hx : "X-Forwarded-For" ∉ hopByHopHeadersList).
  { unfold hopByHopHeadersList. intros Hin.
    repeat (apply elem_of_cons in Hin as [Hin|Hin]; [discriminate Hin|]).
    by apply elem_of_nil in Hin. }
  assert (Hprior : Header_Get h "X-Forwarded-For"
                   = Header_Get (Header (request r)) "X-Forwarded-For").
  { unfold Header_Get. by rewrite Hh, decide_False. }
  rewrite Hprior.
  set (clientIP := getClientIP (request r)).
  set (prior := Header_Get (Header (request r)) "X-Forwarded-For").
  split; [|split; [|split]].
  - intros k Hk.
    assert (Hne : k <> "X-Forwarded-For") by (intros ->; done).
    destruct (String.eqb_spec clientIP ""); cbn [negb].
    + by rewrite Hh, decide_True.
    + destruct (String.eqb_spec prior ""); cbn [negb]; unfold Header_Set;
        rewrite lookup_insert_ne by done; by rewrite Hh, decide_True.
  - intros k Hk Hne.
    destruct (String.eqb_spec clientIP ""); cbn [negb].
    + by rewrite Hh, decide_False.
    + destruct (String.eqb_spec prior ""); cbn [negb]; unfold Header_Set;
        rewrite lookup_insert_ne by done; by rewrite Hh, decide_False.
  - destruct (String.eqb_spec clientIP "") as [He|He]; cbn [negb].
    + rewrite decide_True by done. by rewrite Hh, decide_False.
    + rewrite decide_False by done.
      destruct (String.eqb_spec prior "") as [Hp|Hp]; cbn [negb]; unfold Header_Set;
        rewrite lookup_insert_eq; [by rewrite decide_True|by rewrite decide_False].
  - unfold IsAbs. destruct (String.eqb_spec (Scheme (RequestURL r)) "") as [He|He];
      cbn [negb Scheme]; [done|].
    by destruct (String.eqb_spec (Scheme (RequestURL r)) "").
Qed.

End HeaderExtras.

(** * Properties of the configured credentials and of connections *)

Section CredentialExtras.
Import gostrings config.

(** X23.  [GetAuthCredentials] splits at the first colon, and is the
    inverse of writing "user:pass".  It returns the pair
    [(username, password)] with the flag set exactly when the configured
    string is [username], a colon and [password] with no colon in
    [username]; the password may contain colons. *)
Theorem GetAuthCredentials_round_trip (cfg : Config) (username password : string) :
  GetAuthCredentials cfg = (username, password, true)
  <-> Auth cfg = username +:+ ":" +:+ password /\ index_opt username ":" = None.
Proof.
  split.
  - intros H. destruct (GetAuthCredentials_ok cfg username password H) as (H1 & H2 & _).
    done.
  - intros [HA Hu]. unfold GetAuthCredentials. rewrite HA.
    assert (Hne : String.eqb (username +:+ ":" +:+ password) "" = false).
    { destruct username; [by rewrite string_app_nil_l|by rewrite string_app_cons]. }
    rewrite Hne. unfold SplitN.
    change (2 =? 0) with false. change (2 <? 0) with false.
    change (Z.to_nat (2 - 1)) with 1%nat. cbn [split_at_most].
    rewrite (index_opt_char_app _ username password Hu).
    rewrite take_app_length.
    change (String.length ":") with 1%nat.
    rewrite <- drop_drop, drop_app_length. by rewrite string_app_cons, string_app_nil_l.
Qed.

End CredentialExtras.

Section ConnectionExtras.
Import GoInt proxy.

(** [Select] finds no candidate, or returns one, or panics where
    [GetFiltered] does. *)
Lemma Select_outcomes (now : Z) (host : string) (l : balancer.LRU) :
  match balancer.LRU_Select now host l with
  | Some (ip, Some _) => balancer.LRU_getAvailableIPs l = []
  | Some (ip, None) => ip ∈ balancer.LRU_getAvailableIPs l
  | None =>
      balancer.LRU_getAvailableIPs l <> [] /\
      balancer.History_GetFiltered now host (balancer.historyWindow l)
        (balancer.historySize l) (balancer.history l) = None
  end.
Proof.
  destruct (balancer.LRU_getAvailableIPs l) as [|ip0 rest] eqn:Ha.
  - unfold balancer.LRU_Select. by rewrite Ha.
  - assert (Hne : balancer.LRU_getAvailableIPs l <> []) by (by rewrite Ha).
    destruct (balancer.History_GetFiltered now host (balancer.historyWindow l)
                (balancer.historySize l) (balancer.history l)) as [es|] eqn:Hes.
    + pose proof (Select_unfold now host l es Hne Hes) as Hsel. rewrite Hsel.
      rewrite <- Ha. by apply (Select_least_used now host l _ es Hes Hsel).
    + unfold balancer.LRU_Select. by rewrite Ha, Hes.
Qed.

Lemma Server_available (s : Server) (ip : string) :
  ip ∈ balancer.LRU_getAvailableIPs (Server_balancer s) ->
  limiter.IsIPAvailable (limiter s) ip = true.
Proof.
  unfold balancer.LRU_getAvailableIPs, Server_balancer.
  cbn [balancer.limiter balancer.GetAvailableIPs wiring.limiter_IPLimiter].
  unfold limiter.GetAvailableIPs. by intros [H _]%list_elem_of_filter.
Qed.

(** X24.  The outcomes of [AcquireConnection].  Let the balancer read
    the server's own limiter, its health checker, if it has one, be one
    whose methods return, the limit per address be positive, and let no
    other goroutine interfere.  [AcquireConnection] panics only
    when an address is available and [GetFiltered], called by [Select],
    panics in [make].  Otherwise it has one of three outcomes.  It fails
    with the balancer's error exactly because no address is available,
    or it fails with [ErrTotalLimitReached] because the global count has
    reached its limit; in both cases the server is left exactly as it
    was: no count has changed and nothing is recorded in the history.
    Or it succeeds, with an address that the balancer offered, [Acquire]
    having granted the slot and the use being recorded in the history of
    the host.  It never fails with [ErrIPLimitReached], because the
    balancer only offers addresses that the limiter reports
    available. *)
Theorem AcquireConnection_outcomes (now now' : Z) (host requestID : string) (s : Server) :
  0 < limiter.maxPerIP (limiter s) ->
  match AcquireConnection now now' host requestID s with
  | None =>
      balancer.LRU_getAvailableIPs (Server_balancer s) <> [] /\
      balancer.History_GetFiltered now host (balancer.historyWindow (balancer s))
        (balancer.historySize (balancer s)) (balancer.history (balancer s)) = None
  | Some (inr (SelectError _), s') =>
      balancer.LRU_getAvailableIPs (Server_balancer s) = [] /\ s' = s
  | Some (inr (LimitError e), s') =>
      e = limiter.ErrTotalLimitReached /\
      limiter.maxTotal (limiter s) <= limiter.total (limiter s) /\ s' = s
  | Some (inl c, s') =>
      IP c ∈ balancer.LRU_getAvailableIPs (Server_balancer s) /\
      ConnectionHost c = host /\ RequestID c = requestID /\
      limiter.Acquire (IP c) (limiter s) = (None, limiter s') /\
      balancer s' = balancer.LRU_Record now' host (IP c) (balancer s)
  end.
Proof.
  intros Hmp. unfold AcquireConnection, selectIP.
  pose proof (Select_outcomes now host (Server_balancer s)) as Hout.
  destruct (balancer.LRU_Select now host (Server_balancer s)) as [[ip [err|]]|].
  - done.
  - pose proof (Server_available s ip Hout) as Hav.
    pose proof (Acquire_verdict ip (limiter s) Hmp) as Hv. rewrite Hav in Hv.
    destruct (limiter.Acquire ip (limiter s)) as [[e|] l'] eqn:Hacq; cbn [fst] in Hv.
    + destruct (Z.geb_spec (limiter.total (limiter s)) (limiter.maxTotal (limiter s)))
        as [Hge|Hlt]; [|done].
      injection Hv as ->. split; [done|]. split; [lia|].
      unfold limiter.Acquire in Hacq.
      destruct (Z.geb_spec (limiter.total (limiter s)) (limiter.maxTotal (limiter s)));
        [|lia].
      injection Hacq as <-. by destruct s.
    + done.
  - exact Hout.
Qed.

Lemma AcquireConnection_outcomes_witness :
  let s := {| balancer := wiring.cold_start;
              limiter := limiter.New 10 100 wiring.three_ips |} in
  match AcquireConnection 1000 1001 "example.com" "req-1" s with
  | Some (inl c, s') =>
      IP c = "192.168.1.3" /\
      limiter.GetIPCount "192.168.1.3" (limiter s') = 1 /\
      limiter.Acquire (IP c) (limiter s) = (None, limiter s')
  | _ => False
  end.
Proof.
  cbv zeta.
  pose proof (AcquireConnection_outcomes 1000 1001 "example.com" "req-1"
                {| balancer := wiring.cold_start;
                   limiter := limiter.New 10 100 wiring.three_ips |}
                ltac:(by vm_compute)) as H.
  destruct (AcquireConnection 1000 1001 "example.com" "req-1" _) as [[[c|e] s']|] eqn:E.
  - destruct H as (_ & _ & _ & Hacq & _).
    split; [|split; [|exact Hacq]].
    + vm_compute in E. by injection E as <- <-.
    + vm_compute in E. by injection E as <- <-.
  - vm_compute in E. discriminate E.
  - vm_compute in E. discriminate E.
Defined.

End ConnectionExtras.
